(** * Home-Assistant Discord bridge: name resolution and directory store

    A shallow embedding of [src/discord/ha_bot/discord_ha_bot.py].

    - Python [str] values are [string]s of ASCII characters: the command
      grammar, the separators and the character classes of the regular
      expressions of the source are all ASCII.
    - The insertion-ordered dicts that the program iterates over
      ([cfg["aliases"]], [cfg["groups"]]) are association lists; the dicts
      that are only probed by key ([alias_lookup], [group_lookup],
      [exact_index]) are [gmap]s.
    - The configuration follows the schema the source documents,
      [{"aliases": {Pretty Name: entity_id}, "groups": {Pretty Name: [members...]}}];
      a group value may also be a JSON string, the case
      [isinstance(members, list)] guards against.
    - The two dicts inside the module-level [DEFAULT_CONFIG] are shared
      objects, and the configuration file is part of the state: both live in
      a [World] that the commands pass along.  [json.load] and the webhook
      are parameters; writing the file is taken to succeed. *)

From stdpp Require Import base option list strings gmap sorting.
From Stdlib Require Import Ascii String NArith DecimalString DecimalN DecimalPos Lia.

Open Scope string_scope.

(** ** Characters and text helpers *)

Module Text.

(** [str.isspace] / the class [\s] on ASCII: TAB..CR, FS..US and SPACE. *)
Definition is_space (c : ascii) : bool :=
  let n := nat_of_ascii c in
  (((9 <=? n) && (n <=? 13)) || ((28 <=? n) && (n <=? 31)) || (n =? 32))%nat.

Definition is_upper (c : ascii) : bool :=
  let n := nat_of_ascii c in ((65 <=? n) && (n <=? 90))%nat.

Definition is_lower (c : ascii) : bool :=
  let n := nat_of_ascii c in ((97 <=? n) && (n <=? 122))%nat.

Definition is_digit (c : ascii) : bool :=
  let n := nat_of_ascii c in ((48 <=? n) && (n <=? 57))%nat.

(** The class [\w] on ASCII: letters, digits and the underscore. *)
Definition is_word (c : ascii) : bool :=
  is_upper c || is_lower c || is_digit c || (nat_of_ascii c =? 95)%nat.

Definition lower_char (c : ascii) : ascii :=
  if is_upper c then ascii_of_nat (nat_of_ascii c + 32) else c.

(** [s.lower()] *)
Fixpoint lower (s : string) : string :=
  match s with
  | EmptyString => EmptyString
  | String c s' => String (lower_char c) (lower s')
  end.

(** Generic character filter: [re.sub(r"[^...]+", "", s)] keeps exactly the
    characters of the complemented class, in order. *)
Fixpoint keep (p : ascii -> bool) (s : string) : string :=
  match s with
  | EmptyString => EmptyString
  | String c s' => if p c then String c (keep p s') else keep p s'
  end.

Fixpoint all_chars (p : ascii -> bool) (s : string) : bool :=
  match s with
  | EmptyString => true
  | String c s' => p c && all_chars p s'
  end.

(** The class [[a-z0-9]]. *)
Definition is_norm_char (c : ascii) : bool := is_lower c || is_digit c.

(** [s.lstrip()], [s.rstrip()], [s.strip()] *)
Fixpoint lstrip (s : string) : string :=
  match s with
  | EmptyString => EmptyString
  | String c s' => if is_space c then lstrip s' else s
  end.

Fixpoint rstrip (s : string) : string :=
  match s with
  | EmptyString => EmptyString
  | String c s' =>
      match rstrip s' with
      | EmptyString => if is_space c then EmptyString else String c EmptyString
      | r => String c r
      end
  end.

Definition strip (s : string) : string := rstrip (lstrip s).

(** [s.startswith(p)] *)
Fixpoint startswith (p s : string) : bool :=
  match p, s with
  | EmptyString, _ => true
  | String a p', String b s' => if Ascii.eqb a b then startswith p' s' else false
  | String _ _, EmptyString => false
  end.

(** [needle in haystack] on strings: substring test. *)
Fixpoint contains (needle hay : string) : bool :=
  startswith needle hay ||
  match hay with
  | EmptyString => false
  | String _ hay' => contains needle hay'
  end.

(** [re.split] on a pattern [[sep]+] (a non-empty run of separator
    characters): [cur] is the token being read, [in_sep] tells whether the
    previous character was a separator.  A separator run at either end of
    the input yields an empty token there, as in Python. *)
Fixpoint re_split_go (sep : ascii -> bool) (cur : string) (in_sep : bool)
    (s : string) : list string :=
  match s with
  | EmptyString => [cur]
  | String c s' =>
      if sep c
      then (if in_sep then re_split_go sep "" true s'
            else cur :: re_split_go sep "" true s')
      else re_split_go sep (cur ++ String c "") false s'
  end.

Definition re_split (sep : ascii -> bool) (s : string) : list string :=
  re_split_go sep "" false s.

(** [sep.join(parts)] *)
Fixpoint join (sep : string) (parts : list string) : string :=
  match parts with
  | [] => ""
  | [x] => x
  | x :: rest => x ++ sep ++ join sep rest
  end.

(** Truthiness of a string: [if s:] *)
Definition nonempty (s : string) : bool :=
  match s with EmptyString => false | String _ _ => true end.

End Text.

Import Text.

(** [normalize_name]: [re.sub(r"[^a-z0-9]+", "", s.lower())] *)
Definition normalize_name (s : string) : string :=
  keep is_norm_char (lower s).

(** ** Numeric suffix expansion ([HABot.expand_numbers_suffix]) *)

Module Suffix.

(** The needles of the first guard: [",", " and ", "-", " to "]. *)
Definition separators : list string := [","; " and "; "-"; " to "].

(** [any(x in text for x in separators)] *)
Definition has_separator (text : string) : bool :=
  existsb (fun x => contains x text) separators.

(** The class [[0-9 ,\-andto]] under [re.IGNORECASE]. *)
Definition in_suffix_class (c : ascii) : bool :=
  is_digit c
  || existsb (Ascii.eqb c) [" "; ","; "-"]%char
  || existsb (Ascii.eqb (lower_char c)) ["a"; "n"; "d"; "t"; "o"]%char.

Definition newline : ascii := ascii_of_nat 10.

(** Longest prefix made of class characters, and what follows it. *)
Fixpoint span_class (s : string) : string * string :=
  match s with
  | EmptyString => (EmptyString, EmptyString)
  | String c s' =>
      if in_suffix_class c
      then let '(g, rest) := span_class s' in (String c g, rest)
      else (EmptyString, s)
  end.

(** [([0-9 ,\-andto]+)$] anchored at the start of [s]: a non-empty run of
    class characters reaching the end of the string (or the newline that
    ends it, which is where [$] also matches). *)
Definition match_class_end (s : string) : option string :=
  let '(g, rest) := span_class s in
  if nonempty g && (String.eqb rest "" || String.eqb rest (String newline ""))
  then Some g else None.

(** [\s+([0-9 ,\-andto]+)$] anchored at the start of [s]; [\s+] is greedy and
    gives characters back one at a time. *)
Fixpoint match_ws_class (s : string) : option string :=
  match s with
  | EmptyString => None
  | String c s' =>
      if is_space c then
        match match_ws_class s' with
        | Some g => Some g
        | None => match_class_end s'
        end
      else None
  end.

(** [re.match(r"(.+?)\s+([0-9 ,\-andto]+)$", text, flags=re.IGNORECASE)]:
    the lazy first group is the shortest non-empty newline-free prefix after
    which the rest of the pattern matches.  Returns groups 1 and 2. *)
Fixpoint re_match_suffix (text : string) : option (string * string) :=
  match text with
  | EmptyString => None
  | String c s' =>
      if Ascii.eqb c newline then None
      else match match_ws_class s' with
           | Some g => Some (String c EmptyString, g)
           | None =>
               match re_match_suffix s' with
               | Some (b, g) => Some (String c b, g)
               | None => None
               end
           end
  end.

(** Case-insensitive [startswith]. *)
Fixpoint startswith_ci (p s : string) : bool :=
  match p, s with
  | EmptyString, _ => true
  | String a p', String b s' =>
      if Ascii.eqb (lower_char a) (lower_char b) then startswith_ci p' s' else false
  | String _ _, EmptyString => false
  end.

(** The character right after the first [n] characters of [s], if any. *)
Fixpoint char_at (n : nat) (s : string) : option ascii :=
  match s, n with
  | EmptyString, _ => None
  | String c _, O => Some c
  | String _ s', S n' => char_at n' s'
  end.

(** [\bw\b] matches at the start of [s] when the previous character is not a
    word character, [s] starts with [w] (ignoring case) and no word
    character follows. [w] is made of word characters. *)
Definition word_here (w : string) (prev_word : bool) (s : string) : bool :=
  negb prev_word && startswith_ci w s &&
  match char_at (String.length w) s with
  | Some c => negb (is_word c)
  | None => true
  end.

(** Left-to-right scan of [re.sub(rf"\b{w}\b", rep, s, flags=re.IGNORECASE)].
    [skip] counts the characters of a match still to be consumed. *)
Fixpoint sub_word_go (w rep : string) (prev_word : bool) (skip : nat)
    (s : string) : string :=
  match s with
  | EmptyString => EmptyString
  | String c s' =>
      match skip with
      | S k => sub_word_go w rep (is_word c) k s'
      | O =>
          if word_here w prev_word s
          then rep ++ sub_word_go w rep (is_word c) (String.length w - 1) s'
          else String c (sub_word_go w rep (is_word c) 0 s')
      end
  end.

Definition sub_word (w rep s : string) : string :=
  sub_word_go w rep false 0 s.

(** [re.split(r"[,\s]+", s)] *)
Definition is_token_sep (c : ascii) : bool :=
  Ascii.eqb c ","%char || is_space c.

Definition re_split_tokens (s : string) : list string :=
  re_split is_token_sep s.

(** [token.split("-", 1)] for a token that contains a hyphen. *)
Fixpoint split_hyphen (s : string) : option (string * string) :=
  match s with
  | EmptyString => None
  | String c s' =>
      if Ascii.eqb c "-"%char then Some (EmptyString, s')
      else match split_hyphen s' with
           | Some (a, b) => Some (String c a, b)
           | None => None
           end
  end.

(** [s.isdigit()] *)
Definition isdigit (s : string) : bool := nonempty s && all_chars is_digit s.

(** [int(s)] for a string of decimal digits. *)
Fixpoint int_go (acc : N) (s : string) : N :=
  match s with
  | EmptyString => acc
  | String c s' => int_go (10 * acc + N.of_nat (nat_of_ascii c - 48)) s'
  end.

Definition int (s : string) : N := int_go 0 s.

(** [range(start, stop)] *)
Definition range (start stop : N) : list N :=
  map (fun i => (start + N.of_nat i)%N) (seq 0 (N.to_nat (stop - start))).

(** One iteration of the loop over the tokens: the numbers added to the set
    [numbers] by this token. *)
Definition token_numbers (token0 : string) : list N :=
  let token := strip token0 in
  if negb (nonempty token) then []
  else match split_hyphen token with
       | Some (a0, b0) =>
           let a := strip a0 in
           let b := strip b0 in
           if isdigit a && isdigit b then
             let start := int a in
             let end_ := int b in
             if (start <=? end_)%N then range start (end_ + 1) else []
           else []
       | None => if isdigit token then [int token] else []
       end.

(** The set [numbers] after the loop. *)
Definition collect_numbers (nums_part : string) : gset N :=
  foldl (fun numbers token => numbers ∪ list_to_set (token_numbers token))
        ∅ (re_split_tokens nums_part).

(** [sorted(numbers)] *)
Definition sorted (numbers : gset N) : list N :=
  merge_sort N.le (elements numbers).

(** [str(n)] *)
Definition str_of_N (n : N) : string := NilZero.string_of_uint (N.to_uint n).

(** The numbers the loop extracts from the text: [None] when the pattern
    does not match, otherwise the set [numbers]. *)
Definition suffix_numbers (text : string) : option (gset N) :=
  match re_match_suffix text with
  | None => None
  | Some (_, g2) => Some (collect_numbers (sub_word "to" "-" (sub_word "and" "," g2)))
  end.

Definition expand_numbers_suffix (raw_target : string) : list string :=
  let text := strip raw_target in
  if negb (has_separator text) then [text]
  else match re_match_suffix text with
       | None => [text]
       | Some (g1, g2) =>
           let base := strip g1 in
           let nums_part := sub_word "to" "-" (sub_word "and" "," g2) in
           let numbers := collect_numbers nums_part in
           if decide (numbers = ∅) then [text]
           else map (fun n => base ++ " " ++ str_of_N n) (sorted numbers)
       end.

End Suffix.

(** ** Insertion-ordered dictionaries

    [cfg["aliases"]] and [cfg["groups"]] are Python dicts that the program
    iterates over, so the order of their entries is kept. *)

Module Dict.
Section ops.
Context {V : Type}.

(** [d.get(k)] *)
Fixpoint get (k : string) (d : list (string * V)) : option V :=
  match d with
  | [] => None
  | (k', v) :: d' => if String.eqb k k' then Some v else get k d'
  end.

(** [d[k] = v]: an existing key keeps its place, a new key goes last. *)
Fixpoint set (k : string) (v : V) (d : list (string * V)) : list (string * V) :=
  match d with
  | [] => [(k, v)]
  | (k', v') :: d' =>
      if String.eqb k k' then (k', v) :: d' else (k', v') :: set k v d'
  end.

(** [del d[k]] for a key of [d]. *)
Fixpoint del (k : string) (d : list (string * V)) : list (string * V) :=
  match d with
  | [] => []
  | (k', v') :: d' => if String.eqb k k' then d' else (k', v') :: del k d'
  end.

(** [list(d.keys())] *)
Definition keys (d : list (string * V)) : list string := map fst d.
End ops.
End Dict.

(** ** The directory configuration and its file *)

(** [cfg["aliases"]]: pretty name -> entity id. *)
Definition Aliases : Type := list (string * string).

(** A value of [cfg["groups"]]: the list of members, or a JSON value that is
    not a list (here a string), which the source tolerates through
    [isinstance(members, list)]. *)
Inductive GroupValue : Type :=
  | Members (ms : list string)
  | NotAList (v : string).

(** [cfg["groups"]]: pretty name -> members. *)
Definition Groups : Type := list (string * GroupValue).

(** [json.dump(cfg, f, indent=2, ensure_ascii=False)] *)
Module Json.

Definition quote : ascii := ascii_of_nat 34.
Definition backslash : ascii := ascii_of_nat 92.
Definition nl : string := String (ascii_of_nat 10) "".

Definition hex_digit (n : nat) : ascii :=
  if (n <? 10)%nat then ascii_of_nat (48 + n) else ascii_of_nat (87 + n).

Definition escape_char (c : ascii) : string :=
  let n := nat_of_ascii c in
  if Ascii.eqb c quote then String backslash (String quote "")
  else if Ascii.eqb c backslash then String backslash (String backslash "")
  else if (n =? 10)%nat then String backslash "n"
  else if (n =? 13)%nat then String backslash "r"
  else if (n =? 9)%nat then String backslash "t"
  else if (n =? 8)%nat then String backslash "b"
  else if (n =? 12)%nat then String backslash "f"
  else if (n <? 32)%nat
       then String backslash
              ("u00" ++ String (hex_digit (n / 16)) (String (hex_digit (n mod 16)) ""))
  else String c "".

Fixpoint escape (s : string) : string :=
  match s with
  | EmptyString => EmptyString
  | String c s' => escape_char c ++ escape s'
  end.

Definition dump_str (s : string) : string :=
  String quote (escape s ++ String quote "").

Fixpoint indent (level : nat) : string :=
  match level with
  | O => ""
  | S l => "  " ++ indent l
  end.

(** A non-empty container: one item per line, one level deeper. *)
Definition block (open close : string) (level : nat) (items : list string) : string :=
  match items with
  | [] => open ++ close
  | _ =>
      open ++ nl
      ++ join ("," ++ nl) (map (fun it => indent (S level) ++ it) items)
      ++ nl ++ indent level ++ close
  end.

Definition dump_aliases (level : nat) (a : Aliases) : string :=
  block "{" "}" level
    (map (fun '(k, v) => dump_str k ++ ": " ++ dump_str v) a).

Definition dump_group_value (level : nat) (g : GroupValue) : string :=
  match g with
  | Members ms => block "[" "]" level (map dump_str ms)
  | NotAList v => dump_str v
  end.

Definition dump_groups (level : nat) (g : Groups) : string :=
  block "{" "}" level
    (map (fun '(k, v) => dump_str k ++ ": " ++ dump_group_value (S level) v) g).

Definition dump (a : Aliases) (g : Groups) : string :=
  block "{" "}" 0
    [dump_str "aliases" ++ ": " ++ dump_aliases 1 a;
     dump_str "groups" ++ ": " ++ dump_groups 1 g].

End Json.

(** Where a section of a configuration dict lives.  [DEFAULT_CONFIG.copy()]
    is a shallow copy: the copy's ["aliases"] and ["groups"] are the very
    dict objects of [DEFAULT_CONFIG], shared by every configuration obtained
    that way.  A section parsed from the file is a fresh dict. *)
Inductive DictRef (A : Type) : Type :=
  | Shared
  | Own (d : A).
Arguments Shared {A}.
Arguments Own {A} d.

(** [CONFIG_PATH] as the program sees it. *)
Inductive FileState : Type :=
  | Missing                 (* [CONFIG_PATH.exists()] is false *)
  | Unreadable              (* [open] raises *)
  | Content (bytes : string).

(** Module-level state: the two dict objects inside [DEFAULT_CONFIG] and the
    configuration file. *)
Record World : Type := mkWorld {
  default_aliases : Aliases;
  default_groups : Groups;
  config_file : FileState;
}.

(** The state right after the module is imported, for a given file. *)
Definition initial_world (f : FileState) : World :=
  {| default_aliases := []; default_groups := []; config_file := f |}.

(** A configuration dict: where its two sections live. *)
Record Cfg : Type := mkCfg {
  aliases_ref : DictRef Aliases;
  groups_ref : DictRef Groups;
}.

(** [cfg["aliases"]] and [cfg["groups"]]: the current content of the dict
    the section refers to. *)
Definition cfg_aliases (w : World) (c : Cfg) : Aliases :=
  match aliases_ref c with
  | Shared => default_aliases w
  | Own d => d
  end.

Definition cfg_groups (w : World) (c : Cfg) : Groups :=
  match groups_ref c with
  | Shared => default_groups w
  | Own d => d
  end.

(** In-place update of the dict behind [cfg["aliases"]] / [cfg["groups"]]. *)
Definition update_aliases (f : Aliases -> Aliases) (w : World) (c : Cfg) : World * Cfg :=
  match aliases_ref c with
  | Shared =>
      ({| default_aliases := f (default_aliases w);
          default_groups := default_groups w;
          config_file := config_file w |}, c)
  | Own d => (w, {| aliases_ref := Own (f d); groups_ref := groups_ref c |})
  end.

Definition update_groups (f : Groups -> Groups) (w : World) (c : Cfg) : World * Cfg :=
  match groups_ref c with
  | Shared =>
      ({| default_aliases := default_aliases w;
          default_groups := f (default_groups w);
          config_file := config_file w |}, c)
  | Own d => (w, {| aliases_ref := aliases_ref c; groups_ref := Own (f d) |})
  end.

(** [DEFAULT_CONFIG.copy()] *)
Definition DEFAULT_CONFIG_copy : Cfg :=
  {| aliases_ref := Shared; groups_ref := Shared |}.

(** What [json.load] returns for a document of the directory schema: a value
    that is not a dict, or a dict in which each section is present or not. *)
Inductive JsonDoc : Type :=
  | NotADict
  | Dict (a : option Aliases) (g : option Groups).

Section Load.
(** [json.load] on the bytes of the file; [None] when it raises. *)
Variable json_load : string -> option JsonDoc.

Definition load_config (w : World) : Cfg :=
  match config_file w with
  | Missing => DEFAULT_CONFIG_copy
  | Unreadable => DEFAULT_CONFIG_copy
  | Content bytes =>
      match json_load bytes with
      | None => DEFAULT_CONFIG_copy
      | Some NotADict => DEFAULT_CONFIG_copy
      | Some (Dict a g) =>
          {| aliases_ref := Own (default [] a);
             groups_ref := Own (default [] g) |}
      end
  end.
End Load.

(** [save_config(cfg)]: the file now holds the serialization of [cfg]. *)
Definition save_config (w : World) (c : Cfg) : World :=
  {| default_aliases := default_aliases w;
     default_groups := default_groups w;
     config_file := Content (Json.dump (cfg_aliases w c) (cfg_groups w c)) |}.

(** ** The bot ([class HABot]) *)

(** An element of [self.entities]. *)
Record Entity : Type := mkEntity {
  entity_id : string;
  friendly : string;
  norm_friendly : string;
  norm_entity : string;
  domain : string;
}.

Record HABot : Type := mkBot {
  cfg : Cfg;
  alias_lookup : gmap string (string * string);       (* normalized -> (pretty, entity_id) *)
  group_lookup : gmap string (string * list string);  (* normalized -> (pretty, members) *)
  entities : list Entity;
  exact_index : gmap string string;                   (* normalized -> entity_id *)
}.

(** [HABot.__init__] with the configuration [load_config()] returned. *)
Definition init_bot (c : Cfg) : HABot :=
  {| cfg := c; alias_lookup := ∅; group_lookup := ∅;
     entities := []; exact_index := ∅ |}.

(** *** [rebuild_lookups_from_cfg] *)

Definition alias_lookup_of (a : Aliases) : gmap string (string * string) :=
  foldl (fun lookup '(pretty, ent) =>
           let norm := normalize_name pretty in
           if nonempty norm then <[norm := (pretty, ent)]> lookup else lookup)
        ∅ a.

Definition members_list (v : GroupValue) : list string :=
  match v with
  | Members ms => ms
  | NotAList _ => []
  end.

Definition group_lookup_of (g : Groups) : gmap string (string * list string) :=
  foldl (fun lookup '(pretty, members) =>
           let norm := normalize_name pretty in
           if nonempty norm then <[norm := (pretty, members_list members)]> lookup
           else lookup)
        ∅ g.

Definition rebuild_lookups_from_cfg (w : World) (bot : HABot) : HABot :=
  {| cfg := cfg bot;
     alias_lookup := alias_lookup_of (cfg_aliases w (cfg bot));
     group_lookup := group_lookup_of (cfg_groups w (cfg bot));
     entities := entities bot;
     exact_index := exact_index bot |}.

(** *** [build_entity_index], after the HTTP response was decoded *)

(** One record of the backend's answer: its id and, when the attributes
    carry one, its friendly name. *)
Record Item : Type := mkItem {
  item_entity_id : string;
  item_friendly_name : option string;
}.

(** [s.split(".", 1)[0]] *)
Fixpoint before_dot (s : string) : string :=
  match s with
  | EmptyString => EmptyString
  | String c s' => if Ascii.eqb c "."%char then EmptyString else String c (before_dot s')
  end.

Definition entity_of_item (item : Item) : Entity :=
  let eid := item_entity_id item in
  let friendly :=
    match item_friendly_name item with
    | Some f => if nonempty f then f else eid
    | None => eid
    end in
  {| entity_id := eid;
     friendly := friendly;
     norm_friendly := normalize_name friendly;
     norm_entity := normalize_name eid;
     domain := if nonempty eid && contains "." eid then before_dot eid else "" |}.

Definition index_entity (index : gmap string string) (ent : Entity) : gmap string string :=
  let index1 :=
    if nonempty (norm_friendly ent)
    then <[norm_friendly ent := entity_id ent]> index else index in
  if nonempty (norm_entity ent)
  then <[norm_entity ent := entity_id ent]> index1 else index1.

Definition build_entity_index (data : list Item) (bot : HABot) : HABot :=
  let ents := map entity_of_item data in
  {| cfg := cfg bot;
     alias_lookup := alias_lookup bot;
     group_lookup := group_lookup bot;
     entities := ents;
     exact_index := foldl index_entity ∅ ents |}.

(** *** Resolution *)

Definition preferred_domains : list string := ["light"; "switch"; "fan"].

(** [e["domain"] in preferred_domains] *)
Definition is_preferred (e : Entity) : bool :=
  existsb (String.eqb (domain e)) preferred_domains.

(** [norm_input in ent["norm_friendly"] or norm_input in ent["norm_entity"]] *)
Definition contains_match (norm_input : string) (ent : Entity) : bool :=
  contains norm_input (norm_friendly ent) || contains norm_input (norm_entity ent).

(** [[t for t in re.split(r"\s+", name.lower()) if t]] *)
Definition tokens_of (name : string) : list string :=
  List.filter nonempty (re_split is_space (lower name)).

(** [all(tok in ent["friendly"].lower() for tok in tokens)] *)
Definition token_match (tokens : list string) (ent : Entity) : bool :=
  forallb (fun tok => contains tok (lower (friendly ent))) tokens.

(** The token pass of [_resolve_against_ha], entered with the candidates the
    substring pass left. *)
Definition token_pass (bot : HABot) (name : string) (candidates : list Entity)
    : option string * list Entity :=
  let tokens := tokens_of name in
  match candidates, tokens with
  | [], _ :: _ =>
      let token_candidates := List.filter (token_match tokens) (entities bot) in
      match token_candidates with
      | [e] => (Some (entity_id e), token_candidates)
      | _ :: _ => (None, token_candidates)
      | [] => (None, candidates)
      end
  | _, _ => (None, candidates)
  end.

(** [HABot._resolve_against_ha] *)
Definition _resolve_against_ha (bot : HABot) (name : string)
    : option string * list Entity :=
  let norm_input := normalize_name name in
  if negb (nonempty norm_input) then (None, [])
  else
    match exact_index bot !! norm_input with
    | Some eid => (Some eid, [])
    | None =>
        let candidates := List.filter (contains_match norm_input) (entities bot) in
        match candidates with
        | [] => token_pass bot name candidates
        | _ :: _ =>
            let preferred := List.filter is_preferred candidates in
            match preferred with
            | [e] => (Some (entity_id e), preferred)
            | _ :: _ :: _ => token_pass bot name preferred
            | [] => token_pass bot name candidates
            end
        end
    end.

(** Truthiness of the first component: [if ent:] *)
Definition truthy (ent : option string) : bool :=
  match ent with
  | Some e => nonempty e
  | None => false
  end.

(** One iteration of the loop over the members of a group: [expanded] after
    the member [m] was handled. *)
Definition expand_member (bot : HABot) (expanded : list string) (m : string)
    : list string :=
  let mn := normalize_name m in
  match alias_lookup bot !! mn with
  | Some (_, ent) => (expanded ++ [ent])%list
  | None =>
      if contains "." m then (expanded ++ [m])%list
      else
        match _resolve_against_ha bot m with
        | (Some ent, _) => if nonempty ent then (expanded ++ [ent])%list else expanded
        | (None, _) => expanded
        end
  end.

(** [list(dict.fromkeys(l))]: the keys of the dict built by inserting the
    elements of [l] one after the other. *)
Definition fromkeys (l : list string) : list string :=
  foldl (fun keys x => if existsb (String.eqb x) keys then keys else (keys ++ [x])%list) [] l.

(** The expansion of a group: the loop over its members, then
    [list(dict.fromkeys(expanded))]. *)
Definition group_expansion (bot : HABot) (members : list string) : list string :=
  let expanded := foldl (expand_member bot) [] members in
  fromkeys expanded.

(** [HABot.resolve_single_target] *)
Definition resolve_single_target (bot : HABot) (target_name : string)
    : list string * list Entity :=
  let norm := normalize_name target_name in
  match group_lookup bot !! norm with
  | Some (pretty, members) => (group_expansion bot members, [])
  | None =>
      match alias_lookup bot !! norm with
      | Some (_, ent) => ([ent], [])
      | None =>
          let '(ent, cands) := _resolve_against_ha bot target_name in
          ((match ent with
            | Some e => if nonempty e then [e] else []
            | None => []
            end), cands)
      end
  end.

(** *** Admin commands ([handle_alias_command], [handle_group_command])

    The branches that change the directory, entered with the arguments that
    [parse_quoted_name] and [split_members] extracted from the message.

    What the bot sends back: [reply_text] is the text of the source without
    its leading pictograph, the arrow written [->]. *)
Inductive Reply : Type :=
  | AliasSaved (name entity_id : string)
  | AliasRemoved
  | AliasNotFound
  | GroupSaved (name : string) (set_mode : bool) (count : nat)
  | GroupRemoved
  | GroupNotFound.

Definition reply_text (r : Reply) : string :=
  match r with
  | AliasSaved name eid => "Alias saved: `" ++ name ++ "` -> `" ++ eid ++ "`"
  | AliasRemoved => "Alias removed."
  | AliasNotFound => "Alias not found."
  | GroupSaved name set_mode count =>
      "Group `" ++ name ++ "` " ++ (if set_mode then "set" else "updated")
      ++ " with " ++ Suffix.str_of_N (N.of_nat count) ++ " member(s)."
  | GroupRemoved => "Group removed."
  | GroupNotFound => "Group not found."
  end.

Definition with_cfg (bot : HABot) (c : Cfg) : HABot :=
  {| cfg := c;
     alias_lookup := alias_lookup bot;
     group_lookup := group_lookup bot;
     entities := entities bot;
     exact_index := exact_index bot |}.

(** The tail of every mutating command: [save_config(self.cfg)] then
    [self.rebuild_lookups_from_cfg()]. *)
Definition save_and_rebuild (w : World) (bot : HABot) : World * HABot :=
  let w' := save_config w (cfg bot) in
  (w', rebuild_lookups_from_cfg w' bot).

(** [!alias add] (lines 405-408): [self.cfg["aliases"][name] = entity_id],
    save, rebuild. *)
Definition alias_add (name entity_id : string) (w : World) (bot : HABot)
    : World * HABot * Reply :=
  let '(w1, c1) := update_aliases (Dict.set name entity_id) w (cfg bot) in
  let '(w2, bot2) := save_and_rebuild w1 (with_cfg bot c1) in
  (w2, bot2, AliasSaved name entity_id).

(** The deletion loop shared by [!alias del] and [!group del]:
    [for pretty in list(d.keys()): if normalize_name(pretty) == norm: del d[pretty]; deleted = True] *)
Definition del_matching {V : Type} (norm : string) (d : list (string * V))
    : list (string * V) * bool :=
  foldl (fun '(d', deleted) pretty =>
           if String.eqb (normalize_name pretty) norm
           then (Dict.del pretty d', true)
           else (d', deleted))
        (d, false) (Dict.keys d).

(** [!alias del] (lines 416-424) *)
Definition alias_del (name : string) (w : World) (bot : HABot)
    : World * HABot * Reply :=
  let norm := normalize_name name in
  let deleted := snd (del_matching norm (cfg_aliases w (cfg bot))) in
  let '(w1, c1) := update_aliases (fun d => fst (del_matching norm d)) w (cfg bot) in
  let '(w2, bot2) := save_and_rebuild w1 (with_cfg bot c1) in
  (w2, bot2, if deleted then AliasRemoved else AliasNotFound).

(** [!group del] (lines 497-505) *)
Definition group_del (name : string) (w : World) (bot : HABot)
    : World * HABot * Reply :=
  let norm := normalize_name name in
  let deleted := snd (del_matching norm (cfg_groups w (cfg bot))) in
  let '(w1, c1) := update_groups (fun d => fst (del_matching norm d)) w (cfg bot) in
  let '(w2, bot2) := save_and_rebuild w1 (with_cfg bot c1) in
  (w2, bot2, if deleted then GroupRemoved else GroupNotFound).

(** The first stored pretty name with the given normalization:
    [for pretty in d.keys(): if normalize_name(pretty) == norm: existing_key = pretty; break] *)
Definition existing_key {V : Type} (norm : string) (d : list (string * V)) : option string :=
  List.find (fun pretty => String.eqb (normalize_name pretty) norm) (Dict.keys d).

(** [existing_key or name] *)
Definition key_or (k : option string) (name : string) : string :=
  match k with
  | Some k' => if nonempty k' then k' else name
  | None => name
  end.

(** The new content of [cfg["groups"]] for [!group set] ([set_mode]) and
    [!group add]; [None] when [current + members] raises because the stored
    value is not a list. *)
Definition group_write (set_mode : bool) (name : string) (members : list string)
    (d : Groups) : option Groups :=
  let key := key_or (existing_key (normalize_name name) d) name in
  if set_mode then Some (Dict.set key (Members members) d)
  else
    match Dict.get key d with
    | None => Some (Dict.set key (Members ([] ++ members)%list) d)
    | Some (Members current) => Some (Dict.set key (Members (current ++ members)%list) d)
    | Some (NotAList _) => None
    end.

(** [!group set] / [!group add] (lines 473-489) with a non-empty member list. *)
Definition group_set_or_add (set_mode : bool) (name : string) (members : list string)
    (w : World) (bot : HABot) : option (World * HABot * Reply) :=
  match group_write set_mode name members (cfg_groups w (cfg bot)) with
  | None => None
  | Some d' =>
      let '(w1, c1) := update_groups (fun _ => d') w (cfg bot) in
      let '(w2, bot2) := save_and_rebuild w1 (with_cfg bot c1) in
      Some (w2, bot2, GroupSaved name set_mode (List.length members))
  end.

(** *** The dispatcher: the natural-language part of [on_message] *)

(** The lines of the reply. *)
Inductive Line : Type :=
  | Requested (action_text name eid : string)
  | CloseMatches (name : string) (suggestions : list Entity)
  | NoMatch (name : string)
  | WebhookFailed (name eid : string) (status : nat)
  | NothingToDo.

Section Dispatch.
(** [self.send_webhook(entity_id, command, user)]: the HTTP status. *)
Variable send_webhook : string -> string -> string -> nat.

(** The body of [for name in expanded_names]. *)
Definition dispatch_name (bot : HABot) (action_text user : string)
    (acc : list Line * list Line) (name : string) : list Line * list Line :=
  let '(successes, failures) := acc in
  let '(entity_ids, candidates) := resolve_single_target bot name in
  match entity_ids with
  | [] =>
      match candidates with
      | _ :: _ => (successes, (failures ++ [CloseMatches name (take 5 candidates)])%list)
      | [] => (successes, (failures ++ [NoMatch name])%list)
      end
  | _ :: _ =>
      let cmd := if String.eqb action_text "turn on" then "turn_on" else "turn_off" in
      foldl (fun '(succ, fail) eid =>
               let status := send_webhook eid cmd user in
               if (status =? 200)%nat
               then ((succ ++ [Requested action_text name eid])%list, fail)
               else (succ, (fail ++ [WebhookFailed name eid status])%list))
            (successes, failures) entity_ids
  end.

Definition dispatch (bot : HABot) (action_text target_raw user : string) : list Line :=
  let expanded_names := Suffix.expand_numbers_suffix target_raw in
  let '(successes, failures) :=
    foldl (dispatch_name bot action_text user) ([], []) expanded_names in
  match (successes ++ failures)%list with
  | [] => [NothingToDo]
  | reply => reply
  end.
End Dispatch.

(** ** Running commands one after the other *)

(** The state after the commands [cmds] were handled in turn. *)
Definition run_commands (cmds : list (World -> HABot -> World * HABot * Reply))
    (start : World * HABot) : World * HABot :=
  foldl (fun st cmd => fst (cmd (fst st) (snd st))) start cmds.

(** The last entry of a dict whose pretty name has the normalized form [n]. *)
Fixpoint last_named {V : Type} (n : string) (d : list (string * V))
    : option (string * V) :=
  match d with
  | [] => None
  | (pretty, v) :: d' =>
      match last_named n d' with
      | Some r => Some r
      | None => if String.eqb (normalize_name pretty) n then Some (pretty, v) else None
      end
  end.

(** The lookups of the bot are those of its configuration, as after
    [rebuild_lookups_from_cfg]. *)
Definition lookups_in_sync (w : World) (bot : HABot) : Prop :=
  alias_lookup bot = alias_lookup_of (cfg_aliases w (cfg bot))
  /\ group_lookup bot = group_lookup_of (cfg_groups w (cfg bot)).

(** ** Statements about the directory *)

(** No stored pretty name has the normalized form of [name]. *)
Definition no_entry_named {V : Type} (name : string) (d : list (string * V)) : Prop :=
  Forall (fun pretty => normalize_name pretty <> normalize_name name) (Dict.keys d).

(** The outcome of a delete that found nothing, in the world [w] with the
    bot [bot]: the reply is [not_found] and says "not found", every entry of
    the configuration is as before, the file holds the serialization of that
    configuration, and its bytes are the former ones if it held that
    serialization already. *)
Definition directory_kept (w : World) (bot : HABot) (after : World * HABot * Reply)
    (not_found : Reply) : Prop :=
  let w' := fst (fst after) in
  let bot' := snd (fst after) in
  let bytes := Json.dump (cfg_aliases w (cfg bot)) (cfg_groups w (cfg bot)) in
  snd after = not_found
  /\ contains "not found" (reply_text (snd after)) = true
  /\ cfg_aliases w' (cfg bot') = cfg_aliases w (cfg bot)
  /\ cfg_groups w' (cfg bot') = cfg_groups w (cfg bot)
  /\ config_file w' = Content bytes
  /\ (config_file w = Content bytes -> config_file w' = config_file w).

(** The environment removes the configuration file. *)
Definition remove_config_file (w : World) : World :=
  {| default_aliases := default_aliases w;
     default_groups := default_groups w;
     config_file := Missing |}.

(** ** The resolver as the specification words it *)

Module Spec.

(** What one member of a group contributes: the entity id of the alias it
    names; else the member itself when it contains a dot; else the single
    best match of the catalog, if there is one. *)
Definition member_ids (bot : HABot) (m : string) : list string :=
  match alias_lookup bot !! normalize_name m with
  | Some (_, ent) => [ent]
  | None =>
      if contains "." m then [m]
      else match fst (_resolve_against_ha bot m) with
           | Some best => [best]
           | None => []
           end
  end.

(** Deduplication that keeps the first occurrence of every element: the
    head stays, and no later copy of it does. *)
Fixpoint dedup_first (l : list string) : list string :=
  match l with
  | [] => []
  | x :: l' => x :: List.filter (fun y => negb (String.eqb x y)) (dedup_first l')
  end.

(** The expansion of a group: the contributions of its members in order,
    deduplicated. *)
Definition group_ids (bot : HABot) (members : list string) : list string :=
  dedup_first (List.concat (map (member_ids bot) members)).

End Spec.

(** The catalog holds no entity with an empty id (the backend's ids have the
    shape [domain.object]). *)
Definition catalog_wf (bot : HABot) : Prop :=
  map_Forall (fun _ eid => nonempty eid = true) (exact_index bot)
  /\ Forall (fun e => nonempty (entity_id e) = true) (entities bot).

(** ** Sample data of the specification's examples *)

Module Sample.

(** The catalog [{sensor.kitchen_temp: "Kitchen Temp"}], [{light.kitchen: "Kitchen Light"}]. *)
Definition kitchen_items : list Item :=
  [ {| item_entity_id := "sensor.kitchen_temp"; item_friendly_name := Some "Kitchen Temp" |};
    {| item_entity_id := "light.kitchen"; item_friendly_name := Some "Kitchen Light" |} ].

(** A bot that has no alias and no group, after the catalog was fetched. *)
Definition kitchen_bot : HABot :=
  build_entity_index kitchen_items (init_bot DEFAULT_CONFIG_copy).

(** The directory of the end-to-end example: the alias "Kitchen Light" for
    [light.kitchen], and the group "Downstairs", here with two more members:
    a phrase for the catalog and one that matches nothing. *)
Definition downstairs_cfg : Cfg :=
  {| aliases_ref := Own [("Kitchen Light", "light.kitchen")];
     groups_ref :=
       Own [("Downstairs",
             Members ["Kitchen Light"; "switch.fan1"; "kitchen"; "garage"]);
            ("Attic", Members ["garage"; "cellar"])] |}.

(** A directory in which the group "Evening" and the alias "evening" have the
    same normalized name. *)
Definition evening_cfg : Cfg :=
  {| aliases_ref := Own [("evening", "switch.porch")];
     groups_ref := Own [("Evening", Members ["light.kitchen"; "light.hall"])] |}.

Definition evening_bot : HABot :=
  build_entity_index kitchen_items
    (rebuild_lookups_from_cfg (initial_world Missing) (init_bot evening_cfg)).

Definition downstairs_bot : HABot :=
  build_entity_index kitchen_items
    (rebuild_lookups_from_cfg (initial_world Missing) (init_bot downstairs_cfg)).

(** The bot right after a start without configuration file. *)
Definition fresh_world : World := initial_world Missing.
Definition fresh_bot : HABot := init_bot DEFAULT_CONFIG_copy.

(** A directory with one alias and one group. *)
Definition lamp_cfg : Cfg :=
  {| aliases_ref := Own [("Desk Lamp", "light.desk")];
     groups_ref := Own [("Office", Members ["Desk Lamp"])] |}.

Definition lamp_world : World :=
  initial_world
    (Content (Json.dump [("Desk Lamp", "light.desk")] [("Office", Members ["Desk Lamp"])])).

Definition lamp_bot : HABot :=
  rebuild_lookups_from_cfg lamp_world (init_bot lamp_cfg).

Definition light_kitchen : Entity :=
  {| entity_id := "light.kitchen"; friendly := "Kitchen Light";
     norm_friendly := "kitchenlight"; norm_entity := "lightkitchen";
     domain := "light" |}.

End Sample.

(** ** Parsing the arguments of the admin commands *)

Module Parse.

(** [s[n:]] *)
Fixpoint drop_chars (n : nat) (s : string) : string :=
  match n, s with
  | O, _ => s
  | S n', String _ s' => drop_chars n' s'
  | S _, EmptyString => EmptyString
  end.

(** Longest prefix of characters that satisfy [p], and what follows it. *)
Fixpoint span (p : ascii -> bool) (s : string) : string * string :=
  match s with
  | EmptyString => (EmptyString, EmptyString)
  | String c s' =>
      if p c then let '(a, b) := span p s' in (String c a, b)
      else (EmptyString, s)
  end.

Definition not_space (c : ascii) : bool := negb (is_space c).

Definition not_newline (c : ascii) : bool := negb (Ascii.eqb c Suffix.newline).

(** The text before the first occurrence of [q] and the text after it. *)
Fixpoint split_at_char (q : ascii) (s : string) : option (string * string) :=
  match s with
  | EmptyString => None
  | String c s' =>
      if Ascii.eqb c q then Some (EmptyString, s')
      else match split_at_char q s' with
           | Some (a, b) => Some (String c a, b)
           | None => None
           end
  end.

(** The first character is a single or a double quotation mark. *)
Definition is_quote (c : ascii) : bool :=
  Ascii.eqb c "'"%char || Ascii.eqb c Json.quote.

(** The end of the pattern of [re_match_token], a greedy group of any
    characters but newlines followed by the end anchor, anchored at the
    start of [s]: the text up to the end of the string, or up to the newline
    that ends it; no match when a newline stands anywhere else. *)
Definition dot_star_end (s : string) : option string :=
  let '(g, rest) := span not_newline s in
  if String.eqb rest "" || String.eqb rest (String Suffix.newline "")
  then Some g else None.

(** The match of the unquoted pattern of [parse_quoted_name] at the start
    of [rest]: a greedy run of characters that are not white space (group
    1), a greedy run of white space, and a greedy run of any characters but
    newlines (group 2) up to the end anchor.  The three greedy parts either match at their longest or not at all: a shorter first or
    second part leaves the same newline in front of the end anchor. *)
Definition re_match_token (rest : string) : option (string * string) :=
  let '(token, r1) := span not_space rest in
  if nonempty token then
    match dot_star_end (lstrip r1) with
    | Some g => Some (token, g)
    | None => None
    end
  else None.

(** [parse_quoted_name]: the name, [None] for Python's [None], and the
    remainder. *)
Definition parse_quoted_name (rest0 : string) : option string * string :=
  let rest := strip rest0 in
  match rest with
  | EmptyString => (None, "")
  | String q body =>
      if is_quote q then
        (* the quoted pattern, with re.DOTALL: the lazy group 1 ends at the
           next [q], the white space after it is skipped and group 2 is the
           rest of the text *)
        match split_at_char q body with
        | Some (name, after) => (Some (strip name), strip (lstrip after))
        | None => (Some (strip body), "")
        end
      else
        match re_match_token rest with
        | Some (name, remainder) => (Some name, strip remainder)
        | None => (None, "")
        end
  end.

(** The text is empty or starts with white space. *)
Definition starts_blank (s : string) : bool :=
  match s with
  | EmptyString => true
  | String c _ => is_space c
  end.

(** Truthiness of the parsed name: [if not name] rejects [None] and [""]. *)
Definition name_given (name : option string) : option string :=
  match name with
  | Some n => if nonempty n then Some n else None
  | None => None
  end.

(** [re.sub(r"[,\s]+", " ", s)]: every run of commas and white space becomes
    one space. *)
Fixpoint collapse_go (in_sep : bool) (s : string) : string :=
  match s with
  | EmptyString => EmptyString
  | String c s' =>
      if Suffix.is_token_sep c
      then (if in_sep then collapse_go true s' else String " " (collapse_go true s'))
      else String c (collapse_go false s')
  end.

Definition collapse_separators (s : string) : string := collapse_go false s.

(** [s.split(sep)] for a separator of one character: split at every
    occurrence of it. *)
Fixpoint split_on_go (sep : ascii) (cur : string) (s : string) : list string :=
  match s with
  | EmptyString => [cur]
  | String c s' =>
      if Ascii.eqb c sep then cur :: split_on_go sep "" s'
      else split_on_go sep (cur ++ String c "") s'
  end.

Definition split_on (sep : ascii) (s : string) : list string := split_on_go sep "" s.

(** [s.split(" ")] *)
Definition split_space (s : string) : list string := split_on " "%char s.

(** The runs of characters between separators (commas and white space),
    read in one pass: [cur] is the run being read. *)
Fixpoint tokens_go (cur : string) (s : string) : list string :=
  match s with
  | EmptyString => if nonempty cur then [cur] else []
  | String c s' =>
      if Suffix.is_token_sep c
      then (if nonempty cur then cur :: tokens_go "" s' else tokens_go "" s')
      else tokens_go (cur ++ String c "") s'
  end.

Definition tokens (s : string) : list string := tokens_go "" s.

(** A member as [split_members] returns them: not empty, and without comma
    or white space. *)
Definition clean_member (m : string) : bool :=
  nonempty m && all_chars (fun c => negb (Suffix.is_token_sep c)) m.

(** [split_members] *)
Definition split_members (text : string) : list string :=
  let cleaned := collapse_separators (strip text) in
  List.filter nonempty (split_space cleaned).

(** [rest.split()[0]] for a text with a character that is not white space. *)
Definition first_token (rest : string) : string :=
  fst (span not_space (lstrip rest)).

End Parse.

(** ** The whole message handler ([HABot.on_message]) *)

(** What the bot sends to the channel for one message: nothing, a denial,
    the reply of a command that changes the directory, a listing, a usage
    text, the outcome of a reload, or the report of a turn on/off command.
    [Raised] stands for an exception that leaves the handler. *)
Inductive Output : Type :=
  | NoReply
  | DeniedAliases
  | DeniedGroups
  | DeniedReload
  | AdminReply (r : Reply)
  | NoAliases
  | AliasList (entries : Aliases)
  | NoGroups
  | GroupList (entries : Groups)
  | GroupShown (pretty : string) (members : GroupValue)
  | UsageAliasAdd
  | UsageAliasDel
  | UsageAlias
  | UsageGroupShow
  | UsageGroupWrite (set_mode : bool)
  | NeedMembers
  | UsageGroupDel
  | UsageGroup
  | Reloaded
  | ReloadFailed
  | Report (lines : list Line)
  | Raised.

Definition admin (after : World * HABot * Reply) : World * HABot * Output :=
  let '(w, bot, r) := after in (w, bot, AdminReply r).

(** [handle_alias_command] *)
Definition handle_alias_command (content : string) (w : World) (bot : HABot)
    : World * HABot * Output :=
  let tail := strip (Parse.drop_chars 6 (strip content)) in
  if negb (nonempty tail) || String.eqb tail "list" then
    match cfg_aliases w (cfg bot) with
    | [] => (w, bot, NoAliases)
    | entries => (w, bot, AliasList entries)
    end
  else if startswith "add" tail then
    let '(name, rest) := Parse.parse_quoted_name (Parse.drop_chars 3 tail) in
    match Parse.name_given name with
    | Some n =>
        if nonempty rest
        then admin (alias_add n (Parse.first_token rest) w bot)
        else (w, bot, UsageAliasAdd)
    | None => (w, bot, UsageAliasAdd)
    end
  else if startswith "del" tail then
    let '(name, _) := Parse.parse_quoted_name (Parse.drop_chars 3 tail) in
    match Parse.name_given name with
    | Some n => admin (alias_del n w bot)
    | None => (w, bot, UsageAliasDel)
    end
  else (w, bot, UsageAlias).

(** The first stored group with the normalized name [norm]:
    [for pretty, members in self.cfg["groups"].items(): if normalize_name(pretty) == norm: ...] *)
Definition find_group (norm : string) (g : Groups) : option (string * GroupValue) :=
  List.find (fun '(pretty, _) => String.eqb (normalize_name pretty) norm) g.

(** [handle_group_command] *)
Definition handle_group_command (content : string) (w : World) (bot : HABot)
    : World * HABot * Output :=
  let tail := strip (Parse.drop_chars 6 (strip content)) in
  if negb (nonempty tail) || String.eqb tail "list" then
    match cfg_groups w (cfg bot) with
    | [] => (w, bot, NoGroups)
    | entries => (w, bot, GroupList entries)
    end
  else if startswith "show" tail then
    let '(name, _) := Parse.parse_quoted_name (Parse.drop_chars 4 tail) in
    match Parse.name_given name with
    | Some n =>
        match find_group (normalize_name n) (cfg_groups w (cfg bot)) with
        | Some (pretty, members) => (w, bot, GroupShown pretty members)
        | None => (w, bot, AdminReply GroupNotFound)
        end
    | None => (w, bot, UsageGroupShow)
    end
  else if startswith "set" tail || startswith "add" tail then
    let set_mode := startswith "set" tail in
    let '(name, rest) := Parse.parse_quoted_name (Parse.drop_chars 3 tail) in
    match Parse.name_given name with
    | Some n =>
        match Parse.split_members rest with
        | [] => (w, bot, NeedMembers)
        | members =>
            match group_set_or_add set_mode n members w bot with
            | Some after => admin after
            | None => (w, bot, Raised)
            end
        end
    | None => (w, bot, UsageGroupWrite set_mode)
    end
  else if startswith "del" tail then
    let '(name, _) := Parse.parse_quoted_name (Parse.drop_chars 3 tail) in
    match Parse.name_given name with
    | Some n => admin (group_del n w bot)
    | None => (w, bot, UsageGroupDel)
    end
  else (w, bot, UsageGroup).

(** A message of the chat, as far as [on_message] reads it. *)
Record Message : Type := mkMessage {
  author_is_bot : bool;      (* message.author.bot *)
  channel_id : N;            (* message.channel.id *)
  author_id : string;        (* str(message.author.id) *)
  author : string;           (* str(message.author) *)
  content : string;          (* message.content *)
}.

Definition COMMANDS_CHANNEL_ID : N := 1436397465187258509.

(** The set [ALLOWED_USER_IDS] for a value of the environment variable:
    [{uid.strip() for uid in value.split(",") if uid.strip()}] *)
Definition allowed_user_ids (value : string) : gset string :=
  list_to_set (List.filter nonempty (map strip (Parse.split_on ","%char value))).

(** The pattern of the turn on/off command, anchored at the start: one of
    the two actions, white space, then the text up to the end of the line. *)
Definition dot_plus (s : string) : option string :=
  let '(g, _) := Parse.span Parse.not_newline s in
  if nonempty g then Some g else None.

Fixpoint match_ws_dots (s : string) : option string :=
  match s with
  | EmptyString => None
  | String c s' =>
      if is_space c then
        match match_ws_dots s' with
        | Some g => Some g
        | None => dot_plus s'
        end
      else None
  end.

Definition match_action (action text : string) : option (string * string) :=
  if startswith action text then
    match match_ws_dots (Parse.drop_chars (String.length action) text) with
    | Some g => Some (action, g)
    | None => None
    end
  else None.

(** [re.match(r"(turn on|turn off)\s+(.+)", lower)]: groups 1 and 2. *)
Definition re_match_turn (lower : string) : option (string * string) :=
  match match_action "turn on" lower with
  | Some r => Some r
  | None => match_action "turn off" lower
  end.

Section OnMessage.
Variable ALLOWED_USER_IDS : gset string.
Variable send_webhook : string -> string -> string -> nat.

(** [HABot._is_authorized] *)
Definition _is_authorized (m : Message) : bool :=
  if decide (ALLOWED_USER_IDS = ∅) then true
  else bool_decide (author_id m ∈ ALLOWED_USER_IDS).

(** [HABot.on_message].  [states] is what the backend answers if the
    message makes the bot fetch the catalog: the decoded records, or [None]
    when the request fails. *)
Definition on_message (states : option (list Item)) (m : Message)
    (w : World) (bot : HABot) : World * HABot * Output :=
  if author_is_bot m then (w, bot, NoReply)
  else if negb (N.eqb (channel_id m) COMMANDS_CHANNEL_ID) then (w, bot, NoReply)
  else
    let content := strip (content m) in
    let lower := lower content in
    if startswith "!alias " lower || String.eqb lower "!alias" then
      if negb (_is_authorized m) then (w, bot, DeniedAliases)
      else handle_alias_command content w bot
    else if startswith "!group " lower || String.eqb lower "!group" then
      if negb (_is_authorized m) then (w, bot, DeniedGroups)
      else handle_group_command content w bot
    else if String.eqb lower "!reload" then
      if negb (_is_authorized m) then (w, bot, DeniedReload)
      else match states with
           | Some data => (w, build_entity_index data bot, Reloaded)
           | None => (w, bot, ReloadFailed)
           end
    else
      match re_match_turn lower with
      | None => (w, bot, NoReply)
      | Some (action_text, target) =>
          (w, bot, Report (dispatch send_webhook bot action_text (strip target) (author m)))
      end.
End OnMessage.

(** ** Statements about the commands *)

(** The entries of a dict of which the pretty name does not have the
    normalized form [norm]. *)
Definition without_name {V : Type} (norm : string) (d : list (string * V))
    : list (string * V) :=
  List.filter (fun '(pretty, _) => negb (String.eqb (normalize_name pretty) norm)) d.

(** Some entry of the dict has a pretty name of the normalized form [norm]. *)
Definition has_name {V : Type} (norm : string) (d : list (string * V)) : bool :=
  existsb (fun '(pretty, _) => String.eqb (normalize_name pretty) norm) d.

(** No two stored pretty names have the same normalized form. *)
Definition unique_names {V : Type} (d : list (string * V)) : Prop :=
  List.NoDup (map normalize_name (Dict.keys d)).

(** The file holds the serialization of the configuration of the bot. *)
Definition file_in_sync (w : World) (bot : HABot) : Prop :=
  config_file w = Content (Json.dump (cfg_aliases w (cfg bot)) (cfg_groups w (cfg bot))).

(** Both sections of the configuration are dicts of its own, as after a
    load from a file that holds a dict. *)
Definition owns_sections (c : Cfg) : Prop :=
  match aliases_ref c, groups_ref c with
  | Own _, Own _ => True
  | _, _ => False
  end.

(** The key [!group set] and [!group add] write to: the stored spelling of
    the name if there is one, else the name as typed. *)
Definition group_key (name : string) (d : Groups) : string :=
  key_or (existing_key (normalize_name name) d) name.


(** What every step of the bot keeps, from the state [(w, bot)] to the state
    [(w', bot')]: the lookups stay those of the configuration, the file
    stays the serialization of the configuration, and a configuration with
    sections of its own keeps them and leaves the dicts of [DEFAULT_CONFIG]
    alone. *)
Definition step_ok (w : World) (bot : HABot) (w' : World) (bot' : HABot) : Prop :=
  (lookups_in_sync w bot -> lookups_in_sync w' bot')
  /\ (file_in_sync w bot -> file_in_sync w' bot')
  /\ (owns_sections (cfg bot) ->
      owns_sections (cfg bot')
      /\ default_aliases w' = default_aliases w
      /\ default_groups w' = default_groups w).

(** The replies that only the commands that write the directory send. *)
Definition writes_directory (out : Output) : bool :=
  match out with
  | AdminReply (AliasSaved _ _) | AdminReply AliasRemoved | AdminReply AliasNotFound
  | AdminReply (GroupSaved _ _ _) | AdminReply GroupRemoved | AdminReply GroupNotFound =>
      true
  | _ => false
  end.

(** What a step of the bot amounts to: nothing changed; or a directory
    command ran, which leaves the catalog alone; or the catalog was
    reloaded, which leaves the world, the configuration and the lookups
    alone. *)
Definition step_shape (w : World) (bot : HABot) (after : World * HABot * Output) : Prop :=
  let w' := fst (fst after) in
  let bot' := snd (fst after) in
  (fst after = (w, bot) /\ writes_directory (snd after) = false
                            \/ snd after = AdminReply GroupNotFound /\ fst after = (w, bot))
  \/ (writes_directory (snd after) = true
      /\ step_ok w bot w' bot'
      /\ entities bot' = entities bot /\ exact_index bot' = exact_index bot)
  \/ (snd after = Reloaded
      /\ w' = w /\ cfg bot' = cfg bot
      /\ alias_lookup bot' = alias_lookup bot /\ group_lookup bot' = group_lookup bot).

(** ** Sample messages *)

Module Chat.

Definition says (text : string) : Message :=
  {| author_is_bot := false; channel_id := COMMANDS_CHANNEL_ID;
     author_id := "42"; author := "ann"; content := text |}.

(** No webhook call fails. *)
Definition webhook_ok (entity_id command user : string) : nat := 200.

(** The state after the message [text] of the author 42, for the allowed
    ids [allowed], from the sample directory of the desk lamp. *)
Definition after (allowed : string) (text : string) : World * HABot * Output :=
  on_message (allowed_user_ids allowed) webhook_ok None (says text)
    Sample.lamp_world Sample.lamp_bot.

End Chat.

(** ** Statements about the resolver and the catalog *)

(** [id] is an id of the catalog: a value of the exact-match index or the id
    of an entity. *)
Definition catalog_id (bot : HABot) (id : string) : Prop :=
  (exists k, exact_index bot !! k = Some id)
  \/ (exists e, In e (entities bot) /\ entity_id e = id).

(** Where an id that [resolve_single_target] returns for [phrase] may come
    from: the entity id of a stored alias, a member of the group of the
    phrase that holds a dot, or the catalog. *)
Definition known_id (bot : HABot) (phrase id : string) : Prop :=
  (exists n pretty, alias_lookup bot !! n = Some (pretty, id))
  \/ (exists pretty members,
        group_lookup bot !! normalize_name phrase = Some (pretty, members)
        /\ In id members /\ contains "." id = true)
  \/ catalog_id bot id.

(** The id under which the exact-match index files the normalized name [k]:
    that of the last entity of which the normalized label or the
    normalized id is [k]. *)
Fixpoint last_indexed (k : string) (ents : list Entity) : option string :=
  match ents with
  | [] => None
  | e :: rest =>
      match last_indexed k rest with
      | Some id => Some id
      | None =>
          if String.eqb (norm_friendly e) k || String.eqb (norm_entity e) k
          then Some (entity_id e) else None
      end
  end.

(** ** Statements about the dispatcher *)

(** The backend command of an action. *)
Definition command_of (action_text : string) : string :=
  if String.eqb action_text "turn on" then "turn_on" else "turn_off".

Section ReplyLines.
Variable send_webhook : string -> string -> string -> nat.

(** The success lines of one phrase: one per resolved id of which the
    webhook call answers 200. *)
Definition successes_of (bot : HABot) (action_text user name : string) : list Line :=
  flat_map (fun eid =>
              if (send_webhook eid (command_of action_text) user =? 200)%nat
              then [Requested action_text name eid] else [])
           (fst (resolve_single_target bot name)).

(** The failure lines of one phrase: the close matches or the plain "no
    match" line when no id is resolved, else one line per resolved id of
    which the webhook call does not answer 200. *)
Definition failures_of (bot : HABot) (action_text user name : string) : list Line :=
  match resolve_single_target bot name with
  | ([], []) => [NoMatch name]
  | ([], candidates) => [CloseMatches name (take 5 candidates)]
  | (ids, _) =>
      flat_map (fun eid =>
                  let status := send_webhook eid (command_of action_text) user in
                  if (status =? 200)%nat then [] else [WebhookFailed name eid status])
               ids
  end.
End ReplyLines.

(** * Properties *)

(** ** Lemmas on the text helpers *)

Lemma lower_char_norm (c : ascii) :
  is_norm_char c = true -> lower_char c = c.
Proof.
  unfold lower_char, is_norm_char, is_upper, is_lower, is_digit.
  intros H.
  destruct ((65 <=? nat_of_ascii c)%nat && (nat_of_ascii c <=? 90)%nat) eqn:E; [|reflexivity].
  exfalso.
  apply andb_prop in E as [E1 E2].
  apply Nat.leb_le in E1, E2.
  apply orb_prop in H as [H|H]; apply andb_prop in H as [H1 H2];
    apply Nat.leb_le in H1, H2; lia.
Qed.

Lemma keep_all_chars (p : ascii -> bool) (s : string) :
  all_chars p (keep p s) = true.
Proof.
  induction s as [|c s IH]; simpl; [reflexivity|].
  destruct (p c) eqn:E; simpl; [rewrite E; exact IH | exact IH].
Qed.

Lemma keep_id (p : ascii -> bool) (s : string) :
  all_chars p s = true -> keep p s = s.
Proof.
  induction s as [|c s IH]; simpl; [reflexivity|].
  intros H. apply andb_prop in H as [H1 H2].
  rewrite H1, (IH H2). reflexivity.
Qed.

Lemma lower_id (s : string) :
  all_chars is_norm_char s = true -> lower s = s.
Proof.
  induction s as [|c s IH]; simpl; [reflexivity|].
  intros H. apply andb_prop in H as [H1 H2].
  rewrite (lower_char_norm c H1), (IH H2). reflexivity.
Qed.

Lemma normalize_name_chars (s : string) :
  all_chars is_norm_char (normalize_name s) = true.
Proof. apply keep_all_chars. Qed.

Lemma normalize_name_fixed (s : string) :
  all_chars is_norm_char s = true -> normalize_name s = s.
Proof.
  intros H. unfold normalize_name.
  rewrite (lower_id s H). apply keep_id, H.
Qed.

(** C9. [normalize_name] is idempotent: normalizing an already normalized
    name changes nothing, for every string. *)
Theorem normalize_name_idempotent (s : string) :
  normalize_name (normalize_name s) = normalize_name s.
Proof. apply normalize_name_fixed, normalize_name_chars. Qed.

Example normalize_name_living_room :
  normalize_name "Living Room #2" = "livingroom2".
Proof. reflexivity. Qed.

(** ** Numeric suffix expansion *)

Example expand_list_and :
  Suffix.expand_numbers_suffix "light 1, 2 and 3" = ["light 1"; "light 2"; "light 3"].
Proof. vm_compute. reflexivity. Qed.

Example expand_hyphen_range :
  Suffix.expand_numbers_suffix "living room light 1-4, 9,11" =
  ["living room light 1"; "living room light 2"; "living room light 3";
   "living room light 4"; "living room light 9"; "living room light 11"].
Proof. vm_compute. reflexivity. Qed.

Example expand_no_suffix :
  Suffix.expand_numbers_suffix "kitchen light" = ["kitchen light"].
Proof. vm_compute. reflexivity. Qed.

Example re_match_suffix_greedy_space :
  Suffix.re_match_suffix "light  2 to 4" = Some ("light", "2 to 4").
Proof. vm_compute. reflexivity. Qed.

(** C4. On ["light 2 to 4"] the word "to" is replaced by a hyphen, but the
    hyphen then stands alone between two spaces: the token split yields
    ["2"], ["-"], ["4"], the lone hyphen is dropped as a range without
    bounds, and the result is ["light 2"; "light 4"], without ["light 3"]. *)
Theorem expand_to_range_not_expanded :
  Suffix.re_match_suffix "light 2 to 4" = Some ("light", "2 to 4")
  /\ Suffix.sub_word "to" "-" (Suffix.sub_word "and" "," "2 to 4") = "2 - 4"
  /\ Suffix.re_split_tokens "2 - 4" = ["2"; "-"; "4"]
  /\ Suffix.token_numbers "-" = []
  /\ Suffix.expand_numbers_suffix "light 2 to 4" = ["light 2"; "light 4"].
Proof. repeat split; vm_compute; reflexivity. Qed.

(** The hyphen form of the same range is expanded. *)
Example expand_hyphen_2_4 :
  Suffix.expand_numbers_suffix "light 2-4" = ["light 2"; "light 3"; "light 4"].
Proof. vm_compute. reflexivity. Qed.

(** C6, as stated, fails on a phrase with surrounding white space: the
    phrase has no separator, and what comes back is the stripped phrase, not
    the original one. *)
Lemma expand_numbers_suffix_returns_stripped :
  Suffix.has_separator (strip " kitchen light") = false
  /\ Suffix.expand_numbers_suffix " kitchen light" = ["kitchen light"]
  /\ Suffix.expand_numbers_suffix " kitchen light" <> [" kitchen light"].
Proof. repeat split; try (vm_compute; reflexivity). vm_compute. discriminate. Qed.

(** C6, amended. When the stripped phrase holds no separator, or the suffix
    pattern does not match it, or the loop extracts no number, the result is
    the single-element list of the stripped phrase: the phrase itself when
    it has no surrounding white space. *)
Theorem expand_numbers_suffix_fallback (raw_target : string) :
  Suffix.has_separator (strip raw_target) = false
  \/ Suffix.suffix_numbers (strip raw_target) = None
  \/ Suffix.suffix_numbers (strip raw_target) = Some ∅ ->
  Suffix.expand_numbers_suffix raw_target = [strip raw_target]
  /\ (strip raw_target = raw_target ->
      Suffix.expand_numbers_suffix raw_target = [raw_target]).
Proof.
  intros Hcase.
  assert (Hres : Suffix.expand_numbers_suffix raw_target = [strip raw_target]).
  { unfold Suffix.expand_numbers_suffix, Suffix.suffix_numbers in *.
    destruct Hcase as [H | [H | H]].
    - rewrite H. reflexivity.
    - destruct (Suffix.has_separator (strip raw_target)); [|reflexivity].
      simpl. destruct (Suffix.re_match_suffix (strip raw_target)) as [[g1 g2]|];
        [discriminate H | reflexivity].
    - destruct (Suffix.has_separator (strip raw_target)); [|reflexivity].
      simpl. destruct (Suffix.re_match_suffix (strip raw_target)) as [[g1 g2]|];
        [|reflexivity].
      injection H as H. rewrite H.
      destruct (decide (∅ = ∅)) as [_ | Hne]; [reflexivity | contradiction]. }
  split; [exact Hres|].
  intros Hstripped. rewrite Hres, Hstripped. reflexivity.
Qed.

(** The descending range of ["light 5-2"] is dropped, no number is left and
    the phrase comes back unchanged. *)
Lemma expand_numbers_suffix_fallback_witness :
  Suffix.suffix_numbers (strip "light 5-2") = Some ∅
  /\ Suffix.expand_numbers_suffix "light 5-2" = ["light 5-2"].
Proof.
  split.
  - vm_compute. reflexivity.
  - apply (expand_numbers_suffix_fallback "light 5-2");
      [right; right; vm_compute; reflexivity | reflexivity].
Defined.

(** ** Catalog fuzzy matching *)

(** C2. Once the normalized input is not empty and misses the exact-match
    index, let [candidates] be the entities whose normalized label or id
    contains it and [preferred] those of them in a preferred domain.  If
    [preferred] is a single entity, its id is the match; if it has several
    entities, there is no match and the candidates are exactly [preferred];
    if it is empty, the candidates found by the substring pass are kept. *)
Theorem preferred_domain_narrowing (bot : HABot) (name : string) :
  let norm_input := normalize_name name in
  let candidates := List.filter (contains_match norm_input) (entities bot) in
  let preferred := List.filter is_preferred candidates in
  nonempty norm_input = true ->
  exact_index bot !! norm_input = None ->
  (forall e, preferred = [e] ->
     _resolve_against_ha bot name = (Some (entity_id e), [e]))
  /\ ((1 < List.length preferred)%nat ->
     _resolve_against_ha bot name = (None, preferred))
  /\ (preferred = [] -> candidates <> [] ->
     _resolve_against_ha bot name = (None, candidates)).
Proof.
  intros norm_input candidates preferred Hne Hmiss.
  unfold _resolve_against_ha.
  fold norm_input. rewrite Hne, Hmiss. simpl negb. cbv iota.
  fold candidates.
  repeat split.
  - intros e He.
    destruct candidates as [|c cs] eqn:Hc.
    + discriminate He.
    + fold preferred. rewrite He. reflexivity.
  - intros Hlen.
    destruct candidates as [|c cs] eqn:Hc.
    + simpl in Hlen. lia.
    + fold preferred.
      destruct preferred as [|p1 [|p2 ps]] eqn:Hp; simpl in Hlen; try lia.
      reflexivity.
  - intros Hp Hc.
    destruct candidates as [|c cs] eqn:Hcs; [contradiction|].
    fold preferred. rewrite Hp. reflexivity.
Qed.

(** In the catalog of [sensor.kitchen_temp] ("Kitchen Temp") and
    [light.kitchen] ("Kitchen Light"), both entities contain "kitchen", only
    the light is in a preferred domain, and resolving "kitchen" returns
    [light.kitchen] alone. *)
Lemma preferred_domain_narrowing_witness :
  nonempty (normalize_name "kitchen") = true
  /\ exact_index Sample.kitchen_bot !! normalize_name "kitchen" = None
  /\ List.length (List.filter (contains_match (normalize_name "kitchen"))
                    (entities Sample.kitchen_bot)) = 2%nat
  /\ _resolve_against_ha Sample.kitchen_bot "kitchen"
     = (Some "light.kitchen", [Sample.light_kitchen])
  /\ resolve_single_target Sample.kitchen_bot "kitchen"
     = (["light.kitchen"], [Sample.light_kitchen]).
Proof.
  assert (Hne : nonempty (normalize_name "kitchen") = true) by reflexivity.
  assert (Hmiss : exact_index Sample.kitchen_bot !! normalize_name "kitchen" = None)
    by (vm_compute; reflexivity).
  pose proof (proj1 (preferred_domain_narrowing Sample.kitchen_bot "kitchen" Hne Hmiss)
                Sample.light_kitchen eq_refl) as Hres.
  split; [exact Hne|]. split; [exact Hmiss|].
  split; [vm_compute; reflexivity|]. split; [exact Hres|].
  unfold resolve_single_target.
  replace (group_lookup Sample.kitchen_bot !! normalize_name "kitchen")
    with (@None (string * list string)) by (vm_compute; reflexivity).
  replace (alias_lookup Sample.kitchen_bot !! normalize_name "kitchen")
    with (@None (string * string)) by (vm_compute; reflexivity).
  rewrite Hres. reflexivity.
Defined.

(** ** Group expansion *)

Lemma filter_twice (p q : string -> bool) (l : list string) :
  List.filter p (List.filter q l) = List.filter (fun y => q y && p y) l.
Proof.
  induction l as [|x l IH]; simpl; [reflexivity|].
  destruct (q x); simpl; [destruct (p x)|]; rewrite ?IH; reflexivity.
Qed.

Lemma filter_drop_rejected (p : string -> bool) (x : string) (l : list string) :
  p x = false ->
  List.filter p (List.filter (fun y => negb (String.eqb x y)) l) = List.filter p l.
Proof.
  intros Hx. induction l as [|y l IH]; simpl; [reflexivity|].
  destruct (String.eqb x y) eqn:E; simpl.
  - apply String.eqb_eq in E. subst y. rewrite Hx. exact IH.
  - destruct (p y); rewrite IH; reflexivity.
Qed.

Lemma dedup_first_filter (p : string -> bool) (l : list string) :
  Spec.dedup_first (List.filter p l) = List.filter p (Spec.dedup_first l).
Proof.
  induction l as [|x l IH]; simpl; [reflexivity|].
  destruct (p x) eqn:Hx; simpl.
  - rewrite IH, !filter_twice. f_equal.
    apply List.filter_ext. intros y. apply andb_comm.
  - rewrite IH. symmetry. apply filter_drop_rejected, Hx.
Qed.

(** [dedup_first] keeps every element of the list, once. *)
Lemma dedup_first_In (l : list string) (y : string) :
  In y (Spec.dedup_first l) <-> In y l.
Proof.
  induction l as [|x l IH]; simpl; [reflexivity|].
  rewrite List.filter_In, IH. split.
  - intros [H | [H _]]; auto.
  - intros [H | H]; [left; exact H|].
    destruct (String.eqb x y) eqn:E.
    + left. apply String.eqb_eq, E.
    + right. split; [exact H | reflexivity].
Qed.

Lemma dedup_first_NoDup (l : list string) : List.NoDup (Spec.dedup_first l).
Proof.
  induction l as [|x l IH]; simpl; constructor.
  - rewrite List.filter_In. intros [_ H].
    rewrite String.eqb_refl in H. discriminate H.
  - apply List.NoDup_filter, IH.
Qed.

Example dedup_first_order :
  Spec.dedup_first ["b"; "a"; "b"; "c"; "a"] = ["b"; "a"; "c"].
Proof. reflexivity. Qed.

Lemma existsb_snoc (y x : string) (acc : list string) :
  existsb (String.eqb y) (acc ++ [x]) = existsb (String.eqb y) acc || String.eqb y x.
Proof.
  rewrite List.existsb_app. simpl. rewrite orb_false_r. reflexivity.
Qed.

Lemma fromkeys_from (acc l : list string) :
  foldl (fun keys x => if existsb (String.eqb x) keys then keys else (keys ++ [x])%list)
        acc l
  = (acc ++ Spec.dedup_first
              (List.filter (fun y => negb (existsb (String.eqb y) acc)) l))%list.
Proof.
  revert acc. induction l as [|x l IH]; intros acc; simpl.
  - rewrite app_nil_r. reflexivity.
  - destruct (existsb (String.eqb x) acc) eqn:Hx; simpl.
    + apply IH.
    + rewrite IH, <- app_assoc. simpl. do 2 f_equal.
      rewrite <- dedup_first_filter, filter_twice.
      f_equal. apply List.filter_ext. intros y.
      rewrite existsb_snoc, negb_orb, (String.eqb_sym x y). reflexivity.
Qed.

(** [list(dict.fromkeys(l))] keeps the first occurrence of every element. *)
Lemma fromkeys_dedup_first (l : list string) : fromkeys l = Spec.dedup_first l.
Proof.
  unfold fromkeys. rewrite fromkeys_from. simpl.
  f_equal. induction l as [|x l IH]; simpl; [reflexivity | f_equal; exact IH].
Qed.

Lemma expand_member_app (bot : HABot) (acc : list string) (m : string) :
  expand_member bot acc m = (acc ++ expand_member bot [] m)%list.
Proof.
  unfold expand_member.
  destruct (alias_lookup bot !! normalize_name m) as [[p ent]|]; [reflexivity|].
  destruct (contains "." m); [reflexivity|].
  destruct (_resolve_against_ha bot m) as [[ent|] c].
  - destruct (nonempty ent); [reflexivity | rewrite app_nil_r; reflexivity].
  - rewrite app_nil_r. reflexivity.
Qed.

Lemma foldl_expand_member (bot : HABot) (acc members : list string) :
  foldl (expand_member bot) acc members
  = (acc ++ List.concat (map (expand_member bot []) members))%list.
Proof.
  revert acc. induction members as [|m ms IH]; intros acc; simpl.
  - rewrite app_nil_r. reflexivity.
  - rewrite IH, (expand_member_app bot acc m), <- app_assoc. reflexivity.
Qed.

Lemma filter_elem (p : Entity -> bool) (e : Entity) (l rest : list Entity) :
  List.filter p l = e :: rest -> In e l.
Proof.
  intros H. apply (proj1 (List.filter_In p e l)).
  rewrite H. left. reflexivity.
Qed.

Lemma token_pass_best (bot : HABot) (name : string) (cands : list Entity)
    (best : string) (c : list Entity) :
  Forall (fun e => nonempty (entity_id e) = true) (entities bot) ->
  token_pass bot name cands = (Some best, c) -> nonempty best = true.
Proof.
  intros Hwf. unfold token_pass.
  destruct cands as [|c0 cs]; [|discriminate].
  destruct (tokens_of name) as [|t ts]; [discriminate|].
  destruct (List.filter (token_match (t :: ts)) (entities bot)) as [|e [|e' es]] eqn:Hf;
    try discriminate.
  intros H. injection H as <- _.
  apply filter_elem in Hf.
  rewrite List.Forall_forall in Hwf. apply Hwf, Hf.
Qed.

(** In a catalog without empty ids, a best match is never an empty id, so
    the truthiness test [if ent:] only separates a match from no match. *)
Lemma resolve_best_nonempty (bot : HABot) (name best : string) (c : list Entity) :
  catalog_wf bot ->
  _resolve_against_ha bot name = (Some best, c) -> nonempty best = true.
Proof.
  intros [Hidx Hents]. unfold _resolve_against_ha.
  destruct (nonempty (normalize_name name)); simpl; [|discriminate].
  destruct (exact_index bot !! normalize_name name) as [eid|] eqn:Hex.
  - intros H. injection H as <- _. exact (Hidx _ _ Hex).
  - destruct (List.filter (contains_match (normalize_name name)) (entities bot))
      as [|c0 cs] eqn:Hc.
    + apply token_pass_best, Hents.
    + destruct (List.filter is_preferred (c0 :: cs)) as [|p1 [|p2 ps]] eqn:Hp.
      * apply token_pass_best, Hents.
      * intros H. injection H as <- _.
        apply filter_elem in Hp. rewrite <- Hc in Hp.
        apply List.filter_In in Hp as [Hp _].
        rewrite List.Forall_forall in Hents. apply Hents, Hp.
      * apply token_pass_best, Hents.
Qed.

Lemma expand_member_spec (bot : HABot) (m : string) :
  catalog_wf bot -> expand_member bot [] m = Spec.member_ids bot m.
Proof.
  intros Hwf. unfold expand_member, Spec.member_ids.
  destruct (alias_lookup bot !! normalize_name m) as [[p ent]|]; [reflexivity|].
  destruct (contains "." m); [reflexivity|].
  destruct (_resolve_against_ha bot m) as [[best|] c] eqn:Hr; simpl; [|reflexivity].
  rewrite (resolve_best_nonempty bot m best c Hwf Hr). reflexivity.
Qed.

Lemma group_expansion_spec (bot : HABot) (members : list string) :
  catalog_wf bot -> group_expansion bot members = Spec.group_ids bot members.
Proof.
  intros Hwf. unfold group_expansion, Spec.group_ids.
  rewrite fromkeys_dedup_first, foldl_expand_member. simpl. do 2 f_equal.
  induction members as [|m ms IH]; simpl; [reflexivity|].
  rewrite (expand_member_spec bot m Hwf), IH. reflexivity.
Qed.

Lemma index_entity_wf (index : gmap string string) (ent : Entity) :
  nonempty (entity_id ent) = true ->
  map_Forall (fun _ eid => nonempty eid = true) index ->
  map_Forall (fun _ eid => nonempty eid = true) (index_entity index ent).
Proof.
  intros He Hidx. unfold index_entity.
  destruct (nonempty (norm_friendly ent)), (nonempty (norm_entity ent));
    repeat (apply map_Forall_insert_2; [exact He|]); exact Hidx.
Qed.

Lemma foldl_index_entity_wf (ents : list Entity) (index : gmap string string) :
  Forall (fun e => nonempty (entity_id e) = true) ents ->
  map_Forall (fun _ eid => nonempty eid = true) index ->
  map_Forall (fun _ eid => nonempty eid = true) (foldl index_entity index ents).
Proof.
  revert index. induction ents as [|e ents IH]; intros index Hents Hidx; simpl.
  - exact Hidx.
  - inversion Hents as [|? ? He Hrest]; subst.
    apply IH; [exact Hrest | apply index_entity_wf; assumption].
Qed.

(** A catalog fetched from records that all carry an id is well formed. *)
Lemma build_entity_index_wf (data : list Item) (bot : HABot) :
  Forall (fun it => nonempty (item_entity_id it) = true) data ->
  catalog_wf (build_entity_index data bot).
Proof.
  intros Hdata.
  assert (Hents : Forall (fun e => nonempty (entity_id e) = true)
                         (map entity_of_item data)).
  { induction Hdata as [|it data Hit _ IH]; simpl; constructor; assumption. }
  split; simpl.
  - apply foldl_index_entity_wf; [exact Hents | apply map_Forall_empty].
  - exact Hents.
Qed.

(** C1. When the normalized phrase is the key of a stored group, the result
    is the deduplicated (first occurrences kept) concatenation of what each
    member contributes, in order: the id of the alias the member names, else
    the member itself when it contains a dot, else the best catalog match if
    any; the candidate list is empty, and the result is exactly this even
    when the expansion is empty. *)
Theorem resolve_group_expands_members (bot : HABot) (phrase pretty : string)
    (members : list string) :
  catalog_wf bot ->
  group_lookup bot !! normalize_name phrase = Some (pretty, members) ->
  resolve_single_target bot phrase
  = (Spec.dedup_first (List.concat (map (Spec.member_ids bot) members)), []).
Proof.
  intros Hwf Hg. unfold resolve_single_target. rewrite Hg.
  rewrite (group_expansion_spec bot members Hwf). reflexivity.
Qed.

(** The group "Downstairs" of the sample directory: its first member names
    an alias, the second is an entity id, the third is resolved against the
    catalog to an id already present, the fourth matches nothing. *)
Lemma resolve_group_expands_members_witness :
  catalog_wf Sample.downstairs_bot
  /\ group_lookup Sample.downstairs_bot !! normalize_name "Down-Stairs"
     = Some ("Downstairs", ["Kitchen Light"; "switch.fan1"; "kitchen"; "garage"])
  /\ resolve_single_target Sample.downstairs_bot "Down-Stairs"
     = (["light.kitchen"; "switch.fan1"], []).
Proof.
  assert (Hwf : catalog_wf Sample.downstairs_bot).
  { apply build_entity_index_wf. repeat constructor. }
  assert (Hg : group_lookup Sample.downstairs_bot !! normalize_name "Down-Stairs"
               = Some ("Downstairs",
                       ["Kitchen Light"; "switch.fan1"; "kitchen"; "garage"]))
    by (vm_compute; reflexivity).
  split; [exact Hwf|]. split; [exact Hg|].
  rewrite (resolve_group_expands_members Sample.downstairs_bot "Down-Stairs"
             "Downstairs" _ Hwf Hg).
  vm_compute. reflexivity.
Defined.

(** ** Precedence of groups, aliases and the catalog *)

(** C3. A phrase whose normalized form is the key of a stored group is
    resolved as that group, whatever the alias lookup holds for the same
    key, so also when an alias has the same normalized name; a phrase that
    matches no group but an alias is resolved as the alias, whatever the
    catalog holds; only a phrase that matches neither goes to the catalog. *)
Theorem group_then_alias_then_catalog (bot : HABot) (phrase : string) :
  (forall gpretty members,
      group_lookup bot !! normalize_name phrase = Some (gpretty, members) ->
      resolve_single_target bot phrase = (group_expansion bot members, []))
  /\ (forall gpretty members apretty ent,
      group_lookup bot !! normalize_name phrase = Some (gpretty, members) ->
      alias_lookup bot !! normalize_name phrase = Some (apretty, ent) ->
      resolve_single_target bot phrase = (group_expansion bot members, []))
  /\ (forall apretty ent,
      group_lookup bot !! normalize_name phrase = None ->
      alias_lookup bot !! normalize_name phrase = Some (apretty, ent) ->
      resolve_single_target bot phrase = ([ent], []))
  /\ (group_lookup bot !! normalize_name phrase = None ->
      alias_lookup bot !! normalize_name phrase = None ->
      snd (resolve_single_target bot phrase) = snd (_resolve_against_ha bot phrase)
      /\ forall best, fst (_resolve_against_ha bot phrase) = Some best ->
                      nonempty best = true ->
                      fst (resolve_single_target bot phrase) = [best]).
Proof.
  unfold resolve_single_target.
  split; [|split; [|split]].
  - intros gp ms Hg. rewrite Hg. reflexivity.
  - intros gp ms ap ent Hg _. rewrite Hg. reflexivity.
  - intros ap ent Hg Ha. rewrite Hg, Ha. reflexivity.
  - intros Hg Ha. split.
    + rewrite Hg, Ha. destruct (_resolve_against_ha bot phrase). reflexivity.
    + intros best Hb Hne. rewrite Hg, Ha.
      destruct (_resolve_against_ha bot phrase) as [e c]. simpl in Hb. subst e.
      simpl. rewrite Hne. reflexivity.
Qed.

(** "Evening" is a group and "evening" an alias: the phrase resolves to the
    two members of the group, not to the alias's [switch.porch]. *)
Lemma group_then_alias_then_catalog_witness :
  group_lookup Sample.evening_bot !! normalize_name "EVENING"
  = Some ("Evening", ["light.kitchen"; "light.hall"])
  /\ alias_lookup Sample.evening_bot !! normalize_name "EVENING"
     = Some ("evening", "switch.porch")
  /\ resolve_single_target Sample.evening_bot "EVENING"
     = (["light.kitchen"; "light.hall"], []).
Proof.
  assert (Hg : group_lookup Sample.evening_bot !! normalize_name "EVENING"
               = Some ("Evening", ["light.kitchen"; "light.hall"]))
    by (vm_compute; reflexivity).
  assert (Ha : alias_lookup Sample.evening_bot !! normalize_name "EVENING"
               = Some ("evening", "switch.porch"))
    by (vm_compute; reflexivity).
  split; [exact Hg|]. split; [exact Ha|].
  rewrite (proj1 (proj2 (group_then_alias_then_catalog Sample.evening_bot "EVENING"))
             _ _ _ _ Hg Ha).
  vm_compute. reflexivity.
Defined.

(** ** Candidates of group and alias matches *)

Lemma group_expansion_unresolved (bot : HABot) (members : list string) :
  Forall (fun m => expand_member bot [] m = []) members ->
  group_expansion bot members = [].
Proof.
  intros H. unfold group_expansion. rewrite foldl_expand_member. simpl.
  replace (List.concat (map (expand_member bot []) members)) with (@nil string);
    [reflexivity|].
  induction H as [|m ms Hm _ IH]; simpl; [reflexivity|].
  rewrite Hm. exact IH.
Qed.

(** C10. A phrase whose normalized form is the key of a stored group or
    alias comes back with an empty candidate list.  So a group of which no
    member contributes an id resolves to no id and no candidate, and the
    dispatcher adds for it the plain "no match" line, without suggestions,
    and sends nothing. *)
Theorem stored_name_has_no_candidates (send_webhook : string -> string -> string -> nat)
    (bot : HABot) (phrase : string) :
  is_Some (group_lookup bot !! normalize_name phrase)
  \/ is_Some (alias_lookup bot !! normalize_name phrase) ->
  snd (resolve_single_target bot phrase) = []
  /\ (forall pretty members,
        group_lookup bot !! normalize_name phrase = Some (pretty, members) ->
        Forall (fun m => expand_member bot [] m = []) members ->
        resolve_single_target bot phrase = ([], [])
        /\ forall action_text user successes failures,
            dispatch_name send_webhook bot action_text user (successes, failures) phrase
            = (successes, (failures ++ [NoMatch phrase])%list)).
Proof.
  intros Hstored.
  assert (Hcands : snd (resolve_single_target bot phrase) = []).
  { unfold resolve_single_target.
    destruct (group_lookup bot !! normalize_name phrase) as [[gp ms]|] eqn:Hg;
      [reflexivity|].
    destruct (alias_lookup bot !! normalize_name phrase) as [[ap ent]|] eqn:Ha;
      [reflexivity|].
    destruct Hstored as [[x Hx] | [x Hx]]; discriminate Hx. }
  split; [exact Hcands|].
  intros pretty members Hg Hnone.
  assert (Hres : resolve_single_target bot phrase = ([], [])).
  { unfold resolve_single_target. rewrite Hg.
    rewrite (group_expansion_unresolved bot members Hnone). reflexivity. }
  split; [exact Hres|].
  intros action_text user successes failures.
  unfold dispatch_name. rewrite Hres. reflexivity.
Qed.

(** No member of the group "Attic" resolves: the phrase yields no id and no
    candidate, and the whole reply is the "no match" line. *)
Lemma stored_name_has_no_candidates_witness :
  group_lookup Sample.downstairs_bot !! normalize_name "attic"
  = Some ("Attic", ["garage"; "cellar"])
  /\ resolve_single_target Sample.downstairs_bot "attic" = ([], [])
  /\ dispatch (fun _ _ _ => 200%nat) Sample.downstairs_bot "turn on" "attic" "user"
     = [NoMatch "attic"].
Proof.
  assert (Hg : group_lookup Sample.downstairs_bot !! normalize_name "attic"
               = Some ("Attic", ["garage"; "cellar"]))
    by (vm_compute; reflexivity).
  assert (Hnone : Forall (fun m => expand_member Sample.downstairs_bot [] m = [])
                         ["garage"; "cellar"])
    by (repeat constructor).
  destruct (stored_name_has_no_candidates (fun _ _ _ => 200%nat)
              Sample.downstairs_bot "attic" (or_introl (ex_intro _ _ Hg)))
    as [_ Hgroup].
  destruct (Hgroup _ _ Hg Hnone) as [Hres Hline].
  split; [exact Hg|]. split; [exact Hres|].
  unfold dispatch.
  replace (Suffix.expand_numbers_suffix "attic") with ["attic"]
    by (vm_compute; reflexivity).
  change (foldl ?f ?a [?x]) with (f a x).
  rewrite Hline. reflexivity.
Defined.

(** ** Deleting what is not stored *)

Lemma del_loop_no_match {V : Type} (norm : string) (keys : list string)
    (d : list (string * V)) (deleted : bool) :
  Forall (fun pretty => normalize_name pretty <> norm) keys ->
  foldl (fun '(d', deleted) pretty =>
           if String.eqb (normalize_name pretty) norm
           then (Dict.del pretty d', true)
           else (d', deleted))
        (d, deleted) keys
  = (d, deleted).
Proof.
  intros H. induction H as [|k ks Hk _ IH]; simpl; [reflexivity|].
  apply String.eqb_neq in Hk. rewrite Hk. exact IH.
Qed.

Lemma del_matching_no_match {V : Type} (name : string) (d : list (string * V)) :
  no_entry_named name d -> del_matching (normalize_name name) d = (d, false).
Proof. intros H. unfold del_matching. apply del_loop_no_match, H. Qed.

Lemma update_aliases_same (f : Aliases -> Aliases) (w : World) (c : Cfg) :
  f (cfg_aliases w c) = cfg_aliases w c ->
  cfg_aliases (fst (update_aliases f w c)) (snd (update_aliases f w c)) = cfg_aliases w c
  /\ cfg_groups (fst (update_aliases f w c)) (snd (update_aliases f w c)) = cfg_groups w c
  /\ config_file (fst (update_aliases f w c)) = config_file w.
Proof.
  unfold update_aliases, cfg_aliases, cfg_groups.
  destruct c as [[|a] [|g]]; simpl; intros ->; repeat split.
Qed.

Lemma update_groups_same (f : Groups -> Groups) (w : World) (c : Cfg) :
  f (cfg_groups w c) = cfg_groups w c ->
  cfg_aliases (fst (update_groups f w c)) (snd (update_groups f w c)) = cfg_aliases w c
  /\ cfg_groups (fst (update_groups f w c)) (snd (update_groups f w c)) = cfg_groups w c
  /\ config_file (fst (update_groups f w c)) = config_file w.
Proof.
  unfold update_groups, cfg_aliases, cfg_groups.
  destruct c as [[|a] [|g]]; simpl; intros ->; repeat split.
Qed.

(** Saving and rebuilding leaves the configuration as it is and writes its
    serialization. *)
Lemma save_and_rebuild_cfg (w : World) (bot : HABot) :
  cfg_aliases (fst (save_and_rebuild w bot)) (cfg (snd (save_and_rebuild w bot)))
  = cfg_aliases w (cfg bot)
  /\ cfg_groups (fst (save_and_rebuild w bot)) (cfg (snd (save_and_rebuild w bot)))
     = cfg_groups w (cfg bot)
  /\ config_file (fst (save_and_rebuild w bot))
     = Content (Json.dump (cfg_aliases w (cfg bot)) (cfg_groups w (cfg bot))).
Proof. repeat split. Qed.

(** C7, as stated, fails when the file does not hold the serialization of
    the current configuration, for instance when there is no file yet: the
    failed delete of an alias replies "not found" and creates the file. *)
Lemma failed_delete_creates_file :
  snd (alias_del "ghost" Sample.fresh_world Sample.fresh_bot) = AliasNotFound
  /\ config_file Sample.fresh_world = Missing
  /\ config_file (fst (fst (alias_del "ghost" Sample.fresh_world Sample.fresh_bot)))
     = Content (Json.dump [] [])
  /\ String.length (Json.dump [] []) = 35%nat.
Proof.
  split; [vm_compute; reflexivity|]. split; [reflexivity|].
  split; vm_compute; reflexivity.
Qed.

(** The common end of a delete that removed nothing: the configuration
    [u] left by the loop is saved and the lookups are rebuilt. *)
Lemma failed_delete_tail (w : World) (bot : HABot) (u : World * Cfg)
    (not_found : Reply) :
  cfg_aliases (fst u) (snd u) = cfg_aliases w (cfg bot) ->
  cfg_groups (fst u) (snd u) = cfg_groups w (cfg bot) ->
  contains "not found" (reply_text not_found) = true ->
  directory_kept w bot
    (let '(w1, c1) := u in
     let '(w2, bot2) := save_and_rebuild w1 (with_cfg bot c1) in
     (w2, bot2, not_found))
    not_found.
Proof.
  destruct u as [w1 c1]. cbn [fst snd]. intros Ha Hg Htext.
  destruct (save_and_rebuild_cfg w1 (with_cfg bot c1)) as (Ha' & Hg' & Hf').
  destruct (save_and_rebuild w1 (with_cfg bot c1)) as [w2 bot2].
  unfold directory_kept. cbn [fst snd cfg with_cfg] in *.
  rewrite Ha in Ha', Hf'. rewrite Hg in Hg', Hf'.
  repeat split; try assumption.
  intros Hbefore. rewrite Hf', Hbefore. reflexivity.
Qed.

(** C7, amended. A delete of an alias, or of a group, of which the
    normalized name matches no stored entry replies "not found", leaves
    every alias and group entry of the configuration as it was, and writes
    the serialization of that configuration to the file: the bytes of the
    file are unchanged whenever it held that serialization before. *)
Theorem failed_delete_keeps_directory (name : string) (w : World) (bot : HABot) :
  (no_entry_named name (cfg_aliases w (cfg bot)) ->
   directory_kept w bot (alias_del name w bot) AliasNotFound)
  /\ (no_entry_named name (cfg_groups w (cfg bot)) ->
      directory_kept w bot (group_del name w bot) GroupNotFound).
Proof.
  split; intros Hno;
    pose proof (del_matching_no_match name _ Hno) as Hdel;
    unfold alias_del, group_del; rewrite Hdel; cbn [snd].
  - destruct (update_aliases_same
                (fun d => fst (del_matching (normalize_name name) d)) w (cfg bot))
      as (Ha & Hg & _); [rewrite Hdel; reflexivity|].
    apply failed_delete_tail; [exact Ha | exact Hg | reflexivity].
  - destruct (update_groups_same
                (fun d => fst (del_matching (normalize_name name) d)) w (cfg bot))
      as (Ha & Hg & _); [rewrite Hdel; reflexivity|].
    apply failed_delete_tail; [exact Ha | exact Hg | reflexivity].
Qed.

(** The directory holds the alias "Desk Lamp" and the group "Office", and the
    file their serialization: deleting the alias "ghost" and the group
    "ghost" finds nothing and leaves the bytes of the file as they were. *)
Lemma failed_delete_keeps_directory_witness :
  directory_kept Sample.lamp_world Sample.lamp_bot
    (alias_del "ghost" Sample.lamp_world Sample.lamp_bot) AliasNotFound
  /\ directory_kept Sample.lamp_world Sample.lamp_bot
       (group_del "ghost" Sample.lamp_world Sample.lamp_bot) GroupNotFound
  /\ config_file (fst (fst (alias_del "ghost" Sample.lamp_world Sample.lamp_bot)))
     = config_file Sample.lamp_world.
Proof.
  assert (Ha : no_entry_named "ghost" (cfg_aliases Sample.lamp_world (cfg Sample.lamp_bot))).
  { repeat constructor. vm_compute. discriminate. }
  assert (Hg : no_entry_named "ghost" (cfg_groups Sample.lamp_world (cfg Sample.lamp_bot))).
  { repeat constructor. vm_compute. discriminate. }
  pose proof (proj1 (failed_delete_keeps_directory "ghost" Sample.lamp_world
                       Sample.lamp_bot) Ha) as Halias.
  pose proof (proj2 (failed_delete_keeps_directory "ghost" Sample.lamp_world
                       Sample.lamp_bot) Hg) as Hgroup.
  split; [exact Halias|]. split; [exact Hgroup|].
  destruct Halias as (_ & _ & _ & _ & _ & Hsame).
  apply Hsame. reflexivity.
Defined.

(** ** Writing aliases *)

(** Writing the same pretty name twice does leave one entry, with the
    second entity id. *)
Lemma dict_set_twice {V : Type} (k : string) (v1 v2 : V) (d : list (string * V)) :
  Dict.set k v2 (Dict.set k v1 d) = Dict.set k v2 d.
Proof.
  induction d as [|[k' v'] d IH]; simpl.
  - rewrite String.eqb_refl. reflexivity.
  - destruct (String.eqb k k') eqn:E; simpl; rewrite E; [reflexivity|].
    rewrite IH. reflexivity.
Qed.

(** C5. The alias upsert is keyed by the pretty name as typed.  Starting
    from the empty directory, writing "Kitchen Light" and then
    "kitchen light", two names with one normalized form, leaves two stored
    aliases.  And when "kitchen light" had been written once before these
    two writes, it keeps its place in front of "Kitchen Light", so that the
    lookup for their normalized name, rebuilt in the order of the entries,
    holds the entity id of the first of the two writes, to which the phrase
    then resolves. *)
Theorem alias_add_keeps_both_spellings :
  let two_writes :=
    run_commands [alias_add "Kitchen Light" "light.a";
                  alias_add "kitchen light" "light.b"]
                 (Sample.fresh_world, Sample.fresh_bot) in
  let three_writes :=
    run_commands [alias_add "kitchen light" "light.old";
                  alias_add "Kitchen Light" "light.a";
                  alias_add "kitchen light" "light.b"]
                 (Sample.fresh_world, Sample.fresh_bot) in
  normalize_name "Kitchen Light" = normalize_name "kitchen light"
  /\ cfg_aliases (fst two_writes) (cfg (snd two_writes))
     = [("Kitchen Light", "light.a"); ("kitchen light", "light.b")]
  /\ cfg_aliases (fst three_writes) (cfg (snd three_writes))
     = [("kitchen light", "light.b"); ("Kitchen Light", "light.a")]
  /\ alias_lookup (snd three_writes) !! "kitchenlight"
     = Some ("Kitchen Light", "light.a")
  /\ resolve_single_target (snd three_writes) "kitchen light" = (["light.a"], []).
Proof. repeat split; vm_compute; reflexivity. Qed.

(** ** Loading the configuration *)

(** [load_config] is total, and falls back to the copy of [DEFAULT_CONFIG]
    when the file is missing, cannot be read, cannot be parsed, or does not
    hold a dict. *)
Lemma load_config_fallback (json_load : string -> option JsonDoc) (w : World) :
  config_file w = Missing
  \/ config_file w = Unreadable
  \/ (exists bytes, config_file w = Content bytes
                    /\ (json_load bytes = None \/ json_load bytes = Some NotADict)) ->
  load_config json_load w = DEFAULT_CONFIG_copy.
Proof.
  unfold load_config.
  intros [H | [H | (bytes & H & [Hl | Hl])]]; rewrite H; try rewrite Hl; reflexivity.
Qed.

(** As long as nothing was written through a copy of [DEFAULT_CONFIG], the
    fallback is the empty configuration. *)
Lemma load_config_fallback_pristine (json_load : string -> option JsonDoc)
    (f : FileState) :
  load_config json_load (initial_world f) = DEFAULT_CONFIG_copy ->
  cfg_aliases (initial_world f) (load_config json_load (initial_world f)) = []
  /\ cfg_groups (initial_world f) (load_config json_load (initial_world f)) = [].
Proof. intros ->. split; reflexivity. Qed.

(** A parsed dict keeps its sections; a missing section is a fresh empty one. *)
Lemma load_config_parsed (json_load : string -> option JsonDoc) (w : World)
    (bytes : string) (a : option Aliases) (g : option Groups) :
  config_file w = Content bytes ->
  json_load bytes = Some (Dict a g) ->
  load_config json_load w
  = {| aliases_ref := Own (default [] a); groups_ref := Own (default [] g) |}.
Proof. intros Hf Hl. unfold load_config. rewrite Hf, Hl. reflexivity. Qed.

(** C8. The fallback of [load_config] is a shallow copy of
    [DEFAULT_CONFIG]: its two sections are the dicts of [DEFAULT_CONFIG]
    themselves.  The bot starts without a file and loads the empty
    configuration; an alias is added, which writes into the shared dict;
    the file is then removed; the next load, again without a file, returns
    a configuration that holds the alias. *)
Theorem load_config_fallback_not_empty (json_load : string -> option JsonDoc) :
  let w0 := initial_world Missing in
  let bot0 := init_bot (load_config json_load w0) in
  let w1 := fst (fst (alias_add "Lamp" "light.lamp" w0 bot0)) in
  let w2 := remove_config_file w1 in
  cfg_aliases w0 (load_config json_load w0) = []
  /\ config_file w2 = Missing
  /\ load_config json_load w2 = DEFAULT_CONFIG_copy
  /\ cfg_aliases w2 (load_config json_load w2) = [("Lamp", "light.lamp")].
Proof. repeat split. Qed.

(** ** The lookups and the stored configuration *)

Section Lookups.
Context {V W : Type} (g : V -> W).

Let step (lookup : gmap string (string * W)) (entry : string * V)
    : gmap string (string * W) :=
  let '(pretty, x) := entry in
  let norm := normalize_name pretty in
  if nonempty norm then <[norm := (pretty, g x)]> lookup else lookup.

Lemma foldl_lookup (d : list (string * V)) (acc : gmap string (string * W))
    (n : string) :
  foldl step acc d !! n
  = match (if nonempty n then last_named n d else None) with
    | Some (pretty, x) => Some (pretty, g x)
    | None => acc !! n
    end.
Proof.
  revert acc. induction d as [|[pretty x] d IH]; intros acc; simpl.
  - destruct (nonempty n); reflexivity.
  - rewrite IH. destruct (nonempty n) eqn:Hn; simpl.
    + destruct (last_named n d) as [[p' x']|]; [reflexivity|].
      destruct (String.eqb (normalize_name pretty) n) eqn:E.
      * apply String.eqb_eq in E. rewrite E, Hn.
        apply lookup_insert_eq.
      * apply String.eqb_neq in E.
        destruct (nonempty (normalize_name pretty)); [|reflexivity].
        apply lookup_insert_ne, E.
    + destruct (nonempty (normalize_name pretty)) eqn:Hp; [|reflexivity].
      apply lookup_insert_ne. intros Heq. rewrite Heq in Hp. congruence.
Qed.
End Lookups.

(** The alias lookup holds, under every non-empty normalized name, the last
    stored alias with that normalized name, and nothing else. *)
Lemma alias_lookup_of_spec (a : Aliases) (n : string) :
  alias_lookup_of a !! n = if nonempty n then last_named n a else None.
Proof.
  unfold alias_lookup_of.
  etransitivity; [exact (foldl_lookup (fun e : string => e) a ∅ n)|].
  destruct (if nonempty n then last_named n a else None) as [[p e]|];
    [reflexivity | apply lookup_empty].
Qed.

(** The same for groups, with the members of the group when they are a list. *)
Lemma group_lookup_of_spec (gs : Groups) (n : string) :
  group_lookup_of gs !! n
  = match (if nonempty n then last_named n gs else None) with
    | Some (pretty, v) => Some (pretty, members_list v)
    | None => None
    end.
Proof.
  unfold group_lookup_of.
  etransitivity; [exact (foldl_lookup members_list gs ∅ n)|].
  destruct (if nonempty n then last_named n gs else None) as [[p e]|];
    [reflexivity | apply lookup_empty].
Qed.

Lemma last_named_stored {V : Type} (n : string) (d : list (string * V))
    (pretty : string) (v : V) :
  last_named n d = Some (pretty, v) -> In (pretty, v) d /\ normalize_name pretty = n.
Proof.
  induction d as [|[p x] d IH]; simpl; [discriminate|].
  destruct (last_named n d) as [r|].
  - intros H. injection H as ->. destruct (IH eq_refl) as [Hin Hn]. auto.
  - destruct (String.eqb (normalize_name p) n) eqn:E; [|discriminate].
    intros H. injection H as -> ->. apply String.eqb_eq in E. auto.
Qed.

Lemma last_named_exists {V : Type} (n : string) (d : list (string * V))
    (pretty : string) (v : V) :
  In (pretty, v) d -> normalize_name pretty = n -> is_Some (last_named n d).
Proof.
  intros Hin Hn. induction d as [|[p x] d IH]; simpl; [contradiction|].
  destruct (last_named n d) as [r|] eqn:Hl; [eexists; reflexivity|].
  destruct Hin as [Heq | Hin].
  - injection Heq as -> ->. rewrite Hn, String.eqb_refl. eexists; reflexivity.
  - destruct (IH Hin) as [r Hr]. discriminate Hr.
Qed.

(** Precedence in terms of the stored configuration: when the lookups are
    those of the configuration and the phrase has a non-empty normalized
    form shared by a stored group and a stored alias, the phrase resolves
    to the expansion of a stored group of that normalized name. *)
Lemma stored_group_wins (w : World) (bot : HABot) (phrase gname aname aent : string)
    (gval : GroupValue) :
  lookups_in_sync w bot ->
  nonempty (normalize_name phrase) = true ->
  In (gname, gval) (cfg_groups w (cfg bot)) ->
  normalize_name gname = normalize_name phrase ->
  In (aname, aent) (cfg_aliases w (cfg bot)) ->
  normalize_name aname = normalize_name phrase ->
  exists gname' gval',
    In (gname', gval') (cfg_groups w (cfg bot))
    /\ normalize_name gname' = normalize_name phrase
    /\ resolve_single_target bot phrase
       = (group_expansion bot (members_list gval'), []).
Proof.
  intros [_ Hsync] Hne Hin Hn _ _.
  destruct (last_named_exists _ _ _ _ Hin Hn) as [[p v] Hlast].
  destruct (last_named_stored _ _ _ _ Hlast) as [Hin' Hn'].
  exists p, v. split; [exact Hin'|]. split; [exact Hn'|].
  unfold resolve_single_target.
  rewrite Hsync, group_lookup_of_spec, Hne, Hlast. reflexivity.
Qed.

(** ** Parsing names and members *)

Example parse_quoted_name_samples :
  Parse.parse_quoted_name (String Json.quote "Living Room" ++ String Json.quote " lamp1")
  = (Some "Living Room", "lamp1")
  /\ Parse.parse_quoted_name "lamp1 extra" = (Some "lamp1", "extra")
  /\ Parse.parse_quoted_name "   " = (None, "")
  /\ Parse.parse_quoted_name "'a b" = (Some "a b", "")
  /\ Parse.parse_quoted_name ("abc def" ++ String Suffix.newline "ghi") = (None, "")
  /\ Parse.parse_quoted_name ("abc " ++ String Suffix.newline " def") = (Some "abc", "def")
  /\ Parse.parse_quoted_name "'' x" = (Some "", "x").
Proof. repeat split; vm_compute; reflexivity. Qed.

Example split_members_samples :
  Parse.split_members "a, b,,c  d" = ["a"; "b"; "c"; "d"]
  /\ Parse.split_members ",a," = ["a"]
  /\ Parse.split_members " , " = []
  /\ Parse.split_members "" = [].
Proof. repeat split; vm_compute; reflexivity. Qed.

(** *** White space at the ends of a text *)

Lemma rstrip_cons_not_space (c : ascii) (s : string) :
  is_space c = false -> rstrip (String c s) = String c (rstrip s).
Proof. intros Hc. simpl. rewrite Hc. destruct (rstrip s); reflexivity. Qed.

Lemma rstrip_blank (s : string) :
  all_chars is_space s = true -> rstrip s = "".
Proof.
  induction s as [|c s IH]; simpl; [reflexivity|].
  intros H. apply andb_prop in H as [Hc Hs].
  rewrite (IH Hs), Hc. reflexivity.
Qed.

Lemma rstrip_empty_blank (s : string) :
  rstrip s = "" -> all_chars is_space s = true.
Proof.
  induction s as [|c s IH]; simpl; [reflexivity|].
  destruct (rstrip s) as [|r rs] eqn:Hr; [|discriminate].
  destruct (is_space c); [|discriminate].
  intros _. simpl. apply IH. reflexivity.
Qed.

Lemma lstrip_blank (s : string) :
  all_chars is_space s = true -> lstrip s = "".
Proof.
  induction s as [|c s IH]; simpl; [reflexivity|].
  intros H. apply andb_prop in H as [Hc Hs]. rewrite Hc. exact (IH Hs).
Qed.

Lemma strip_blank (s : string) :
  all_chars is_space s = true -> strip s = "".
Proof. intros H. unfold strip. rewrite (lstrip_blank s H). reflexivity. Qed.

Lemma rstrip_cons_keep (c : ascii) (s : string) :
  rstrip s <> "" -> rstrip (String c s) = String c (rstrip s).
Proof. intros H. simpl. destruct (rstrip s); [contradiction | reflexivity]. Qed.

Lemma rstrip_idempotent (s : string) : rstrip (rstrip s) = rstrip s.
Proof.
  induction s as [|c s IH]; simpl; [reflexivity|].
  destruct (rstrip s) as [|r rs] eqn:Hr.
  - destruct (is_space c) eqn:Hc; [reflexivity|].
    simpl. rewrite Hc. reflexivity.
  - rewrite rstrip_cons_keep; rewrite IH; [reflexivity | discriminate].
Qed.

Lemma lstrip_rstrip (s : string) : lstrip (rstrip s) = rstrip (lstrip s).
Proof.
  induction s as [|c s IH]; [reflexivity|].
  destruct (is_space c) eqn:Hc.
  - change (lstrip (String c s)) with (if is_space c then lstrip s else String c s).
    rewrite Hc, <- IH.
    destruct (rstrip s) as [|r rs] eqn:Hr.
    + simpl. rewrite Hr, Hc. reflexivity.
    + rewrite rstrip_cons_keep by (rewrite Hr; discriminate).
      rewrite Hr. simpl. rewrite Hc. reflexivity.
  - rewrite (rstrip_cons_not_space c s Hc). simpl lstrip. rewrite Hc.
    rewrite (rstrip_cons_not_space c s Hc). reflexivity.
Qed.

Lemma lstrip_idempotent (s : string) : lstrip (lstrip s) = lstrip s.
Proof.
  induction s as [|c s IH]; simpl; [reflexivity|].
  destruct (is_space c) eqn:Hc; [exact IH|]. simpl. rewrite Hc. reflexivity.
Qed.

Lemma strip_idempotent (s : string) : strip (strip s) = strip s.
Proof.
  unfold strip.
  rewrite (lstrip_rstrip (lstrip s)), lstrip_idempotent, rstrip_idempotent.
  reflexivity.
Qed.

Lemma strip_lstrip (s : string) : strip (lstrip s) = strip s.
Proof. unfold strip. rewrite lstrip_idempotent. reflexivity. Qed.

Lemma strip_rstrip (s : string) : strip (rstrip s) = strip s.
Proof. unfold strip. rewrite lstrip_rstrip, rstrip_idempotent. reflexivity. Qed.

Lemma rstrip_app_anchor (x y : string) (q : ascii) :
  is_space q = false ->
  rstrip (x ++ String q y) = x ++ String q (rstrip y).
Proof.
  intros Hq. induction x as [|c x IH].
  - apply rstrip_cons_not_space, Hq.
  - change (String c x ++ String q y) with (String c (x ++ String q y)).
    rewrite rstrip_cons_keep; rewrite IH; [reflexivity|].
    destruct x; discriminate.
Qed.

Lemma rstrip_app_token (t r : string) :
  all_chars Parse.not_space t = true -> rstrip (t ++ r) = t ++ rstrip r.
Proof.
  induction t as [|c t IH]; [reflexivity|].
  intros H. simpl in H. apply andb_prop in H as [Hc Ht].
  apply negb_true_iff in Hc.
  change (String c t ++ r) with (String c (t ++ r)).
  rewrite (rstrip_cons_not_space c _ Hc), (IH Ht). reflexivity.
Qed.

Lemma lstrip_app_blank (lead s : string) :
  all_chars is_space lead = true -> lstrip (lead ++ s) = lstrip s.
Proof.
  induction lead as [|c lead IH]; simpl; [reflexivity|].
  intros H. apply andb_prop in H as [Hc Hl]. rewrite Hc. exact (IH Hl).
Qed.

Lemma rstrip_snoc_space (a : string) (c : ascii) :
  is_space c = true -> rstrip (a ++ String c "") = rstrip a.
Proof.
  intros Hc. induction a as [|x a IH]; simpl.
  - rewrite Hc. reflexivity.
  - rewrite IH. reflexivity.
Qed.

Lemma rstrip_length (s : string) : (String.length (rstrip s) <= String.length s)%nat.
Proof.
  induction s as [|c s IH]; simpl; [lia|].
  destruct (rstrip s) as [|r rs]; [destruct (is_space c)|]; simpl in *; lia.
Qed.

Lemma length_snoc (a : string) (c : ascii) :
  String.length (a ++ String c "") = S (String.length a).
Proof. induction a as [|x a IH]; simpl; [reflexivity | rewrite IH; reflexivity]. Qed.

(** A text stripped on the right does not end with white space. *)
Lemma rstrip_last (s a : string) (c : ascii) :
  rstrip s = a ++ String c "" -> is_space c = false.
Proof.
  intros H. destruct (is_space c) eqn:Hc; [exfalso | reflexivity].
  pose proof (rstrip_idempotent s) as Hid.
  rewrite H, (rstrip_snoc_space a c Hc) in Hid.
  pose proof (rstrip_length a) as Hlen.
  rewrite Hid, length_snoc in Hlen. lia.
Qed.

Lemma rstrip_head (s : string) (c : ascii) (r : string) :
  rstrip s = String c r -> exists s', s = String c s'.
Proof.
  destruct s as [|x s]; simpl; [discriminate|].
  destruct (rstrip s); [destruct (is_space x)|]; intros H; try discriminate;
    injection H as -> _; eexists; reflexivity.
Qed.

Lemma all_chars_rstrip (p : ascii -> bool) (s : string) :
  all_chars p s = true -> all_chars p (rstrip s) = true.
Proof.
  induction s as [|c s IH]; simpl; [reflexivity|].
  intros H. apply andb_prop in H as [Hc Hs]. specialize (IH Hs).
  destruct (rstrip s); [destruct (is_space c)|]; simpl in *; rewrite ?Hc; auto.
Qed.

Lemma all_chars_lstrip (p : ascii -> bool) (s : string) :
  all_chars p s = true -> all_chars p (lstrip s) = true.
Proof.
  induction s as [|c s IH]; simpl; [reflexivity|].
  intros H. destruct (is_space c); [|exact H].
  apply andb_prop in H as [_ Hs]. exact (IH Hs).
Qed.

Lemma append_empty_r (s : string) : s ++ "" = s.
Proof.
  induction s as [|c s IH]; [reflexivity|].
  change (String c (s ++ "") = String c s). f_equal. exact IH.
Qed.

Lemma strip_token (t : string) :
  all_chars Parse.not_space t = true -> strip t = t.
Proof.
  intros H. unfold strip.
  assert (Hl : lstrip t = t).
  { destruct t as [|c t]; [reflexivity|]. simpl in *.
    apply andb_prop in H as [Hc _]. apply negb_true_iff in Hc.
    rewrite Hc. reflexivity. }
  rewrite Hl. rewrite <- (append_empty_r t) at 1.
  rewrite (rstrip_app_token t "" H). exact (append_empty_r t).
Qed.

(** *** [parse_quoted_name] *)

Lemma is_quote_not_space (q : ascii) : Parse.is_quote q = true -> is_space q = false.
Proof.
  unfold Parse.is_quote. intros H. apply orb_prop in H as [H | H];
    apply Ascii.eqb_eq in H; subst q; reflexivity.
Qed.

Lemma split_at_char_found (q : ascii) (name after : string) :
  all_chars (fun c => negb (Ascii.eqb c q)) name = true ->
  Parse.split_at_char q (name ++ String q after) = Some (name, after).
Proof.
  induction name as [|c name IH]; simpl.
  - intros _. rewrite Ascii.eqb_refl. reflexivity.
  - intros H. apply andb_prop in H as [Hc Hn]. apply negb_true_iff in Hc.
    rewrite Hc, (IH Hn). reflexivity.
Qed.

Lemma split_at_char_absent (q : ascii) (s : string) :
  all_chars (fun c => negb (Ascii.eqb c q)) s = true ->
  Parse.split_at_char q s = None.
Proof.
  induction s as [|c s IH]; simpl; [reflexivity|].
  intros H. apply andb_prop in H as [Hc Hs]. apply negb_true_iff in Hc.
  rewrite Hc, (IH Hs). reflexivity.
Qed.

Lemma parse_quoted (lead name after : string) (q : ascii) :
  Parse.is_quote q = true ->
  all_chars is_space lead = true ->
  all_chars (fun c => negb (Ascii.eqb c q)) name = true ->
  Parse.parse_quoted_name (lead ++ String q (name ++ String q after))
  = (Some (strip name), strip after).
Proof.
  intros Hq Hlead Hname.
  pose proof (is_quote_not_space q Hq) as Hsp.
  assert (Hstrip : strip (lead ++ String q (name ++ String q after))
                   = String q (name ++ String q (rstrip after))).
  { unfold strip. rewrite (lstrip_app_blank lead _ Hlead).
    simpl lstrip. rewrite Hsp.
    exact (rstrip_app_anchor (String q name) after q Hsp). }
  unfold Parse.parse_quoted_name. rewrite Hstrip. lazy beta iota zeta.
  rewrite Hq, (split_at_char_found q name (rstrip after) Hname).
  rewrite strip_lstrip, strip_rstrip. reflexivity.
Qed.

(** A name between two quotation marks of the same kind, possibly after
    leading white space, is returned stripped, whatever white space, dots or
    other characters it holds (the other kind of quotation mark included),
    and the remainder is the stripped text after the closing mark. *)
Theorem parse_quoted_name_quoted (lead name after : string) (q : ascii) :
  Parse.is_quote q = true ->
  all_chars is_space lead = true ->
  all_chars (fun c => negb (Ascii.eqb c q)) name = true ->
  Parse.parse_quoted_name (lead ++ String q (name ++ String q after))
  = (Some (strip name), strip after).
Proof. exact (parse_quoted lead name after q). Qed.

Lemma parse_quoted_name_quoted_witness :
  Parse.parse_quoted_name "  'Living  Room ' light.lr1, extra "
  = (Some "Living  Room", "light.lr1, extra").
Proof.
  apply (parse_quoted_name_quoted "  " "Living  Room " " light.lr1, extra " "'"%char);
    reflexivity.
Defined.

(** An opening quotation mark that is never closed: the whole text after it
    is the name, stripped, and the remainder is empty. *)
Theorem parse_quoted_name_unclosed (lead body : string) (q : ascii) :
  Parse.is_quote q = true ->
  all_chars is_space lead = true ->
  all_chars (fun c => negb (Ascii.eqb c q)) body = true ->
  Parse.parse_quoted_name (lead ++ String q body) = (Some (strip body), "").
Proof.
  intros Hq Hlead Hbody.
  pose proof (is_quote_not_space q Hq) as Hsp.
  assert (Hstrip : strip (lead ++ String q body) = String q (rstrip body)).
  { unfold strip. rewrite (lstrip_app_blank lead _ Hlead).
    simpl lstrip. rewrite Hsp.
    exact (rstrip_cons_not_space q body Hsp). }
  unfold Parse.parse_quoted_name. rewrite Hstrip. lazy beta iota zeta.
  rewrite Hq, (split_at_char_absent q (rstrip body) (all_chars_rstrip _ _ Hbody)).
  rewrite strip_rstrip. reflexivity.
Qed.

Lemma parse_quoted_name_unclosed_witness :
  Parse.parse_quoted_name "'Living Room light.lr1" = (Some "Living Room light.lr1", "").
Proof.
  apply (parse_quoted_name_unclosed "" "Living Room light.lr1" "'"%char); reflexivity.
Defined.

Lemma span_app (p : ascii -> bool) (a b : string) :
  all_chars p a = true ->
  match b with EmptyString => true | String c _ => negb (p c) end = true ->
  Parse.span p (a ++ b) = (a, b).
Proof.
  intros Ha Hb. induction a as [|c a IH].
  - destruct b as [|x b]; [reflexivity|]. simpl.
    apply negb_true_iff in Hb. rewrite Hb. reflexivity.
  - simpl in Ha. apply andb_prop in Ha as [Hc Ha].
    change (String c a ++ b) with (String c (a ++ b)).
    simpl. rewrite Hc, (IH Ha). reflexivity.
Qed.

Lemma span_all (p : ascii -> bool) (s : string) :
  all_chars p s = true -> Parse.span p s = (s, "").
Proof.
  intros H. rewrite <- (append_empty_r s) at 1. apply span_app; auto.
Qed.

Lemma span_spec (p : ascii -> bool) (s a b : string) :
  Parse.span p s = (a, b) ->
  s = a ++ b /\ all_chars p a = true
  /\ match b with EmptyString => true | String c _ => negb (p c) end = true.
Proof.
  revert a b. induction s as [|c s IH]; intros a b; simpl.
  - intros H. injection H as <- <-. auto.
  - destruct (p c) eqn:Hc.
    + destruct (Parse.span p s) as [a' b'] eqn:Hs.
      intros H. injection H as <- <-.
      destruct (IH a' b' eq_refl) as (-> & Ha & Hb).
      simpl. rewrite Hc. auto.
    + intros H. injection H as <- <-. simpl. rewrite Hc. auto.
Qed.

Lemma dot_star_end_stripped (x : string) :
  Parse.dot_star_end (rstrip x)
  = if all_chars Parse.not_newline (rstrip x) then Some (rstrip x) else None.
Proof.
  unfold Parse.dot_star_end.
  destruct (all_chars Parse.not_newline (rstrip x)) eqn:Hall.
  - rewrite (span_all _ _ Hall). reflexivity.
  - destruct (Parse.span Parse.not_newline (rstrip x)) as [g rest] eqn:Hs.
    destruct (span_spec _ _ _ _ Hs) as (Heq & Hg & Hrest).
    destruct rest as [|c rest].
    + rewrite append_empty_r in Heq. congruence.
    + simpl. destruct rest as [|c' rest]; [|destruct (Ascii.eqb c Suffix.newline); reflexivity].
      unfold Parse.not_newline in Hrest. rewrite negb_involutive in Hrest.
      apply Ascii.eqb_eq in Hrest. subst c.
      pose proof (rstrip_last x g Suffix.newline Heq) as Hsp. discriminate Hsp.
Qed.

(** A name without quotation marks is the first run of characters that are
    not white space, and the remainder is the stripped rest of the text;
    but when that rest holds a newline, apart from the white space at its
    ends, nothing is parsed at all. *)
Theorem parse_quoted_name_unquoted (lead rest : string) (c : ascii) (t : string) :
  Parse.is_quote c = false ->
  all_chars is_space lead = true ->
  all_chars Parse.not_space (String c t) = true ->
  Parse.starts_blank rest = true ->
  Parse.parse_quoted_name (lead ++ String c t ++ rest)
  = if all_chars Parse.not_newline (strip rest)
    then (Some (String c t), strip rest) else (None, "").
Proof.
  intros Hq Hlead Htok Hrest.
  assert (Hc : is_space c = false).
  { simpl in Htok. apply andb_prop in Htok as [Hc _].
    apply negb_true_iff in Hc. exact Hc. }
  assert (Hstrip : strip (lead ++ String c t ++ rest) = String c (t ++ rstrip rest)).
  { unfold strip. rewrite (lstrip_app_blank lead _ Hlead).
    change (String c t ++ rest) with (String c (t ++ rest)).
    simpl lstrip. rewrite Hc.
    exact (rstrip_app_token (String c t) rest Htok). }
  unfold Parse.parse_quoted_name. rewrite Hstrip. lazy beta iota zeta.
  rewrite Hq. unfold Parse.re_match_token.
  change (String c (t ++ rstrip rest)) with (String c t ++ rstrip rest).
  rewrite (span_app Parse.not_space (String c t) (rstrip rest) Htok).
  - simpl nonempty. lazy beta iota zeta.
    rewrite lstrip_rstrip, dot_star_end_stripped.
    fold (strip rest).
    destruct (all_chars Parse.not_newline (strip rest)); [|reflexivity].
    rewrite strip_idempotent. reflexivity.
  - destruct (rstrip rest) as [|x r] eqn:Hr; [reflexivity|].
    destruct (rstrip_head rest x r Hr) as [s' ->].
    unfold Parse.not_space. rewrite negb_involutive. exact Hrest.
Qed.

Lemma parse_quoted_name_unquoted_witness :
  Parse.parse_quoted_name " Lamp1  light.desk  and more "
  = (Some "Lamp1", "light.desk  and more")
  /\ Parse.parse_quoted_name ("Lamp1 light.desk" ++ String Suffix.newline "more")
     = (None, "").
Proof.
  split.
  - apply (parse_quoted_name_unquoted " " "  light.desk  and more " "L"%char "amp1");
      reflexivity.
  - apply (parse_quoted_name_unquoted "" (" light.desk" ++ String Suffix.newline "more")
             "L"%char "amp1"); reflexivity.
Defined.

(** A text of white space only holds no name. *)
Lemma parse_quoted_name_blank (text : string) :
  all_chars is_space text = true -> Parse.parse_quoted_name text = (None, "").
Proof.
  intros Hblank. unfold Parse.parse_quoted_name.
  rewrite (strip_blank text Hblank). reflexivity.
Qed.

(** Whatever the text, a parsed name and the remainder carry no white space
    at their ends, and the remainder is empty when no name is parsed. *)
Theorem parse_quoted_name_stripped (text : string) :
  match Parse.parse_quoted_name text with
  | (Some name, remainder) => strip name = name /\ strip remainder = remainder
  | (None, remainder) => remainder = ""
  end.
Proof.
  unfold Parse.parse_quoted_name.
  destruct (strip text) as [|q body]; [reflexivity|]. lazy beta iota zeta.
  destruct (Parse.is_quote q).
  - destruct (Parse.split_at_char q body) as [[name after]|];
      rewrite ?strip_idempotent; auto.
  - unfold Parse.re_match_token.
    destruct (Parse.span Parse.not_space (String q body)) as [token r1] eqn:Hs.
    destruct (nonempty token); [|reflexivity].
    destruct (Parse.dot_star_end (lstrip r1)) as [g|]; [|reflexivity].
    destruct (span_spec _ _ _ _ Hs) as (_ & Htok & _).
    rewrite strip_idempotent, (strip_token token Htok). auto.
Qed.

(** *** [split_members] *)

Lemma append_assoc (a b c : string) : (a ++ b) ++ c = a ++ (b ++ c).
Proof.
  induction a as [|x a IH]; [reflexivity|].
  change (String x ((a ++ b) ++ c) = String x (a ++ (b ++ c))). f_equal. exact IH.
Qed.

Lemma token_sep_not_space_char (c : ascii) :
  Suffix.is_token_sep c = false -> Ascii.eqb c " "%char = false.
Proof.
  intros H. destruct (Ascii.eqb c " "%char) eqn:E; [|reflexivity].
  apply Ascii.eqb_eq in E. subst c. discriminate H.
Qed.

Lemma space_is_token_sep (c : ascii) :
  is_space c = true -> Suffix.is_token_sep c = true.
Proof. intros H. unfold Suffix.is_token_sep. rewrite H. apply orb_true_r. Qed.

(** The pipeline of [split_members] after the strip (collapse the runs of
    separators, split at the spaces, drop the empty pieces) yields the runs
    of characters between the separators. *)
Lemma split_collapse_tokens (s : string) :
  (forall cur,
      List.filter nonempty (Parse.split_on_go " "%char cur (Parse.collapse_go false s))
      = Parse.tokens_go cur s)
  /\ List.filter nonempty (Parse.split_on_go " "%char "" (Parse.collapse_go true s))
     = Parse.tokens_go "" s.
Proof.
  induction s as [|c s [IH1 IH2]]; simpl.
  - split; [intros cur|]; reflexivity.
  - destruct (Suffix.is_token_sep c) eqn:Hc.
    + split; [intros cur; simpl; rewrite IH2; reflexivity | exact IH2].
    + split; [intros cur|]; simpl;
        rewrite (token_sep_not_space_char c Hc); apply IH1.
Qed.

Lemma tokens_go_blank (s cur : string) :
  all_chars is_space s = true ->
  Parse.tokens_go cur s = Parse.tokens_go cur "".
Proof.
  revert cur. induction s as [|c s IH]; intros cur; simpl; [reflexivity|].
  intros H. apply andb_prop in H as [Hc Hs].
  rewrite (space_is_token_sep c Hc), (IH "" Hs). simpl.
  destruct (nonempty cur); reflexivity.
Qed.

Lemma tokens_go_lstrip (s : string) :
  Parse.tokens_go "" (lstrip s) = Parse.tokens_go "" s.
Proof.
  induction s as [|c s IH]; simpl; [reflexivity|].
  destruct (is_space c) eqn:Hc; [|reflexivity].
  rewrite (space_is_token_sep c Hc). exact IH.
Qed.

Lemma tokens_go_rstrip (s cur : string) :
  Parse.tokens_go cur (rstrip s) = Parse.tokens_go cur s.
Proof.
  revert cur. induction s as [|c s IH]; intros cur; [reflexivity|].
  destruct (rstrip s) as [|r rs] eqn:Hr.
  - pose proof (rstrip_empty_blank s Hr) as Hblank.
    simpl rstrip. rewrite Hr.
    destruct (is_space c) eqn:Hc.
    + simpl. rewrite (space_is_token_sep c Hc), (tokens_go_blank s "" Hblank).
      reflexivity.
    + simpl. destruct (Suffix.is_token_sep c);
        rewrite (tokens_go_blank s _ Hblank); reflexivity.
  - rewrite rstrip_cons_keep by (rewrite Hr; discriminate).
    rewrite Hr.
    change (Parse.tokens_go cur (String c (String r rs)))
      with (if Suffix.is_token_sep c
            then (if nonempty cur then cur :: Parse.tokens_go "" (String r rs)
                  else Parse.tokens_go "" (String r rs))
            else Parse.tokens_go (cur ++ String c "") (String r rs)).
    rewrite !IH. reflexivity.
Qed.

(** [split_members] returns the runs of characters between the separators. *)
Lemma split_members_tokens (text : string) :
  Parse.split_members text = Parse.tokens text.
Proof.
  unfold Parse.split_members, Parse.collapse_separators, Parse.split_space,
    Parse.split_on, Parse.tokens.
  rewrite (proj1 (split_collapse_tokens (strip text)) "").
  unfold strip. rewrite tokens_go_rstrip. apply tokens_go_lstrip.
Qed.

Lemma all_chars_app (p : ascii -> bool) (a b : string) :
  all_chars p (a ++ b) = all_chars p a && all_chars p b.
Proof.
  induction a as [|c a IH]; [reflexivity|].
  change (String c a ++ b) with (String c (a ++ b)).
  simpl. rewrite IH. apply andb_assoc.
Qed.

Lemma nonempty_snoc (a : string) (c : ascii) : nonempty (a ++ String c "") = true.
Proof. destruct a; reflexivity. Qed.

Lemma tokens_go_clean (s cur : string) :
  all_chars (fun c => negb (Suffix.is_token_sep c)) cur = true ->
  Forall (fun m => Parse.clean_member m = true) (Parse.tokens_go cur s).
Proof.
  revert cur. induction s as [|c s IH]; intros cur Hcur; simpl.
  - destruct (nonempty cur) eqn:Hne; constructor; [|constructor].
    unfold Parse.clean_member. rewrite Hne, Hcur. reflexivity.
  - destruct (Suffix.is_token_sep c) eqn:Hc.
    + destruct (nonempty cur) eqn:Hne; [constructor|]; try (apply IH; reflexivity).
      unfold Parse.clean_member. rewrite Hne, Hcur. reflexivity.
    + apply IH. rewrite all_chars_app, Hcur. simpl. rewrite Hc. reflexivity.
Qed.

(** Every member that [split_members] returns is non-empty and holds no
    comma and no white space, whatever the text. *)
Theorem split_members_clean (text : string) :
  Forall (fun m => Parse.clean_member m = true) (Parse.split_members text).
Proof. rewrite split_members_tokens. apply tokens_go_clean. reflexivity. Qed.

Lemma tokens_go_app_sep (a rest cur : string) (g : ascii) :
  Suffix.is_token_sep g = true ->
  Parse.tokens_go cur (a ++ String g rest)
  = (Parse.tokens_go cur a ++ Parse.tokens_go "" rest)%list.
Proof.
  intros Hg. revert cur. induction a as [|c a IH]; intros cur.
  - simpl. rewrite Hg. destruct (nonempty cur); reflexivity.
  - change (String c a ++ String g rest) with (String c (a ++ String g rest)).
    simpl. destruct (Suffix.is_token_sep c); [destruct (nonempty cur)|];
      rewrite IH; reflexivity.
Qed.

Lemma tokens_go_skip (glue rest : string) :
  all_chars Suffix.is_token_sep glue = true ->
  Parse.tokens_go "" (glue ++ rest) = Parse.tokens_go "" rest.
Proof.
  induction glue as [|g glue IH]; [reflexivity|].
  intros H. simpl in H. apply andb_prop in H as [Hg Hglue].
  change (String g glue ++ rest) with (String g (glue ++ rest)).
  simpl. rewrite Hg. exact (IH Hglue).
Qed.

Lemma tokens_go_member (m cur : string) :
  all_chars (fun c => negb (Suffix.is_token_sep c)) m = true ->
  Parse.tokens_go cur m = if nonempty (cur ++ m) then [cur ++ m] else [].
Proof.
  revert cur. induction m as [|c m IH]; intros cur Hm; simpl.
  - rewrite append_empty_r. reflexivity.
  - simpl in Hm. apply andb_prop in Hm as [Hc Hm]. apply negb_true_iff in Hc.
    rewrite Hc, (IH _ Hm), append_assoc. reflexivity.
Qed.

Lemma split_members_glue (a glue b : string) :
  nonempty glue = true ->
  all_chars Suffix.is_token_sep glue = true ->
  Parse.split_members (a ++ glue ++ b)
  = (Parse.split_members a ++ Parse.split_members b)%list.
Proof.
  intros Hne Hglue. rewrite !split_members_tokens. unfold Parse.tokens.
  destruct glue as [|g glue]; [discriminate|].
  simpl in Hglue. apply andb_prop in Hglue as [Hg Hglue].
  change (String g glue ++ b) with (String g (glue ++ b)).
  rewrite (tokens_go_app_sep a (glue ++ b) "" g Hg), (tokens_go_skip glue b Hglue).
  reflexivity.
Qed.

(** Two texts glued by a non-empty run of commas and white space give the
    members of the first followed by the members of the second. *)
Theorem split_members_app (a glue b : string) :
  nonempty glue = true ->
  all_chars Suffix.is_token_sep glue = true ->
  Parse.split_members (a ++ glue ++ b)
  = (Parse.split_members a ++ Parse.split_members b)%list.
Proof. exact (split_members_glue a glue b). Qed.

Lemma split_members_app_witness :
  Parse.split_members "light.a light.b ,  Desk,light.c"
  = ["light.a"; "light.b"; "Desk"; "light.c"].
Proof.
  exact (split_members_app "light.a light.b" " ,  " "Desk,light.c" eq_refl eq_refl).
Defined.

(** Members that are non-empty and hold no comma and no white space, joined
    by any non-empty run of commas and white space, are read back as they
    were. *)
Theorem split_members_join (glue : string) (members : list string) :
  nonempty glue = true ->
  all_chars Suffix.is_token_sep glue = true ->
  Forall (fun m => Parse.clean_member m = true) members ->
  Parse.split_members (join glue members) = members.
Proof.
  intros Hne Hglue Hms. induction Hms as [|m ms Hm Hms IH]; [reflexivity|].
  assert (Hone : Parse.split_members m = [m]).
  { rewrite split_members_tokens. unfold Parse.tokens.
    unfold Parse.clean_member in Hm. apply andb_prop in Hm as [Hn Hc].
    rewrite (tokens_go_member m "" Hc).
    change ("" ++ m) with m. rewrite Hn. reflexivity. }
  destruct ms as [|m' ms]; [exact Hone|].
  change (join glue (m :: m' :: ms)) with (m ++ glue ++ join glue (m' :: ms)).
  rewrite (split_members_glue m glue _ Hne Hglue), Hone, IH. reflexivity.
Qed.

Lemma split_members_join_witness :
  Parse.split_members (join ", " ["Kitchen"; "switch.fan1"; "light.lr1"])
  = ["Kitchen"; "switch.fan1"; "light.lr1"].
Proof.
  apply (split_members_join ", " ["Kitchen"; "switch.fan1"; "light.lr1"]);
    [reflexivity | reflexivity | repeat constructor].
Defined.

(** ** More on [normalize_name] *)

Lemma keep_app (p : ascii -> bool) (a b : string) :
  keep p (a ++ b) = keep p a ++ keep p b.
Proof.
  induction a as [|c a IH]; [reflexivity|].
  change (String c a ++ b) with (String c (a ++ b)).
  simpl. destruct (p c); rewrite IH; reflexivity.
Qed.

Lemma lower_app (a b : string) : lower (a ++ b) = lower a ++ lower b.
Proof.
  induction a as [|c a IH]; [reflexivity|].
  change (String c a ++ b) with (String c (a ++ b)).
  simpl. rewrite IH. reflexivity.
Qed.

Lemma lower_char_idempotent (c : ascii) : lower_char (lower_char c) = lower_char c.
Proof.
  destruct c as [b0 b1 b2 b3 b4 b5 b6 b7];
    destruct b0, b1, b2, b3, b4, b5, b6, b7; reflexivity.
Qed.

Lemma lower_idempotent (s : string) : lower (lower s) = lower s.
Proof.
  induction s as [|c s IH]; simpl; [reflexivity|].
  rewrite lower_char_idempotent, IH. reflexivity.
Qed.

(** [normalize_name] works character by character: the normalized form of a
    concatenation is the concatenation of the normalized forms, and the
    case of the letters does not matter. *)
Theorem normalize_name_app (a b : string) :
  normalize_name (a ++ b) = normalize_name a ++ normalize_name b
  /\ normalize_name (lower a) = normalize_name a.
Proof.
  unfold normalize_name. split.
  - rewrite lower_app. apply keep_app.
  - rewrite lower_idempotent. reflexivity.
Qed.

(** ** More on the lookups *)

Lemma last_named_none {V : Type} (n : string) (d : list (string * V)) :
  last_named n d = None <-> has_name n d = false.
Proof.
  induction d as [|[p v] d IH]; simpl; [tauto|].
  destruct (last_named n d) as [r|].
  - split; [discriminate|]. intros H. apply orb_false_elim in H as [_ H].
    apply IH in H. discriminate H.
  - destruct (String.eqb (normalize_name p) n); simpl.
    + split; discriminate.
    + tauto.
Qed.

(** After [rebuild_lookups_from_cfg], each lookup has an entry under a
    name exactly when that name is not empty and is the normalized form of
    a stored pretty name; the entry is then the last such stored entry. *)
Theorem rebuild_lookups_from_cfg_spec (w : World) (bot : HABot) (n : string) :
  let bot' := rebuild_lookups_from_cfg w bot in
  alias_lookup bot' !! n
  = (if nonempty n && has_name n (cfg_aliases w (cfg bot))
     then last_named n (cfg_aliases w (cfg bot)) else None)
  /\ group_lookup bot' !! n
     = (if nonempty n && has_name n (cfg_groups w (cfg bot))
        then option_map (fun '(pretty, v) => (pretty, members_list v))
                        (last_named n (cfg_groups w (cfg bot)))
        else None)
  /\ lookups_in_sync w bot'.
Proof.
  cbv zeta. split; [|split; [|split; reflexivity]].
  - simpl. rewrite alias_lookup_of_spec.
    destruct (nonempty n); [|reflexivity]. simpl.
    destruct (has_name n (cfg_aliases w (cfg bot))) eqn:Hh; [reflexivity|].
    apply last_named_none, Hh.
  - simpl. rewrite group_lookup_of_spec.
    destruct (nonempty n); [|reflexivity]. simpl.
    destruct (has_name n (cfg_groups w (cfg bot))) eqn:Hh.
    + destruct (last_named n (cfg_groups w (cfg bot))) as [[p v]|]; reflexivity.
    + apply last_named_none in Hh. rewrite Hh. reflexivity.
Qed.

(** ** The state a directory command leaves *)

Lemma update_aliases_spec (f : Aliases -> Aliases) (w : World) (c : Cfg) :
  let u := update_aliases f w c in
  cfg_aliases (fst u) (snd u) = f (cfg_aliases w c)
  /\ cfg_groups (fst u) (snd u) = cfg_groups w c
  /\ config_file (fst u) = config_file w
  /\ (owns_sections c ->
      owns_sections (snd u)
      /\ default_aliases (fst u) = default_aliases w
      /\ default_groups (fst u) = default_groups w).
Proof.
  unfold update_aliases, cfg_aliases, cfg_groups, owns_sections.
  destruct c as [[|a] [|g]]; simpl; repeat split; auto; contradiction.
Qed.

Lemma update_groups_spec (f : Groups -> Groups) (w : World) (c : Cfg) :
  let u := update_groups f w c in
  cfg_aliases (fst u) (snd u) = cfg_aliases w c
  /\ cfg_groups (fst u) (snd u) = f (cfg_groups w c)
  /\ config_file (fst u) = config_file w
  /\ (owns_sections c ->
      owns_sections (snd u)
      /\ default_aliases (fst u) = default_aliases w
      /\ default_groups (fst u) = default_groups w).
Proof.
  unfold update_groups, cfg_aliases, cfg_groups, owns_sections.
  destruct c as [[|a] [|g]]; simpl; repeat split; auto; contradiction.
Qed.

(** What the common tail of the directory commands (save, rebuild, reply)
    leaves, for the world and configuration [u] that the update produced. *)
Lemma command_tail (bot : HABot) (u : World * Cfg) (r : Reply) :
  let after :=
    (let '(w1, c1) := u in
     let '(w2, bot2) := save_and_rebuild w1 (with_cfg bot c1) in
     (w2, bot2, r)) in
  snd after = r
  /\ cfg (snd (fst after)) = snd u
  /\ cfg_aliases (fst (fst after)) (snd u) = cfg_aliases (fst u) (snd u)
  /\ cfg_groups (fst (fst after)) (snd u) = cfg_groups (fst u) (snd u)
  /\ default_aliases (fst (fst after)) = default_aliases (fst u)
  /\ default_groups (fst (fst after)) = default_groups (fst u)
  /\ file_in_sync (fst (fst after)) (snd (fst after))
  /\ lookups_in_sync (fst (fst after)) (snd (fst after))
  /\ entities (snd (fst after)) = entities bot
  /\ exact_index (snd (fst after)) = exact_index bot.
Proof. destruct u as [w1 c1]. repeat split. Qed.

(** ** Deleting aliases and groups *)

Lemma dict_del_app {V : Type} (k : string) (v : V) (pre d : list (string * V)) :
  Forall (fun entry => fst entry <> k) pre ->
  Dict.del k (pre ++ (k, v) :: d) = (pre ++ d)%list.
Proof.
  intros H. induction H as [|[k' v'] pre Hk _ IH]; simpl.
  - rewrite String.eqb_refl. reflexivity.
  - simpl in Hk. assert (E : String.eqb k k' = false).
    { apply String.eqb_neq. congruence. }
    rewrite E, IH. reflexivity.
Qed.

Lemma del_loop_spec {V : Type} (norm : string) (d pre : list (string * V))
    (deleted : bool) :
  Forall (fun entry => normalize_name (fst entry) <> norm) pre ->
  foldl (fun '(d', deleted) pretty =>
           if String.eqb (normalize_name pretty) norm
           then (Dict.del pretty d', true)
           else (d', deleted))
        ((pre ++ d)%list, deleted) (Dict.keys d)
  = ((pre ++ without_name norm d)%list, deleted || has_name norm d).
Proof.
  revert pre deleted. induction d as [|[k v] d IH]; intros pre deleted Hpre; simpl.
  - rewrite orb_false_r. reflexivity.
  - destruct (String.eqb (normalize_name k) norm) eqn:E; simpl.
    + rewrite dict_del_app.
      * rewrite (IH pre true Hpre). rewrite orb_true_r. reflexivity.
      * apply String.eqb_eq in E.
        eapply Forall_impl; [exact Hpre|]. intros [k' v'] Hk' Heq.
        simpl in *. subst k'. contradiction.
    + replace (pre ++ (k, v) :: d)%list with ((pre ++ [(k, v)]) ++ d)%list
        by (rewrite <- app_assoc; reflexivity).
      rewrite (IH (pre ++ [(k, v)])%list deleted).
      * rewrite <- app_assoc. reflexivity.
      * apply Forall_app. split; [exact Hpre|].
        constructor; [|constructor]. simpl. apply String.eqb_neq, E.
Qed.

(** The deletion loop removes every entry of the normalized name, keeps the
    others in their order, and tells whether it removed one. *)
Lemma del_matching_spec {V : Type} (norm : string) (d : list (string * V)) :
  del_matching norm d = (without_name norm d, has_name norm d).
Proof.
  unfold del_matching. apply (del_loop_spec norm d [] false). constructor.
Qed.

Lemma has_name_without {V : Type} (norm : string) (d : list (string * V)) :
  has_name norm (without_name norm d) = false.
Proof.
  induction d as [|[k v] d IH]; simpl; [reflexivity|].
  destruct (String.eqb (normalize_name k) norm) eqn:E; simpl; [exact IH|].
  rewrite E. exact IH.
Qed.

(** [!alias del] and [!group del] remove every stored spelling of the name,
    that is every entry of which the pretty name has the normalized form of
    the name given, and no other entry; the reply tells whether an entry
    was removed; afterwards the lookup has no entry for that name. *)
Theorem delete_removes_all_spellings (name : string) (w : World) (bot : HABot) :
  let norm := normalize_name name in
  let a := alias_del name w bot in
  let g := group_del name w bot in
  (cfg_aliases (fst (fst a)) (cfg (snd (fst a)))
   = without_name norm (cfg_aliases w (cfg bot))
   /\ cfg_groups (fst (fst a)) (cfg (snd (fst a))) = cfg_groups w (cfg bot)
   /\ snd a = (if has_name norm (cfg_aliases w (cfg bot))
               then AliasRemoved else AliasNotFound)
   /\ alias_lookup (snd (fst a)) !! norm = None)
  /\ (cfg_groups (fst (fst g)) (cfg (snd (fst g)))
      = without_name norm (cfg_groups w (cfg bot))
      /\ cfg_aliases (fst (fst g)) (cfg (snd (fst g))) = cfg_aliases w (cfg bot)
      /\ snd g = (if has_name norm (cfg_groups w (cfg bot))
                  then GroupRemoved else GroupNotFound)
      /\ group_lookup (snd (fst g)) !! norm = None).
Proof.
  cbv zeta. split.
  - unfold alias_del. rewrite del_matching_spec. cbn [snd].
    destruct (update_aliases_spec
                (fun d => fst (del_matching (normalize_name name) d)) w (cfg bot))
      as (Ha & Hg & _).
    rewrite del_matching_spec in Ha. cbn [fst] in Ha.
    match goal with |- context [let '(w1, c1) := ?u in _] =>
      destruct (command_tail bot u
                  (if has_name (normalize_name name) (cfg_aliases w (cfg bot))
                   then AliasRemoved else AliasNotFound))
        as (Hr & Hc & Ha' & Hg' & _ & _ & _ & [Hl _] & _)
    end.
    rewrite Hc in *. rewrite Ha in Ha'. rewrite Hg in Hg'.
    repeat split; try assumption.
    rewrite Hl, Ha', alias_lookup_of_spec.
    destruct (nonempty (normalize_name name)); [|reflexivity].
    apply last_named_none, has_name_without.
  - unfold group_del. rewrite del_matching_spec. cbn [snd].
    destruct (update_groups_spec
                (fun d => fst (del_matching (normalize_name name) d)) w (cfg bot))
      as (Ha & Hg & _).
    rewrite del_matching_spec in Hg. cbn [fst] in Hg.
    match goal with |- context [let '(w1, c1) := ?u in _] =>
      destruct (command_tail bot u
                  (if has_name (normalize_name name) (cfg_groups w (cfg bot))
                   then GroupRemoved else GroupNotFound))
        as (Hr & Hc & Ha' & Hg' & _ & _ & _ & [_ Hl] & _)
    end.
    rewrite Hc in *. rewrite Ha in Ha'. rewrite Hg in Hg'.
    repeat split; try assumption.
    rewrite Hl, Hg', group_lookup_of_spec.
    destruct (nonempty (normalize_name name)); [|reflexivity].
    rewrite (proj2 (last_named_none _ _) (has_name_without _ _)). reflexivity.
Qed.

(** ** Adding an alias and using it *)

Lemma has_name_true {V : Type} (n : string) (d : list (string * V)) :
  has_name n d = true -> exists k, In k (Dict.keys d) /\ normalize_name k = n.
Proof.
  induction d as [|[k v] d IH]; simpl; [discriminate|].
  intros H. apply orb_prop in H as [H | H].
  - exists k. split; [left; reflexivity | apply String.eqb_eq, H].
  - destruct (IH H) as (k' & Hin & Hn). exists k'. auto.
Qed.

Lemma has_name_false {V : Type} (n : string) (d : list (string * V)) (k : string) :
  has_name n d = false -> In k (Dict.keys d) -> normalize_name k <> n.
Proof.
  unfold Dict.keys. induction d as [|[k' v] d IH]; simpl; [contradiction|].
  intros H Hin. apply orb_false_elim in H as [Hk Hd].
  destruct Hin as [<- | Hin]; [apply String.eqb_neq, Hk | exact (IH Hd Hin)].
Qed.

Lemma last_named_set {V : Type} (name : string) (v : V) (d : list (string * V)) :
  List.NoDup (Dict.keys d) ->
  (forall k, In k (Dict.keys d) -> normalize_name k = normalize_name name -> k = name) ->
  last_named (normalize_name name) (Dict.set name v d) = Some (name, v).
Proof.
  induction d as [|[k x] d IH]; intros Hnd Huniq; simpl.
  - rewrite String.eqb_refl. reflexivity.
  - inversion Hnd as [|? ? Hk Hnd']; subst.
    destruct (String.eqb name k) eqn:E; simpl.
    + apply String.eqb_eq in E. subst k.
      destruct (has_name (normalize_name name) d) eqn:Hh.
      * exfalso. destruct (has_name_true _ _ Hh) as (k' & Hin & Hn).
        apply Hk. rewrite <- (Huniq k' (or_intror Hin) Hn). exact Hin.
      * rewrite (proj2 (last_named_none _ _) Hh), String.eqb_refl. reflexivity.
    + rewrite IH; [reflexivity | exact Hnd' |].
      intros k' Hin Hn. apply Huniq; [right; exact Hin | exact Hn].
Qed.

(** An alias written by [!alias add] is found when a phrase of its
    normalized name is resolved, provided that the normalized name is not
    empty, that no other spelling of it is stored as an alias, and that no
    group has that normalized name. *)
Theorem alias_add_then_resolve (name eid phrase : string) (w : World) (bot : HABot) :
  nonempty (normalize_name name) = true ->
  normalize_name phrase = normalize_name name ->
  List.NoDup (Dict.keys (cfg_aliases w (cfg bot))) ->
  (forall k, In k (Dict.keys (cfg_aliases w (cfg bot))) ->
             normalize_name k = normalize_name name -> k = name) ->
  has_name (normalize_name name) (cfg_groups w (cfg bot)) = false ->
  resolve_single_target (snd (fst (alias_add name eid w bot))) phrase = ([eid], []).
Proof.
  intros Hne Hphrase Hnd Huniq Hgroups.
  unfold alias_add.
  destruct (update_aliases_spec (Dict.set name eid) w (cfg bot)) as (Ha & Hg & _).
  match goal with |- context [let '(w1, c1) := ?u in _] =>
    destruct (command_tail bot u (AliasSaved name eid))
      as (_ & Hc & Ha' & Hg' & _ & _ & _ & [Hla Hlg] & _)
  end.
  rewrite Hc in *. rewrite Ha in Ha'. rewrite Hg in Hg'.
  unfold resolve_single_target. rewrite Hphrase, Hlg, Hg', Hla, Ha'.
  rewrite group_lookup_of_spec, alias_lookup_of_spec, Hne.
  rewrite (proj2 (last_named_none _ _) Hgroups).
  rewrite (last_named_set name eid _ Hnd Huniq). reflexivity.
Qed.

Lemma alias_add_then_resolve_witness :
  resolve_single_target
    (snd (fst (alias_add "Kitchen Light" "light.kitchen" Sample.lamp_world Sample.lamp_bot)))
    "kitchen-light"
  = (["light.kitchen"], []).
Proof.
  apply alias_add_then_resolve; try reflexivity.
  - repeat constructor. intros [].
  - intros k [<- | []] H. vm_compute in H. discriminate H.
Defined.

(** ** Writing groups *)

Lemma dict_set_keys_in {V : Type} (k : string) (v : V) (d : list (string * V)) :
  In k (Dict.keys d) -> Dict.keys (Dict.set k v d) = Dict.keys d.
Proof.
  induction d as [|[k' v'] d IH]; simpl; [contradiction|].
  intros Hin. destruct (String.eqb k k') eqn:E; [reflexivity|].
  simpl. f_equal. apply IH. destruct Hin as [Heq | Hin]; [|exact Hin].
  apply String.eqb_neq in E. congruence.
Qed.

Lemma dict_set_keys_new {V : Type} (k : string) (v : V) (d : list (string * V)) :
  ~ In k (Dict.keys d) -> Dict.keys (Dict.set k v d) = (Dict.keys d ++ [k])%list.
Proof.
  induction d as [|[k' v'] d IH]; simpl; [reflexivity|].
  intros Hin. destruct (String.eqb k k') eqn:E.
  - apply String.eqb_eq in E. exfalso. apply Hin. left. congruence.
  - simpl. f_equal. apply IH. tauto.
Qed.




Lemma existing_key_some {V : Type} (n : string) (d : list (string * V)) (k : string) :
  existing_key n d = Some k -> In k (Dict.keys d) /\ normalize_name k = n.
Proof.
  unfold existing_key. intros H. apply List.find_some in H as [Hin Hk].
  split; [exact Hin | apply String.eqb_eq, Hk].
Qed.

Lemma existing_key_none {V : Type} (n : string) (d : list (string * V)) :
  existing_key n d = None -> has_name n d = false.
Proof.
  unfold existing_key, Dict.keys.
  induction d as [|[k v] d IH]; simpl; [reflexivity|].
  destruct (String.eqb (normalize_name k) n); [discriminate | exact IH].
Qed.

(** The key that [!group set] and [!group add] write to has the normalized
    form of the name, and is a stored key or else a key of a new
    normalized name. *)
Lemma group_key_spec (name : string) (d : Groups) :
  ~ In "" (Dict.keys d) ->
  normalize_name (group_key name d) = normalize_name name
  /\ (In (group_key name d) (Dict.keys d)
      \/ (group_key name d = name /\ has_name (normalize_name name) d = false)).
Proof.
  intros Hempty. unfold group_key.
  destruct (existing_key (normalize_name name) d) as [k|] eqn:Hk; simpl.
  - destruct (existing_key_some _ _ _ Hk) as [Hin Hn].
    destruct k as [|c k]; [contradiction|]. simpl. auto.
  - split; [reflexivity|]. right. split; [reflexivity|].
    exact (existing_key_none _ _ Hk).
Qed.

Lemma unique_names_set (name : string) (v : GroupValue) (d : Groups) :
  nonempty name = true ->
  ~ In "" (Dict.keys d) ->
  unique_names d ->
  unique_names (Dict.set (group_key name d) v d)
  /\ ~ In "" (Dict.keys (Dict.set (group_key name d) v d)).
Proof.
  intros Hname Hempty Huniq. unfold unique_names in *.
  destruct (group_key_spec name d Hempty) as [Hn [Hin | [Hkey Hnone]]].
  - rewrite (dict_set_keys_in _ v d Hin). auto.
  - rewrite Hkey.
    assert (Hnew : ~ In name (Dict.keys d)).
    { intros Hin. exact (has_name_false _ _ _ Hnone Hin eq_refl). }
    rewrite (dict_set_keys_new name v d Hnew). split.
    + rewrite map_app. simpl.
      apply List.NoDup_app; [exact Huniq | repeat constructor; intros [] |].
      intros n Hn' [<- | []].
      apply List.in_map_iff in Hn' as (k & Hk & Hin).
      exact (has_name_false _ _ _ Hnone Hin Hk).
    + rewrite List.in_app_iff. intros [H | [H | []]]; [tauto|].
      subst name. discriminate Hname.
Qed.

Lemma group_write_unique (set_mode : bool) (name : string)
    (members : list string) (d d' : Groups) :
  nonempty name = true ->
  ~ In "" (Dict.keys d) ->
  unique_names d ->
  group_write set_mode name members d = Some d' ->
  unique_names d' /\ ~ In "" (Dict.keys d').
Proof.
  intros Hname Hempty Huniq. unfold group_write. fold (group_key name d).
  destruct set_mode.
  - intros H. injection H as <-. apply unique_names_set; assumption.
  - destruct (Dict.get (group_key name d) d) as [[cur|x]|];
      [| discriminate |]; intros H; injection H as <-;
      apply unique_names_set; assumption.
Qed.

(** [!group set] and [!group add] keep the groups unique by normalized
    name, and never store a group under the empty key. *)
Theorem group_write_keeps_unique (set_mode : bool) (name : string)
    (members : list string) (d d' : Groups) :
  nonempty name = true ->
  ~ In "" (Dict.keys d) ->
  unique_names d ->
  group_write set_mode name members d = Some d' ->
  unique_names d' /\ ~ In "" (Dict.keys d').
Proof. exact (group_write_unique set_mode name members d d'). Qed.

Lemma group_write_keeps_unique_witness :
  unique_names [("Office", Members ["Desk Lamp"]); ("OFFICE 2", Members ["light.b"])]
  /\ group_write false "office" ["light.a"] [("Office", Members ["Desk Lamp"])]
     = Some [("Office", Members ["Desk Lamp"; "light.a"])].
Proof.
  split; [|reflexivity].
  apply (group_write_keeps_unique true "OFFICE 2" ["light.b"]
           [("Office", Members ["Desk Lamp"])]).
  - reflexivity.
  - simpl. intros [H | []]. discriminate H.
  - repeat constructor. simpl. tauto.
  - reflexivity.
Defined.






(** ** The message handler *)

Lemma step_ok_refl (w : World) (bot : HABot) : step_ok w bot w bot.
Proof. unfold step_ok. tauto. Qed.

(** A directory command, whatever its update [u] of the configuration,
    ends with lookups and file in line with the configuration. *)
Lemma step_ok_command (w : World) (bot : HABot) (u : World * Cfg) (r : Reply) :
  (owns_sections (cfg bot) ->
   owns_sections (snd u)
   /\ default_aliases (fst u) = default_aliases w
   /\ default_groups (fst u) = default_groups w) ->
  let after :=
    (let '(w1, c1) := u in
     let '(w2, bot2) := save_and_rebuild w1 (with_cfg bot c1) in
     (w2, bot2, r)) in
  step_ok w bot (fst (fst after)) (snd (fst after))
  /\ entities (snd (fst after)) = entities bot
  /\ exact_index (snd (fst after)) = exact_index bot.
Proof.
  intros Hown after.
  destruct (command_tail bot u r)
    as (_ & Hc & _ & _ & Hda & Hdg & Hfile & Hlook & He & Hx).
  fold after in Hc, Hda, Hdg, Hfile, Hlook, He, Hx.
  split; [|split; assumption].
  unfold step_ok. split; [intros _; exact Hlook|]. split; [intros _; exact Hfile|].
  intros Ho. destruct (Hown Ho) as (Ho' & Ha & Hg).
  rewrite Hc, Hda, Hdg. auto.
Qed.

Lemma alias_add_step (name eid : string) (w : World) (bot : HABot) :
  let after := alias_add name eid w bot in
  step_ok w bot (fst (fst after)) (snd (fst after))
  /\ entities (snd (fst after)) = entities bot
  /\ exact_index (snd (fst after)) = exact_index bot.
Proof.
  unfold alias_add. apply step_ok_command.
  apply (update_aliases_spec (Dict.set name eid) w (cfg bot)).
Qed.

Lemma alias_del_step (name : string) (w : World) (bot : HABot) :
  let after := alias_del name w bot in
  step_ok w bot (fst (fst after)) (snd (fst after))
  /\ entities (snd (fst after)) = entities bot
  /\ exact_index (snd (fst after)) = exact_index bot.
Proof.
  unfold alias_del. apply step_ok_command.
  apply (update_aliases_spec
           (fun d => fst (del_matching (normalize_name name) d)) w (cfg bot)).
Qed.

Lemma group_del_step (name : string) (w : World) (bot : HABot) :
  let after := group_del name w bot in
  step_ok w bot (fst (fst after)) (snd (fst after))
  /\ entities (snd (fst after)) = entities bot
  /\ exact_index (snd (fst after)) = exact_index bot.
Proof.
  unfold group_del. apply step_ok_command.
  apply (update_groups_spec
           (fun d => fst (del_matching (normalize_name name) d)) w (cfg bot)).
Qed.

Lemma group_set_or_add_step (set_mode : bool) (name : string) (members : list string)
    (w : World) (bot : HABot) (after : World * HABot * Reply) :
  group_set_or_add set_mode name members w bot = Some after ->
  step_ok w bot (fst (fst after)) (snd (fst after))
  /\ entities (snd (fst after)) = entities bot
  /\ exact_index (snd (fst after)) = exact_index bot.
Proof.
  unfold group_set_or_add.
  destruct (group_write set_mode name members (cfg_groups w (cfg bot))) as [d'|];
    [|discriminate].
  intros Hcmd.
  assert (Hafter : after
                   = (let '(w1, c1) := update_groups (fun _ => d') w (cfg bot) in
                      let '(w2, bot2) := save_and_rebuild w1 (with_cfg bot c1) in
                      (w2, bot2, GroupSaved name set_mode (List.length members)))).
  { destruct (update_groups (fun _ => d') w (cfg bot)) as [w1 c1].
    destruct (save_and_rebuild w1 (with_cfg bot c1)) as [w2 bot2].
    injection Hcmd as <-. reflexivity. }
  rewrite Hafter. apply step_ok_command.
  apply (update_groups_spec (fun _ => d') w (cfg bot)).
Qed.

Lemma admin_state (after : World * HABot * Reply) : fst (admin after) = fst after.
Proof. destruct after as [[w bot] r]. reflexivity. Qed.

Lemma handle_alias_command_shape (content : string) (w : World) (bot : HABot) :
  step_shape w bot (handle_alias_command content w bot).
Proof.
  unfold handle_alias_command.
  set (tail := strip (Parse.drop_chars 6 (strip content))).
  destruct (negb (nonempty tail) || String.eqb tail "list").
  { destruct (cfg_aliases w (cfg bot)); left; left; split; reflexivity. }
  destruct (startswith "add" tail).
  { destruct (Parse.parse_quoted_name (Parse.drop_chars 3 tail)) as [name rest].
    destruct (Parse.name_given name) as [n|]; [|left; left; split; reflexivity].
    destruct (nonempty rest); [|left; left; split; reflexivity].
    right. left. unfold step_shape. rewrite admin_state.
    split; [|apply alias_add_step].
    unfold alias_add.
    destruct (update_aliases (Dict.set n (Parse.first_token rest)) w (cfg bot)) as [w1 c1].
    destruct (save_and_rebuild w1 (with_cfg bot c1)) as [w2 bot2]. reflexivity. }
  destruct (startswith "del" tail).
  { destruct (Parse.parse_quoted_name (Parse.drop_chars 3 tail)) as [name rest].
    destruct (Parse.name_given name) as [n|]; [|left; left; split; reflexivity].
    right. left. unfold step_shape. rewrite admin_state.
    split; [|apply alias_del_step].
    unfold alias_del.
    destruct (update_aliases _ w (cfg bot)) as [w1 c1].
    destruct (save_and_rebuild w1 (with_cfg bot c1)) as [w2 bot2].
    simpl. destruct (snd (del_matching (normalize_name n) (cfg_aliases w (cfg bot))));
      reflexivity. }
  left; left; split; reflexivity.
Qed.

Lemma handle_group_command_shape (content : string) (w : World) (bot : HABot) :
  step_shape w bot (handle_group_command content w bot).
Proof.
  unfold handle_group_command.
  set (tail := strip (Parse.drop_chars 6 (strip content))).
  destruct (negb (nonempty tail) || String.eqb tail "list").
  { destruct (cfg_groups w (cfg bot)); left; left; split; reflexivity. }
  destruct (startswith "show" tail).
  { destruct (Parse.parse_quoted_name (Parse.drop_chars 4 tail)) as [name rest].
    destruct (Parse.name_given name) as [n|]; [|left; left; split; reflexivity].
    destruct (find_group (normalize_name n) (cfg_groups w (cfg bot))) as [[p v]|];
      [left; left; split; reflexivity | left; right; split; reflexivity]. }
  destruct (startswith "set" tail || startswith "add" tail).
  { destruct (Parse.parse_quoted_name (Parse.drop_chars 3 tail)) as [name rest].
    destruct (Parse.name_given name) as [n|]; [|left; left; split; reflexivity].
    destruct (Parse.split_members rest) as [|m ms]; [left; left; split; reflexivity|].
    destruct (group_set_or_add (startswith "set" tail) n (m :: ms) w bot)
      as [after|] eqn:Hcmd; [|left; left; split; reflexivity].
    right. left. unfold step_shape. rewrite admin_state.
    split; [|exact (group_set_or_add_step _ _ _ _ _ _ Hcmd)].
    unfold group_set_or_add in Hcmd.
    destruct (group_write _ n (m :: ms) (cfg_groups w (cfg bot))) as [d'|];
      [|discriminate].
    destruct (update_groups (fun _ => d') w (cfg bot)) as [w1 c1].
    destruct (save_and_rebuild w1 (with_cfg bot c1)) as [w2 bot2].
    injection Hcmd as <-. reflexivity. }
  destruct (startswith "del" tail).
  { destruct (Parse.parse_quoted_name (Parse.drop_chars 3 tail)) as [name rest].
    destruct (Parse.name_given name) as [n|]; [|left; left; split; reflexivity].
    right. left. unfold step_shape. rewrite admin_state.
    split; [|apply group_del_step].
    unfold group_del.
    destruct (update_groups _ w (cfg bot)) as [w1 c1].
    destruct (save_and_rebuild w1 (with_cfg bot c1)) as [w2 bot2].
    simpl. destruct (snd (del_matching (normalize_name n) (cfg_groups w (cfg bot))));
      reflexivity. }
  left; left; split; reflexivity.
Qed.

Lemma on_message_shape (allowed : gset string)
    (send_webhook : string -> string -> string -> nat)
    (states : option (list Item)) (m : Message) (w : World) (bot : HABot) :
  step_shape w bot (on_message allowed send_webhook states m w bot).
Proof.
  unfold on_message.
  destruct (author_is_bot m); [left; left; split; reflexivity|].
  destruct (negb (channel_id m =? COMMANDS_CHANNEL_ID)%N);
    [left; left; split; reflexivity|].
  destruct (startswith "!alias " (lower (strip (content m)))
            || String.eqb (lower (strip (content m))) "!alias").
  { destruct (negb (_is_authorized allowed m));
      [left; left; split; reflexivity | apply handle_alias_command_shape]. }
  destruct (startswith "!group " (lower (strip (content m)))
            || String.eqb (lower (strip (content m))) "!group").
  { destruct (negb (_is_authorized allowed m));
      [left; left; split; reflexivity | apply handle_group_command_shape]. }
  destruct (String.eqb (lower (strip (content m))) "!reload").
  { destruct (negb (_is_authorized allowed m)); [left; left; split; reflexivity|].
    destruct states as [data|]; [|left; left; split; reflexivity].
    right. right. repeat split. }
  destruct (re_match_turn (lower (strip (content m)))) as [[action target]|];
    left; left; split; reflexivity.
Qed.


(** Every message leaves the lookups in line with the configuration and
    the file in line with the configuration, if they were before. *)
Theorem on_message_keeps_sync (allowed : gset string)
    (send_webhook : string -> string -> string -> nat)
    (states : option (list Item)) (m : Message) (w : World) (bot : HABot) :
  lookups_in_sync w bot ->
  file_in_sync w bot ->
  let after := on_message allowed send_webhook states m w bot in
  lookups_in_sync (fst (fst after)) (snd (fst after))
  /\ file_in_sync (fst (fst after)) (snd (fst after)).
Proof.
  intros Hl Hf. cbv zeta.
  destruct (on_message_shape allowed send_webhook states m w bot)
    as [[[Hsame _] | [_ Hsame]] | [(_ & (Hl' & Hf' & _) & _) | (_ & Hw & Hc & Ha & Hg)]].
  - rewrite Hsame. auto.
  - rewrite Hsame. auto.
  - auto.
  - unfold lookups_in_sync, file_in_sync in *. rewrite Hw, Hc, Ha, Hg. auto.
Qed.

(** A configuration with sections of its own, as [load_config] returns for
    a file that holds a dict, keeps sections of its own through every
    message, and the dicts of [DEFAULT_CONFIG] are never written. *)
Theorem on_message_keeps_defaults (allowed : gset string)
    (send_webhook : string -> string -> string -> nat)
    (states : option (list Item)) (m : Message) (w : World) (bot : HABot) :
  owns_sections (cfg bot) ->
  let after := on_message allowed send_webhook states m w bot in
  owns_sections (cfg (snd (fst after)))
  /\ default_aliases (fst (fst after)) = default_aliases w
  /\ default_groups (fst (fst after)) = default_groups w.
Proof.
  intros Ho. cbv zeta.
  destruct (on_message_shape allowed send_webhook states m w bot)
    as [[[Hsame _] | [_ Hsame]] | [(_ & (_ & _ & Hd) & _) | (_ & Hw & Hc & _)]].
  - rewrite Hsame. auto.
  - rewrite Hsame. auto.
  - auto.
  - rewrite Hw, Hc. auto.
Qed.

(** An author who is not authorized never changes the state, whatever the
    message: an admin command is denied.  The turn on/off commands are
    open to every author of the channel. *)
Theorem on_message_unauthorized (allowed : gset string)
    (send_webhook : string -> string -> string -> nat)
    (states : option (list Item)) (m : Message) (w : World) (bot : HABot) :
  _is_authorized allowed m = false ->
  let after := on_message allowed send_webhook states m w bot in
  fst after = (w, bot)
  /\ match snd after with
     | NoReply | DeniedAliases | DeniedGroups | DeniedReload | Report _ => True
     | _ => False
     end.
Proof.
  intros Hauth. cbv zeta. unfold on_message. rewrite Hauth. simpl negb.
  destruct (author_is_bot m); [simpl; auto|].
  destruct (negb (channel_id m =? COMMANDS_CHANNEL_ID)%N); [simpl; auto|].
  destruct (startswith "!alias " (lower (strip (content m)))
            || String.eqb (lower (strip (content m))) "!alias"); [simpl; auto|].
  destruct (startswith "!group " (lower (strip (content m)))
            || String.eqb (lower (strip (content m))) "!group"); [simpl; auto|].
  destruct (String.eqb (lower (strip (content m))) "!reload"); [simpl; auto|].
  destruct (re_match_turn (lower (strip (content m)))) as [[action target]|];
    simpl; auto.
Qed.

Lemma on_message_keeps_sync_witness :
  cfg_aliases (fst (fst (Chat.after "" "!alias add 'Hall Lamp' light.hall extra")))
              (cfg (snd (fst (Chat.after "" "!alias add 'Hall Lamp' light.hall extra"))))
  = [("Desk Lamp", "light.desk"); ("Hall Lamp", "light.hall")]
  /\ lookups_in_sync (fst (fst (Chat.after "" "!alias add 'Hall Lamp' light.hall extra")))
                     (snd (fst (Chat.after "" "!alias add 'Hall Lamp' light.hall extra")))
  /\ file_in_sync (fst (fst (Chat.after "" "!alias add 'Hall Lamp' light.hall extra")))
                  (snd (fst (Chat.after "" "!alias add 'Hall Lamp' light.hall extra"))).
Proof.
  split; [vm_compute; reflexivity|].
  apply (on_message_keeps_sync (allowed_user_ids "") Chat.webhook_ok None
           (Chat.says "!alias add 'Hall Lamp' light.hall extra")
           Sample.lamp_world Sample.lamp_bot).
  - split; reflexivity.
  - reflexivity.
Defined.

Lemma on_message_keeps_defaults_witness :
  default_aliases (fst (fst (Chat.after "42" "!group add Office light.b,light.c"))) = []
  /\ cfg_groups (fst (fst (Chat.after "42" "!group add Office light.b,light.c")))
                (cfg (snd (fst (Chat.after "42" "!group add Office light.b,light.c"))))
     = [("Office", Members ["Desk Lamp"; "light.b"; "light.c"])].
Proof.
  split; [|vm_compute; reflexivity].
  apply (on_message_keeps_defaults (allowed_user_ids "42") Chat.webhook_ok None
           (Chat.says "!group add Office light.b,light.c")
           Sample.lamp_world Sample.lamp_bot I).
Defined.

Lemma on_message_unauthorized_witness :
  _is_authorized (allowed_user_ids " 7 , 8,") (Chat.says "!alias del 'Desk Lamp'") = false
  /\ Chat.after " 7 , 8," "!alias del 'Desk Lamp'"
     = (Sample.lamp_world, Sample.lamp_bot, DeniedAliases).
Proof.
  assert (Hauth : _is_authorized (allowed_user_ids " 7 , 8,")
                    (Chat.says "!alias del 'Desk Lamp'") = false)
    by (vm_compute; reflexivity).
  split; [exact Hauth|].
  destruct (on_message_unauthorized (allowed_user_ids " 7 , 8,") Chat.webhook_ok None
              (Chat.says "!alias del 'Desk Lamp'") Sample.lamp_world Sample.lamp_bot Hauth)
    as [Hstate _].
  unfold Chat.after.
  destruct (on_message _ _ _ _ _ _) as [st out] eqn:E. simpl in Hstate. subst st.
  f_equal. change out with (snd (Sample.lamp_world, Sample.lamp_bot, out)).
  rewrite <- E. vm_compute. reflexivity.
Defined.

(** ** More on the resolver *)

(** No id is returned twice for a phrase, so no entity gets two commands
    for one phrase. *)
Theorem resolve_single_target_no_duplicates (bot : HABot) (phrase : string) :
  List.NoDup (fst (resolve_single_target bot phrase)).
Proof.
  unfold resolve_single_target.
  destruct (group_lookup bot !! normalize_name phrase) as [[gp ms]|].
  - simpl. unfold group_expansion. rewrite fromkeys_dedup_first.
    apply dedup_first_NoDup.
  - destruct (alias_lookup bot !! normalize_name phrase) as [[ap ent]|].
    + simpl. repeat constructor. intros [].
    + destruct (_resolve_against_ha bot phrase) as [[e|] c]; simpl.
      * destruct (nonempty e); repeat constructor. intros [].
      * constructor.
Qed.

Lemma filter_sub (p : Entity -> bool) (l : list Entity) (e : Entity) :
  In e (List.filter p l) -> In e l.
Proof. intros H. apply List.filter_In in H as [H _]. exact H. Qed.

Lemma token_pass_sound (bot : HABot) (name : string) (cands : list Entity)
    (r : option string) (c : list Entity) :
  (forall e, In e cands -> In e (entities bot)) ->
  token_pass bot name cands = (r, c) ->
  (forall e, In e c -> In e (entities bot))
  /\ (forall id, r = Some id -> exists e, c = [e] /\ entity_id e = id).
Proof.
  intros Hc. unfold token_pass.
  destruct cands as [|c0 cs].
  - destruct (tokens_of name) as [|t ts].
    + intros H. injection H as <- <-. split; [auto | discriminate].
    + destruct (List.filter (token_match (t :: ts)) (entities bot))
        as [|e [|e' es]] eqn:Hf; intros H; injection H as <- <-.
      * split; [auto | discriminate].
      * split.
        -- intros x Hx. rewrite <- Hf in Hx. exact (filter_sub _ _ _ Hx).
        -- intros id Hid. injection Hid as <-. eauto.
      * split; [|discriminate].
        intros x Hx. rewrite <- Hf in Hx. exact (filter_sub _ _ _ Hx).
  - intros H. injection H as <- <-. split; [exact Hc | discriminate].
Qed.

Lemma resolve_against_ha_ids (bot : HABot) (name : string) :
  let r := _resolve_against_ha bot name in
  (forall e, In e (snd r) -> In e (entities bot))
  /\ (forall id, fst r = Some id ->
        (exact_index bot !! normalize_name name = Some id /\ snd r = [])
        \/ (exists e, snd r = [e] /\ entity_id e = id))
  /\ (normalize_name name = "" -> r = (None, [])).
Proof.
  cbv zeta. unfold _resolve_against_ha.
  destruct (nonempty (normalize_name name)) eqn:Hne; simpl.
  2:{ split; [intros e []|]. split; [discriminate | reflexivity]. }
  assert (Hnot : normalize_name name = "" -> False).
  { intros H. rewrite H in Hne. discriminate Hne. }
  destruct (exact_index bot !! normalize_name name) as [eid|] eqn:Hex.
  - simpl. split; [intros e []|]. split; [|tauto].
    intros id H. injection H as <-. left. auto.
  - set (cands := List.filter (contains_match (normalize_name name)) (entities bot)).
    assert (Hsub : forall e, In e cands -> In e (entities bot))
      by (intros e He; exact (filter_sub _ _ _ He)).
    assert (Htok : forall cs, (forall e, In e cs -> In e (entities bot)) ->
              (forall e, In e (snd (token_pass bot name cs)) -> In e (entities bot))
              /\ (forall id, fst (token_pass bot name cs) = Some id ->
                    (None = Some id /\ snd (token_pass bot name cs) = [])
                    \/ (exists e, snd (token_pass bot name cs) = [e] /\ entity_id e = id))
              /\ (normalize_name name = "" -> token_pass bot name cs = (None, []))).
    { intros cs Hcs. destruct (token_pass bot name cs) as [r c] eqn:Ht.
      destruct (token_pass_sound bot name cs r c Hcs Ht) as [H1 H2].
      simpl. split; [exact H1|]. split; [|tauto].
      intros id Hid. right. exact (H2 id Hid). }
    destruct cands as [|c0 cs] eqn:Hc; [apply Htok; intros e []|].
    destruct (List.filter is_preferred (c0 :: cs)) as [|p1 [|p2 ps]] eqn:Hp.
    + apply Htok. exact Hsub.
    + simpl. split; [|split; [|tauto]].
      * intros e [<- | []]. apply Hsub. apply (filter_sub is_preferred).
        rewrite Hp. left. reflexivity.
      * intros id H. injection H as <-. right. eauto.
    + apply Htok. intros e He. apply Hsub. apply (filter_sub is_preferred).
      rewrite Hp. exact He.
Qed.

(** The catalog pass never invents anything: every candidate is an entity
    of the catalog, an exact hit has no candidates, and a match that comes
    with candidates is the id of the single candidate. *)
Theorem resolve_against_ha_sound (bot : HABot) (name : string) :
  let r := _resolve_against_ha bot name in
  (forall e, In e (snd r) -> In e (entities bot))
  /\ (forall id, fst r = Some id ->
        (exact_index bot !! normalize_name name = Some id /\ snd r = [])
        \/ (exists e, snd r = [e] /\ entity_id e = id))
  /\ (normalize_name name = "" -> r = (None, [])).
Proof. exact (resolve_against_ha_ids bot name). Qed.

Lemma expand_member_ids (bot : HABot) (m id : string) :
  In id (expand_member bot [] m) ->
  (exists n pretty, alias_lookup bot !! n = Some (pretty, id))
  \/ (id = m /\ contains "." id = true)
  \/ catalog_id bot id.
Proof.
  unfold expand_member.
  destruct (alias_lookup bot !! normalize_name m) as [[p ent]|] eqn:Ha.
  - intros [<- | []]. left. eauto.
  - destruct (contains "." m) eqn:Hdot.
    + intros [<- | []]. right. left. auto.
    + destruct (_resolve_against_ha bot m) as [[ent|] c] eqn:Hr; [|intros []].
      destruct (nonempty ent); [|intros []].
      intros [<- | []]. right. right.
      destruct (resolve_against_ha_ids bot m) as (Hc & Hid & _).
      rewrite Hr in Hc, Hid. simpl in Hc, Hid.
      destruct (Hid ent eq_refl) as [[Hex _] | (e & He & Heq)].
      * left. eauto.
      * right. exists e. split; [apply Hc; rewrite He; left; reflexivity | exact Heq].
Qed.

(** Every id that [resolve_single_target] returns is the entity id of a
    stored alias, a member of the matched group that holds a dot, or an id
    of the catalog; every candidate is an entity of the catalog. *)
Theorem resolve_single_target_sound (bot : HABot) (phrase : string) :
  Forall (known_id bot phrase) (fst (resolve_single_target bot phrase))
  /\ Forall (fun e => In e (entities bot)) (snd (resolve_single_target bot phrase)).
Proof.
  unfold resolve_single_target.
  destruct (group_lookup bot !! normalize_name phrase) as [[gp ms]|] eqn:Hg.
  - simpl. split; [|constructor].
    apply List.Forall_forall. intros id Hid.
    unfold group_expansion in Hid.
    rewrite fromkeys_dedup_first, dedup_first_In, foldl_expand_member in Hid.
    simpl in Hid. apply List.in_concat in Hid as (l & Hl & Hin).
    apply List.in_map_iff in Hl as (m & <- & Hm).
    destruct (expand_member_ids bot m id Hin) as [H | [[-> Hdot] | H]].
    + left. exact H.
    + right. left. exists gp, ms. auto.
    + right. right. exact H.
  - destruct (alias_lookup bot !! normalize_name phrase) as [[ap ent]|] eqn:Ha.
    + simpl. split; [|constructor]. constructor; [|constructor]. left. eauto.
    + destruct (resolve_against_ha_ids bot phrase) as (Hc & Hid & _).
      destruct (_resolve_against_ha bot phrase) as [[e|] c]; simpl in *.
      * split; [|apply List.Forall_forall; exact Hc].
        destruct (nonempty e); constructor; [|constructor].
        right. right. destruct (Hid e eq_refl) as [[Hex _] | (x & Hx & Heq)].
        -- left. eauto.
        -- right. exists x. split; [apply Hc; rewrite Hx; left; reflexivity | exact Heq].
      * split; [constructor | apply List.Forall_forall; exact Hc].
Qed.

(** The spelling of a phrase matters only in the token pass of the catalog:
    two phrases of the same normalized form resolve alike when that form
    is a stored group or alias, hits the exact-match index, or is contained
    in the label or the id of some entity. *)
Theorem resolve_by_normalized_name (bot : HABot) (p1 p2 : string) :
  normalize_name p1 = normalize_name p2 ->
  is_Some (group_lookup bot !! normalize_name p1)
  \/ is_Some (alias_lookup bot !! normalize_name p1)
  \/ is_Some (exact_index bot !! normalize_name p1)
  \/ existsb (contains_match (normalize_name p1)) (entities bot) = true ->
  resolve_single_target bot p1 = resolve_single_target bot p2.
Proof.
  intros Hn Hcase. unfold resolve_single_target. rewrite <- Hn.
  destruct (group_lookup bot !! normalize_name p1) as [[gp ms]|]; [reflexivity|].
  destruct (alias_lookup bot !! normalize_name p1) as [[ap e]|]; [reflexivity|].
  assert (Hr : _resolve_against_ha bot p1 = _resolve_against_ha bot p2).
  { unfold _resolve_against_ha. rewrite <- Hn.
    destruct (nonempty (normalize_name p1)); [|reflexivity]. simpl.
    destruct (exact_index bot !! normalize_name p1) as [eid|]; [reflexivity|].
    destruct Hcase as [[x Hx] | [[x Hx] | [[x Hx] | Hex]]]; try discriminate Hx.
    destruct (List.filter (contains_match (normalize_name p1)) (entities bot))
      as [|c0 cs] eqn:Hc.
    - exfalso. apply List.existsb_exists in Hex as (e & He & Hm).
      assert (Hin : In e (List.filter (contains_match (normalize_name p1)) (entities bot)))
        by (apply List.filter_In; auto).
      rewrite Hc in Hin. exact Hin.
    - destruct (List.filter is_preferred (c0 :: cs)) as [|q1 [|q2 qs]]; reflexivity. }
  rewrite Hr. reflexivity.
Qed.

Lemma resolve_by_normalized_name_witness :
  resolve_single_target Sample.downstairs_bot "KITCHEN--light"
  = resolve_single_target Sample.downstairs_bot "kitchen light".
Proof.
  apply resolve_by_normalized_name; [reflexivity|].
  right. left. eexists. vm_compute. reflexivity.
Defined.

(** ** The exact-match index *)

Lemma foldl_index_entity (ents : list Entity) (acc : gmap string string) (k : string) :
  foldl index_entity acc ents !! k
  = match (if nonempty k then last_indexed k ents else None) with
    | Some id => Some id
    | None => acc !! k
    end.
Proof.
  revert acc. induction ents as [|e ents IH]; intros acc; simpl.
  - destruct (nonempty k); reflexivity.
  - rewrite IH. destruct (nonempty k) eqn:Hk; simpl.
    + destruct (last_indexed k ents) as [id|]; [reflexivity|].
      unfold index_entity.
      destruct (String.eqb (norm_entity e) k) eqn:E2.
      * apply String.eqb_eq in E2. rewrite E2, Hk, orb_true_r.
        apply lookup_insert_eq.
      * apply String.eqb_neq in E2. rewrite orb_false_r.
        assert (Hskip : forall m : gmap string string,
                   (if nonempty (norm_entity e)
                    then <[norm_entity e := entity_id e]> m else m) !! k = m !! k).
        { intros m. destruct (nonempty (norm_entity e)); [|reflexivity].
          apply lookup_insert_ne, E2. }
        rewrite Hskip.
        destruct (String.eqb (norm_friendly e) k) eqn:E1.
        -- apply String.eqb_eq in E1. rewrite E1, Hk. apply lookup_insert_eq.
        -- apply String.eqb_neq in E1.
           destruct (nonempty (norm_friendly e)); [|reflexivity].
           apply lookup_insert_ne, E1.
    + unfold index_entity.
      assert (Hskip : forall (key : string) (m : gmap string string),
                 (if nonempty key then <[key := entity_id e]> m else m) !! k = m !! k).
      { intros key m. destruct (nonempty key) eqn:Hkey; [|reflexivity].
        apply lookup_insert_ne. intros Heq. rewrite Heq in Hkey. congruence. }
      rewrite !Hskip. reflexivity.
Qed.

Lemma exact_index_spec (data : list Item) (bot : HABot) (k : string) :
  exact_index (build_entity_index data bot) !! k
  = (if nonempty k then last_indexed k (map entity_of_item data) else None)
  /\ entities (build_entity_index data bot) = map entity_of_item data
  /\ Forall (fun e => norm_friendly e = normalize_name (friendly e)
                      /\ norm_entity e = normalize_name (entity_id e))
            (entities (build_entity_index data bot)).
Proof.
  split; [|split].
  - simpl. rewrite foldl_index_entity.
    destruct (if nonempty k then last_indexed k (map entity_of_item data) else None);
      [reflexivity | apply lookup_empty].
  - reflexivity.
  - simpl. apply List.Forall_forall. intros e He.
    apply List.in_map_iff in He as (it & <- & _). split; reflexivity.
Qed.

(** After [build_entity_index], the exact-match index has an entry under
    a name exactly when that name is not empty and is the normalized label
    or the normalized id of a fetched entity; the entry is the id of the
    last such entity. *)
Theorem build_entity_index_exact (data : list Item) (bot : HABot) (k : string) :
  exact_index (build_entity_index data bot) !! k
  = (if nonempty k then last_indexed k (map entity_of_item data) else None)
  /\ entities (build_entity_index data bot) = map entity_of_item data
  /\ Forall (fun e => norm_friendly e = normalize_name (friendly e)
                      /\ norm_entity e = normalize_name (entity_id e))
            (entities (build_entity_index data bot)).
Proof. exact (exact_index_spec data bot k). Qed.

Lemma last_indexed_some (k : string) (ents : list Entity) (id : string) :
  last_indexed k ents = Some id ->
  exists e, In e ents /\ entity_id e = id /\ (norm_friendly e = k \/ norm_entity e = k).
Proof.
  induction ents as [|e ents IH]; simpl; [discriminate|].
  destruct (last_indexed k ents) as [id'|].
  - intros H. destruct (IH H) as (e' & Hin & Hid & Hk). exists e'. auto.
  - destruct (String.eqb (norm_friendly e) k || String.eqb (norm_entity e) k) eqn:E;
      [|discriminate].
    intros H. injection H as <-. exists e. split; [left; reflexivity|].
    split; [reflexivity|].
    apply orb_prop in E as [E | E]; apply String.eqb_eq in E; auto.
Qed.

Lemma last_indexed_exists (k : string) (ents : list Entity) (e : Entity) :
  In e ents -> norm_friendly e = k \/ norm_entity e = k ->
  is_Some (last_indexed k ents).
Proof.
  intros Hin Hk. induction ents as [|e0 ents IH]; simpl; [contradiction|].
  destruct (last_indexed k ents) as [id|] eqn:Hl; [eexists; reflexivity|].
  destruct Hin as [-> | Hin].
  - destruct Hk as [<- | <-]; rewrite String.eqb_refl, ?orb_true_r;
      eexists; reflexivity.
  - destruct (IH Hin) as [x Hx]. discriminate Hx.
Qed.

Lemma resolve_exact_indexed (bot : HABot) (e : Entity) (name : string) :
  In e (entities bot) ->
  (forall k, exact_index bot !! k
             = if nonempty k then last_indexed k (entities bot) else None) ->
  nonempty (normalize_name name) = true ->
  norm_friendly e = normalize_name name \/ norm_entity e = normalize_name name ->
  (forall e', In e' (entities bot) ->
              norm_friendly e' = normalize_name name
              \/ norm_entity e' = normalize_name name ->
              entity_id e' = entity_id e) ->
  _resolve_against_ha bot name = (Some (entity_id e), []).
Proof.
  intros Hin Hidx Hne Hname Huniq.
  unfold _resolve_against_ha. rewrite Hne. simpl.
  rewrite Hidx, Hne.
  destruct (last_indexed_exists _ _ _ Hin Hname) as [id Hid].
  rewrite Hid.
  destruct (last_indexed_some _ _ _ Hid) as (e' & Hin' & <- & Hk).
  rewrite (Huniq e' Hin' Hk). reflexivity.
Qed.

(** In a catalog just fetched, typing the exact id or the exact label of an
    entity finds that entity, with no candidates, whatever the case and the
    punctuation typed, as long as the normalized form is not empty and no
    entity of another id has it as normalized label or id. *)
Theorem resolve_exact_name (data : list Item) (bot0 : HABot) (item : Item)
    (name : string) :
  In item data ->
  nonempty (normalize_name name) = true ->
  normalize_name name = normalize_name (friendly (entity_of_item item))
  \/ normalize_name name = normalize_name (item_entity_id item) ->
  (forall item', In item' data ->
       normalize_name (friendly (entity_of_item item')) = normalize_name name
       \/ normalize_name (item_entity_id item') = normalize_name name ->
       item_entity_id item' = item_entity_id item) ->
  _resolve_against_ha (build_entity_index data bot0) name
  = (Some (item_entity_id item), []).
Proof.
  intros Hin Hne Hname Huniq.
  apply (resolve_exact_indexed (build_entity_index data bot0) (entity_of_item item) name).
  - simpl. apply List.in_map. exact Hin.
  - intros k. exact (proj1 (exact_index_spec data bot0 k)).
  - exact Hne.
  - simpl. destruct Hname as [-> | ->]; auto.
  - simpl. intros e' He' Hk. apply List.in_map_iff in He' as (item' & <- & Hin').
    simpl in *. apply Huniq; assumption.
Qed.

Lemma resolve_exact_name_witness :
  _resolve_against_ha Sample.kitchen_bot "KITCHEN-light!" = (Some "light.kitchen", []).
Proof.
  apply (resolve_exact_name Sample.kitchen_items (init_bot DEFAULT_CONFIG_copy)
           {| item_entity_id := "light.kitchen"; item_friendly_name := Some "Kitchen Light" |}
           "KITCHEN-light!");
    [right; left; reflexivity | reflexivity | left; reflexivity |].
  intros item' [<- | [<- | []]] [H | H]; try reflexivity; vm_compute in H; discriminate H.
Defined.

(** ** More on the numeric suffix *)

Lemma strongly_sorted_lt (l : list N) :
  StronglySorted N.le l -> List.NoDup l -> StronglySorted N.lt l.
Proof.
  induction 1 as [|x l Hs IH Hx]; intros Hnd; constructor.
  - apply IH. inversion Hnd; assumption.
  - inversion Hnd as [|? ? Hnotin _]; subst.
    rewrite List.Forall_forall in *. intros y Hy.
    specialize (Hx y Hy).
    assert (x <> y) by (intros ->; contradiction). lia.
Qed.

(** [sorted(numbers)] lists the numbers of the set, each once, in strictly
    ascending order. *)
Lemma sorted_spec (numbers : gset N) :
  StronglySorted N.lt (Suffix.sorted numbers)
  /\ (forall n, In n (Suffix.sorted numbers) <-> n ∈ numbers)
  /\ (numbers <> ∅ -> Suffix.sorted numbers <> []).
Proof.
  unfold Suffix.sorted.
  pose proof (merge_sort_Permutation N.le (elements numbers)) as Hperm.
  split; [|split].
  - apply strongly_sorted_lt.
    + apply StronglySorted_merge_sort; [apply N.le_preorder | apply N.le_total].
    + apply NoDup_ListNoDup. rewrite Hperm. apply NoDup_elements.
  - intros n. rewrite <- list_elem_of_In, Hperm. apply elem_of_elements.
  - intros Hne Hnil. apply Hne. apply leibniz_equiv, elements_empty_iff.
    apply Permutation_nil_r. rewrite <- Hnil. symmetry. exact Hperm.
Qed.

Lemma expand_shape (raw_target : string) :
  Suffix.expand_numbers_suffix raw_target = [strip raw_target]
  \/ exists base numbers ns,
       Suffix.suffix_numbers (strip raw_target) = Some numbers
       /\ (forall n, In n ns <-> n ∈ numbers)
       /\ (0 < List.length ns)%nat
       /\ StronglySorted N.lt ns
       /\ Suffix.expand_numbers_suffix raw_target
          = map (fun n => base ++ " " ++ Suffix.str_of_N n) ns.
Proof.
  unfold Suffix.expand_numbers_suffix, Suffix.suffix_numbers.
  destruct (negb (Suffix.has_separator (strip raw_target))); [left; reflexivity|].
  destruct (Suffix.re_match_suffix (strip raw_target)) as [[g1 g2]|]; [|left; reflexivity].
  cbv zeta.
  set (numbers := Suffix.collect_numbers
                    (Suffix.sub_word "to" "-" (Suffix.sub_word "and" "," g2))).
  destruct (decide (numbers = ∅)) as [He | Hne]; [left; reflexivity|].
  right. exists (strip g1), numbers, (Suffix.sorted numbers).
  destruct (sorted_spec numbers) as (Hs & Hin & Hnil).
  split; [reflexivity|]. split; [exact Hin|]. split; [|split; [exact Hs | reflexivity]].
  specialize (Hnil Hne). destruct (Suffix.sorted numbers); [contradiction | simpl; lia].
Qed.

(** The result of [expand_numbers_suffix] is the stripped phrase alone, or
    one phrase per extracted number, [base] followed by a space and the
    number, in strictly ascending order of the numbers: never an empty
    list, never a number twice. *)
Theorem expand_numbers_suffix_shape (raw_target : string) :
  Suffix.expand_numbers_suffix raw_target = [strip raw_target]
  \/ exists base numbers ns,
       Suffix.suffix_numbers (strip raw_target) = Some numbers
       /\ (forall n, In n ns <-> n ∈ numbers)
       /\ (0 < List.length ns)%nat
       /\ StronglySorted N.lt ns
       /\ Suffix.expand_numbers_suffix raw_target
          = map (fun n => base ++ " " ++ Suffix.str_of_N n) ns.
Proof. exact (expand_shape raw_target). Qed.

Lemma in_range (start stop n : N) :
  In n (Suffix.range start stop) <-> (start <= n < stop)%N.
Proof.
  unfold Suffix.range. rewrite List.in_map_iff. split.
  - intros (i & <- & Hi). apply List.in_seq in Hi. lia.
  - intros H. exists (N.to_nat (n - start)). split; [lia|].
    apply List.in_seq. lia.
Qed.

Lemma digit_not_space (c : ascii) : is_digit c = true -> Parse.not_space c = true.
Proof.
  destruct c as [b0 b1 b2 b3 b4 b5 b6 b7];
    destruct b0, b1, b2, b3, b4, b5, b6, b7; simpl; intros H;
    try discriminate H; reflexivity.
Qed.

Lemma digit_not_hyphen (c : ascii) : is_digit c = true -> Ascii.eqb c "-"%char = false.
Proof.
  destruct c as [b0 b1 b2 b3 b4 b5 b6 b7];
    destruct b0, b1, b2, b3, b4, b5, b6, b7; simpl; intros H;
    try discriminate H; reflexivity.
Qed.

Lemma all_chars_impl (p q : ascii -> bool) (s : string) :
  (forall c, p c = true -> q c = true) ->
  all_chars p s = true -> all_chars q s = true.
Proof.
  intros Hpq. induction s as [|c s IH]; simpl; [reflexivity|].
  intros H. apply andb_prop in H as [Hc Hs]. rewrite (Hpq c Hc), (IH Hs). reflexivity.
Qed.

Lemma split_hyphen_digits (a b : string) :
  all_chars is_digit a = true ->
  Suffix.split_hyphen (a ++ String "-"%char b) = Some (a, b).
Proof.
  induction a as [|c a IH]; intros Ha.
  - reflexivity.
  - simpl in Ha. apply andb_prop in Ha as [Hc Ha].
    change (String c a ++ String "-"%char b) with (String c (a ++ String "-"%char b)).
    simpl. rewrite (digit_not_hyphen c Hc), (IH Ha). reflexivity.
Qed.

Lemma split_hyphen_none (a : string) :
  all_chars is_digit a = true -> Suffix.split_hyphen a = None.
Proof.
  induction a as [|c a IH]; intros Ha; [reflexivity|].
  simpl in Ha. apply andb_prop in Ha as [Hc Ha].
  simpl. rewrite (digit_not_hyphen c Hc), (IH Ha). reflexivity.
Qed.

Lemma token_numbers_single (a : string) :
  Suffix.isdigit a = true -> Suffix.token_numbers a = [Suffix.int a].
Proof.
  unfold Suffix.isdigit. intros Ha.
  apply andb_prop in Ha as [Hna Hda].
  pose proof (all_chars_impl _ _ a digit_not_space Hda) as Hsa.
  unfold Suffix.token_numbers. rewrite (strip_token a Hsa), Hna. simpl negb.
  cbv iota. rewrite (split_hyphen_none a Hda).
  unfold Suffix.isdigit. rewrite Hna, Hda. reflexivity.
Qed.

(** A token of digits stands for that number; a token [a-b] of two runs of
    digits stands for every number from [a] to [b], and for none when [a]
    is greater than [b]. *)
Theorem token_numbers_range (a b : string) (n : N) :
  Suffix.isdigit a = true ->
  Suffix.isdigit b = true ->
  Suffix.token_numbers a = [Suffix.int a]
  /\ (In n (Suffix.token_numbers (a ++ "-" ++ b))
      <-> (Suffix.int a <= n <= Suffix.int b)%N).
Proof.
  intros Ha Hb. split; [exact (token_numbers_single a Ha)|].
  revert Ha Hb. unfold Suffix.isdigit. intros Ha Hb.
  apply andb_prop in Ha as [Hna Hda]. apply andb_prop in Hb as [Hnb Hdb].
  pose proof (all_chars_impl _ _ a digit_not_space Hda) as Hsa.
  pose proof (all_chars_impl _ _ b digit_not_space Hdb) as Hsb.
  - assert (Hst : strip (a ++ "-" ++ b) = a ++ "-" ++ b).
    { apply strip_token. rewrite !all_chars_app, Hsa, Hsb. reflexivity. }
    unfold Suffix.token_numbers. rewrite Hst.
    replace (nonempty (a ++ "-" ++ b)) with true by (destruct a; reflexivity).
    simpl negb. cbv iota.
    change (a ++ "-" ++ b) with (a ++ String "-"%char b).
    rewrite (split_hyphen_digits a b Hda).
    rewrite (strip_token a Hsa), (strip_token b Hsb).
    unfold Suffix.isdigit. rewrite Hna, Hda, Hnb, Hdb. simpl andb. cbv iota zeta.
    destruct (Suffix.int a <=? Suffix.int b)%N eqn:Hle.
    + apply N.leb_le in Hle. rewrite in_range. lia.
    + apply N.leb_gt in Hle. simpl. lia.
Qed.

Lemma token_numbers_range_witness :
  Suffix.token_numbers "007" = [7%N]
  /\ (In 9%N (Suffix.token_numbers "7-12") <-> (7 <= 9 <= 12)%N).
Proof.
  destruct (token_numbers_range "007" "12" 9%N eq_refl eq_refl) as [H1 _].
  destruct (token_numbers_range "7" "12" 9%N eq_refl eq_refl) as [_ H2].
  split; [exact H1 | exact H2].
Defined.

Lemma int_go_of_uint_acc (d : Decimal.uint) (acc : positive) :
  Suffix.int_go (N.pos acc) (NilEmpty.string_of_uint d) = N.pos (Pos.of_uint_acc d acc).
Proof.
  revert acc.
  induction d; intros acc; cbn [NilEmpty.string_of_uint Pos.of_uint_acc Suffix.int_go];
    try reflexivity; rewrite <- IHd; f_equal;
    match goal with
    | |- context [N.of_nat ?n] =>
        let v := eval vm_compute in (N.of_nat n) in change (N.of_nat n) with v
    end; lia.
Qed.

Lemma int_go_of_uint (d : Decimal.uint) :
  Suffix.int_go 0 (NilEmpty.string_of_uint d) = Pos.of_uint d.
Proof.
  induction d; cbn [NilEmpty.string_of_uint Pos.of_uint Suffix.int_go];
    try reflexivity; try exact IHd;
    rewrite <- int_go_of_uint_acc; f_equal.
Qed.

Lemma string_of_uint_digits (d : Decimal.uint) :
  all_chars is_digit (NilEmpty.string_of_uint d) = true.
Proof. induction d; simpl; auto. Qed.

(** The decimal text of a number, as the expansion prints it, is a run of
    digits that reads back as the same number. *)
Theorem int_str_round_trip (n : N) :
  Suffix.isdigit (Suffix.str_of_N n) = true
  /\ Suffix.int (Suffix.str_of_N n) = n
  /\ Suffix.token_numbers (Suffix.str_of_N n) = [n].
Proof.
  assert (Hstr : Suffix.str_of_N n = NilEmpty.string_of_uint (N.to_uint n)).
  { unfold Suffix.str_of_N, NilZero.string_of_uint.
    destruct n as [|p]; [reflexivity|]. simpl.
    pose proof (Unsigned.to_uint_nonnil p) as Hnn.
    destruct (Pos.to_uint p); [contradiction | reflexivity..]. }
  assert (Hdig : Suffix.isdigit (Suffix.str_of_N n) = true).
  { unfold Suffix.isdigit. rewrite Hstr, string_of_uint_digits, andb_true_r.
    destruct n as [|p]; [reflexivity|]. simpl.
    pose proof (Unsigned.to_uint_nonnil p) as Hnn.
    destruct (Pos.to_uint p); [contradiction | reflexivity..]. }
  assert (Hint : Suffix.int (Suffix.str_of_N n) = n).
  { unfold Suffix.int. rewrite Hstr, int_go_of_uint.
    exact (DecimalN.Unsigned.of_to n). }
  split; [exact Hdig|]. split; [exact Hint|].
  rewrite (token_numbers_single _ Hdig), Hint. reflexivity.
Qed.

(** ** The reply of the dispatcher *)

Section DispatchFacts.
Variable send_webhook : string -> string -> string -> nat.
Variables (bot : HABot) (action_text user : string).

Lemma webhook_loop (name : string) (ids : list string) (succ fail : list Line) :
  foldl (fun '(succ, fail) eid =>
           let status := send_webhook eid (command_of action_text) user in
           if (status =? 200)%nat
           then ((succ ++ [Requested action_text name eid])%list, fail)
           else (succ, (fail ++ [WebhookFailed name eid status])%list))
        (succ, fail) ids
  = ((succ ++ flat_map (fun eid =>
                 if (send_webhook eid (command_of action_text) user =? 200)%nat
                 then [Requested action_text name eid] else []) ids)%list,
     (fail ++ flat_map (fun eid =>
                 let status := send_webhook eid (command_of action_text) user in
                 if (status =? 200)%nat then [] else [WebhookFailed name eid status])
               ids)%list).
Proof.
  revert succ fail. induction ids as [|eid ids IH]; intros succ fail; simpl.
  - rewrite !app_nil_r. reflexivity.
  - destruct (send_webhook eid (command_of action_text) user =? 200)%nat;
      rewrite IH, <- ?app_assoc; reflexivity.
Qed.

Lemma dispatch_name_lines (acc : list Line * list Line) (name : string) :
  dispatch_name send_webhook bot action_text user acc name
  = ((fst acc ++ successes_of send_webhook bot action_text user name)%list,
     (snd acc ++ failures_of send_webhook bot action_text user name)%list).
Proof.
  destruct acc as [succ fail].
  unfold dispatch_name, successes_of, failures_of.
  destruct (resolve_single_target bot name) as [[|id ids] cands]; cbn [fst snd].
  - destruct cands; cbn [flat_map]; rewrite app_nil_r; reflexivity.
  - exact (webhook_loop name (id :: ids) succ fail).
Qed.

Lemma dispatch_loop (names : list string) (acc : list Line * list Line) :
  foldl (dispatch_name send_webhook bot action_text user) acc names
  = ((fst acc ++ flat_map (successes_of send_webhook bot action_text user) names)%list,
     (snd acc ++ flat_map (failures_of send_webhook bot action_text user) names)%list).
Proof.
  revert acc. induction names as [|name names IH]; intros acc; simpl.
  - rewrite !app_nil_r. destruct acc; reflexivity.
  - rewrite IH, dispatch_name_lines. simpl. rewrite <- !app_assoc. reflexivity.
Qed.

Lemma name_has_line (name : string) :
  (0 < List.length (successes_of send_webhook bot action_text user name
                    ++ failures_of send_webhook bot action_text user name))%nat.
Proof.
  unfold successes_of, failures_of.
  destruct (resolve_single_target bot name) as [[|id ids] cands]; simpl fst.
  - destruct cands; simpl; lia.
  - simpl. destruct (send_webhook id (command_of action_text) user =? 200)%nat;
      simpl; rewrite ?length_app; simpl; lia.
Qed.

(** The reply lists the success lines of all expanded phrases, in their
    order, and then the failure lines of all of them; it is never empty, so
    the "nothing to do" line is never sent. *)
Theorem dispatch_reply (target_raw : string) :
  let names := Suffix.expand_numbers_suffix target_raw in
  dispatch send_webhook bot action_text target_raw user
  = (flat_map (successes_of send_webhook bot action_text user) names
     ++ flat_map (failures_of send_webhook bot action_text user) names)%list
  /\ (0 < List.length (dispatch send_webhook bot action_text target_raw user))%nat.
Proof.
  cbv zeta. unfold dispatch. rewrite dispatch_loop. cbn [fst snd].
  rewrite !app_nil_l.
  set (names := Suffix.expand_numbers_suffix target_raw).
  assert (Hpos : (0 < List.length
                         (flat_map (successes_of send_webhook bot action_text user) names
                          ++ flat_map (failures_of send_webhook bot action_text user) names))%nat).
  { assert (Hnames : (0 < List.length names)%nat).
    { subst names.
      destruct (expand_shape target_raw)
        as [-> | (base & numbers & ns & _ & _ & Hlen & _ & ->)];
        [simpl; lia | rewrite length_map; exact Hlen]. }
    destruct names as [|name names']; [simpl in Hnames; lia|].
    pose proof (name_has_line name) as Hline.
    simpl. rewrite !length_app in *. lia. }
  destruct (flat_map (successes_of send_webhook bot action_text user) names
            ++ flat_map (failures_of send_webhook bot action_text user) names)%list
    as [|l ls] eqn:Hlines; [simpl in Hpos; lia|].
  split; [reflexivity | simpl; lia].
Qed.
End DispatchFacts.

(** ** From the text of a message to the command *)

Lemma is_space_lower_char (c : ascii) : is_space (lower_char c) = is_space c.
Proof. destruct c as [[] [] [] [] [] [] [] []]; reflexivity. Qed.

Lemma not_newline_lower_char (c : ascii) :
  Parse.not_newline (lower_char c) = Parse.not_newline c.
Proof. destruct c as [[] [] [] [] [] [] [] []]; reflexivity. Qed.

Lemma lstrip_lower (s : string) : lstrip (lower s) = lower (lstrip s).
Proof.
  induction s as [|c s IH]; [reflexivity|].
  cbn [lower lstrip]. rewrite is_space_lower_char.
  destruct (is_space c); [exact IH | reflexivity].
Qed.

Lemma rstrip_lower (s : string) : rstrip (lower s) = lower (rstrip s).
Proof.
  induction s as [|c s IH]; [reflexivity|].
  cbn [lower rstrip]. rewrite IH, is_space_lower_char.
  destruct (rstrip s); [destruct (is_space c); reflexivity | reflexivity].
Qed.

Lemma strip_lower (s : string) : strip (lower s) = lower (strip s).
Proof. unfold strip. rewrite lstrip_lower, rstrip_lower. reflexivity. Qed.

Lemma not_newline_lower (s : string) :
  all_chars Parse.not_newline (lower s) = all_chars Parse.not_newline s.
Proof.
  induction s as [|c s IH]; [reflexivity|].
  cbn [lower all_chars]. rewrite IH, not_newline_lower_char. reflexivity.
Qed.

Lemma match_ws_dots_one (sp c : ascii) (r : string) :
  is_space sp = true -> is_space c = false ->
  all_chars Parse.not_newline (String c r) = true ->
  match_ws_dots (String sp (String c r)) = Some (String c r).
Proof.
  intros Hsp Hc Hnl. cbn [match_ws_dots]. rewrite Hsp, Hc.
  unfold dot_plus. rewrite (span_all _ _ Hnl). reflexivity.
Qed.

(** A message of the commands channel that reads "turn on" or "turn off"
    in any letter case, one space and a phrase without a newline switches
    the phrase in lower case, whoever the author is: the list of allowed
    users is not consulted. *)
Theorem on_message_turn (allowed : gset string)
    (send_webhook : string -> string -> string -> nat)
    (states : option (list Item)) (m : Message) (w : World) (bot : HABot)
    (a : string) (c : ascii) (t : string) :
  author_is_bot m = false ->
  channel_id m = COMMANDS_CHANNEL_ID ->
  lower a = "turn on" \/ lower a = "turn off" ->
  is_space c = false ->
  all_chars Parse.not_newline (String c t) = true ->
  content m = a ++ " " ++ String c t ->
  on_message allowed send_webhook states m w bot
  = (w, bot, Report (dispatch send_webhook bot (lower a)
                              (lower (strip (String c t))) (author m))).
Proof.
  intros Hbot Hchan Ha Hc Hnl Hcontent.
  assert (Hhead : lstrip (a ++ " " ++ String c t) = a ++ " " ++ String c t).
  { destruct a as [|c0 a']; [destruct Ha; discriminate|].
    assert (Hc0 : is_space c0 = false).
    { rewrite <- is_space_lower_char.
      destruct Ha as [Ha | Ha]; cbn [lower] in Ha; injection Ha as Hc0 _;
        rewrite Hc0; reflexivity. }
    change (String c0 a' ++ " " ++ String c t)
      with (String c0 (a' ++ " " ++ String c t)).
    cbn [lstrip]. rewrite Hc0. reflexivity. }
  assert (Hstrip : strip (content m) = a ++ " " ++ String c (rstrip t)).
  { rewrite Hcontent. unfold strip. rewrite Hhead.
    rewrite <- (append_assoc a " " (String c t)).
    rewrite (rstrip_app_anchor (a ++ " ") t c Hc).
    rewrite append_assoc. reflexivity. }
  assert (Htarget : strip (String (lower_char c) (lower (rstrip t)))
                    = lower (strip (String c t))).
  { change (String (lower_char c) (lower (rstrip t)))
      with (lower (String c (rstrip t))).
    rewrite strip_lower, <- (rstrip_cons_not_space c t Hc), strip_rstrip.
    reflexivity. }
  assert (Hg : all_chars Parse.not_newline (String (lower_char c) (lower (rstrip t)))
               = true).
  { change (String (lower_char c) (lower (rstrip t)))
      with (lower (String c (rstrip t))).
    rewrite not_newline_lower, <- (rstrip_cons_not_space c t Hc).
    apply all_chars_rstrip. exact Hnl. }
  assert (Hgc : is_space (lower_char c) = false)
    by (rewrite is_space_lower_char; exact Hc).
  unfold on_message. rewrite Hbot, Hchan, N.eqb_refl. cbn [negb]. cbv zeta.
  rewrite Hstrip, !lower_app. change (lower " ") with " ".
  change (lower (String c (rstrip t)))
    with (String (lower_char c) (lower (rstrip t))).
  set (g := String (lower_char c) (lower (rstrip t))) in *.
  destruct Ha as [Ha | Ha]; rewrite Ha.
  - replace (startswith "!alias " ("turn on" ++ " " ++ g)) with false by reflexivity.
    replace (startswith "!group " ("turn on" ++ " " ++ g)) with false by reflexivity.
    replace (String.eqb ("turn on" ++ " " ++ g) "!alias") with false by reflexivity.
    replace (String.eqb ("turn on" ++ " " ++ g) "!group") with false by reflexivity.
    replace (String.eqb ("turn on" ++ " " ++ g) "!reload") with false by reflexivity.
    cbn [orb]. unfold re_match_turn, match_action.
    replace (startswith "turn on" ("turn on" ++ " " ++ g)) with true by reflexivity.
    change (Parse.drop_chars (String.length "turn on") ("turn on" ++ " " ++ g))
      with (String " "%char g).
    subst g. rewrite (match_ws_dots_one " " _ _ eq_refl Hgc Hg), Htarget.
    reflexivity.
  - replace (startswith "!alias " ("turn off" ++ " " ++ g)) with false by reflexivity.
    replace (startswith "!group " ("turn off" ++ " " ++ g)) with false by reflexivity.
    replace (String.eqb ("turn off" ++ " " ++ g) "!alias") with false by reflexivity.
    replace (String.eqb ("turn off" ++ " " ++ g) "!group") with false by reflexivity.
    replace (String.eqb ("turn off" ++ " " ++ g) "!reload") with false by reflexivity.
    cbn [orb]. unfold re_match_turn, match_action.
    replace (startswith "turn on" ("turn off" ++ " " ++ g)) with false by reflexivity.
    replace (startswith "turn off" ("turn off" ++ " " ++ g)) with true by reflexivity.
    change (Parse.drop_chars (String.length "turn off") ("turn off" ++ " " ++ g))
      with (String " "%char g).
    subst g. rewrite (match_ws_dots_one " " _ _ eq_refl Hgc Hg), Htarget.
    reflexivity.
Qed.

Lemma on_message_turn_witness :
  _is_authorized (allowed_user_ids "7") (Chat.says "Turn OFF Desk Lamp  ") = false
  /\ Chat.after "7" "Turn OFF Desk Lamp  "
     = (Sample.lamp_world, Sample.lamp_bot,
        Report (dispatch Chat.webhook_ok Sample.lamp_bot "turn off" "desk lamp" "ann")).
Proof.
  split; [vm_compute; reflexivity|].
  exact (on_message_turn (allowed_user_ids "7") Chat.webhook_ok None
           (Chat.says "Turn OFF Desk Lamp  ") Sample.lamp_world Sample.lamp_bot
           "Turn OFF" "D" "esk Lamp  " eq_refl eq_refl (or_intror eq_refl)
           eq_refl eq_refl eq_refl).
Defined.

Lemma quoted_command_strip (head name after : string) (q : ascii) :
  Parse.is_quote q = true ->
  rstrip (head ++ String q (name ++ String q after))
  = head ++ String q (name ++ String q (rstrip after)).
Proof.
  intros Hq. pose proof (is_quote_not_space q Hq) as Hsp.
  rewrite (rstrip_app_anchor head _ q Hsp), (rstrip_app_anchor name after q Hsp).
  reflexivity.
Qed.

(** The command "!alias add", a quoted name and a text stores the stripped
    name with the first word of the text as its id; the closing quotation
    mark need not be followed by a space. *)
Theorem alias_add_command (q : ascii) (name after : string) (w : World) (bot : HABot) :
  Parse.is_quote q = true ->
  all_chars (fun c => negb (Ascii.eqb c q)) name = true ->
  nonempty (strip name) = true ->
  nonempty (strip after) = true ->
  handle_alias_command ("!alias add " ++ String q (name ++ String q after)) w bot
  = admin (alias_add (strip name) (Parse.first_token (strip after)) w bot).
Proof.
  intros Hq Hname Hn Ha.
  unfold handle_alias_command.
  assert (Hs : strip ("!alias add " ++ String q (name ++ String q after))
               = "!alias add " ++ String q (name ++ String q (rstrip after))).
  { unfold strip.
    replace (lstrip ("!alias add " ++ String q (name ++ String q after)))
      with ("!alias add " ++ String q (name ++ String q after)) by reflexivity.
    apply quoted_command_strip. exact Hq. }
  rewrite Hs.
  set (Q := String q (name ++ String q (rstrip after))).
  change (Parse.drop_chars 6 ("!alias add " ++ Q)) with (" add " ++ Q).
  assert (Ht : strip (" add " ++ Q) = "add " ++ Q).
  { unfold strip.
    replace (lstrip (" add " ++ Q)) with ("add " ++ Q) by reflexivity.
    subst Q. rewrite (quoted_command_strip "add " name _ q Hq), rstrip_idempotent.
    reflexivity. }
  rewrite Ht. cbv zeta.
  replace (negb (nonempty ("add " ++ Q)) || String.eqb ("add " ++ Q) "list")
    with false by reflexivity.
  replace (startswith "add" ("add " ++ Q)) with true by reflexivity.
  change (Parse.drop_chars 3 ("add " ++ Q)) with (" " ++ Q).
  subst Q. rewrite (parse_quoted " " name (rstrip after) q Hq eq_refl Hname).
  rewrite strip_rstrip. unfold Parse.name_given. rewrite Hn, Ha. reflexivity.
Qed.

Lemma alias_add_command_witness :
  handle_alias_command "!alias add 'Hall Lamp'light.hall extra"
    Sample.lamp_world Sample.lamp_bot
  = admin (alias_add "Hall Lamp" "light.hall" Sample.lamp_world Sample.lamp_bot).
Proof.
  exact (alias_add_command "'" "Hall Lamp" "light.hall extra"
           Sample.lamp_world Sample.lamp_bot eq_refl eq_refl eq_refl eq_refl).
Defined.

(** The commands "!group set" and "!group add" with a quoted name and a
    text write the members the text splits into under the stripped name,
    and ask for members when the text has none. *)
Theorem group_write_command (set_mode : bool) (q : ascii) (name after : string)
    (w : World) (bot : HABot) :
  Parse.is_quote q = true ->
  all_chars (fun c => negb (Ascii.eqb c q)) name = true ->
  nonempty (strip name) = true ->
  handle_group_command
    ((if set_mode then "!group set " else "!group add ")
     ++ String q (name ++ String q after)) w bot
  = match Parse.split_members after with
    | [] => (w, bot, NeedMembers)
    | members =>
        match group_set_or_add set_mode (strip name) members w bot with
        | Some after' => admin after'
        | None => (w, bot, Raised)
        end
    end.
Proof.
  intros Hq Hname Hn.
  assert (Hmembers : Parse.split_members (strip after) = Parse.split_members after).
  { unfold Parse.split_members. rewrite strip_idempotent. reflexivity. }
  unfold handle_group_command.
  destruct set_mode.
  - assert (Hs : strip ("!group set " ++ String q (name ++ String q after))
                 = "!group set " ++ String q (name ++ String q (rstrip after))).
    { unfold strip.
      replace (lstrip ("!group set " ++ String q (name ++ String q after)))
        with ("!group set " ++ String q (name ++ String q after)) by reflexivity.
      apply quoted_command_strip. exact Hq. }
    rewrite Hs.
    set (Q := String q (name ++ String q (rstrip after))).
    change (Parse.drop_chars 6 ("!group set " ++ Q)) with (" set " ++ Q).
    assert (Ht : strip (" set " ++ Q) = "set " ++ Q).
    { unfold strip.
      replace (lstrip (" set " ++ Q)) with ("set " ++ Q) by reflexivity.
      subst Q. rewrite (quoted_command_strip "set " name _ q Hq), rstrip_idempotent.
      reflexivity. }
    rewrite Ht. cbv zeta.
    replace (negb (nonempty ("set " ++ Q)) || String.eqb ("set " ++ Q) "list")
      with false by reflexivity.
    replace (startswith "show" ("set " ++ Q)) with false by reflexivity.
    replace (startswith "set" ("set " ++ Q)) with true by reflexivity.
    cbn [orb].
    change (Parse.drop_chars 3 ("set " ++ Q)) with (" " ++ Q).
    subst Q. rewrite (parse_quoted " " name (rstrip after) q Hq eq_refl Hname).
    rewrite strip_rstrip. unfold Parse.name_given. rewrite Hn, Hmembers. reflexivity.
  - assert (Hs : strip ("!group add " ++ String q (name ++ String q after))
                 = "!group add " ++ String q (name ++ String q (rstrip after))).
    { unfold strip.
      replace (lstrip ("!group add " ++ String q (name ++ String q after)))
        with ("!group add " ++ String q (name ++ String q after)) by reflexivity.
      apply quoted_command_strip. exact Hq. }
    rewrite Hs.
    set (Q := String q (name ++ String q (rstrip after))).
    change (Parse.drop_chars 6 ("!group add " ++ Q)) with (" add " ++ Q).
    assert (Ht : strip (" add " ++ Q) = "add " ++ Q).
    { unfold strip.
      replace (lstrip (" add " ++ Q)) with ("add " ++ Q) by reflexivity.
      subst Q. rewrite (quoted_command_strip "add " name _ q Hq), rstrip_idempotent.
      reflexivity. }
    rewrite Ht. cbv zeta.
    replace (negb (nonempty ("add " ++ Q)) || String.eqb ("add " ++ Q) "list")
      with false by reflexivity.
    replace (startswith "show" ("add " ++ Q)) with false by reflexivity.
    replace (startswith "set" ("add " ++ Q)) with false by reflexivity.
    replace (startswith "add" ("add " ++ Q)) with true by reflexivity.
    cbn [orb].
    change (Parse.drop_chars 3 ("add " ++ Q)) with (" " ++ Q).
    subst Q. rewrite (parse_quoted " " name (rstrip after) q Hq eq_refl Hname).
    rewrite strip_rstrip. unfold Parse.name_given. rewrite Hn, Hmembers. reflexivity.
Qed.

Lemma group_write_command_witness :
  handle_group_command "!group set 'Movie Night' light.tv, light.sofa"
    Sample.lamp_world Sample.lamp_bot
  = match group_set_or_add true "Movie Night" ["light.tv"; "light.sofa"]
            Sample.lamp_world Sample.lamp_bot with
    | Some after' => admin after'
    | None => (Sample.lamp_world, Sample.lamp_bot, Raised)
    end.
Proof.
  exact (group_write_command true "'" "Movie Night" " light.tv, light.sofa"
           Sample.lamp_world Sample.lamp_bot eq_refl eq_refl eq_refl).
Defined.
